(** * Search result pipeline of the restaurant recommender

    A shallow embedding of the cache (lib/search-cache.ts), the result parser
    (lib/search-result-parser.ts), the quality validator
    (lib/restaurant-validator.ts), the error classifier
    (lib/error-handling.ts) and the search route that wires them together,
    followed by the properties the specification states about them.

    Conventions of the embedding.
    - A JavaScript string is a [string] of bytes; case mapping and white
      space are the ASCII ones.
    - A JavaScript number that the code only compares and adds is a rational
      [Q] (exact arithmetic, no NaN); one that counts something or that the
      code prints is an integer [Z].
    - [undefined] and absent optional fields are [None].
    - [Date.now()] is an explicit argument [now]; [Math.random()] is an
      oracle [rand : nat -> Q] read through a counter. *)

From Stdlib Require Import ZArith QArith Qround Qabs Qminmax Lia Lqa Permutation Ascii.
From stdpp Require Import base strings list gmap sorting pretty.

Local Open Scope string_scope.
Set Warnings "-clear-no-such-hyp".

(** ** JavaScript string and number primitives used by the code *)

Module Js.

Definition is_upper (c : ascii) : bool :=
  (65 <=? nat_of_ascii c)%nat && (nat_of_ascii c <=? 90)%nat.

Definition lower_ascii (c : ascii) : ascii :=
  if is_upper c then ascii_of_nat (nat_of_ascii c + 32) else c.

(** [String.prototype.toLowerCase] *)
Fixpoint toLowerCase (s : string) : string :=
  match s with
  | EmptyString => EmptyString
  | String c s' => String (lower_ascii c) (toLowerCase s')
  end.

(** the class [\s] among the ASCII characters, of which the strings here
    are made: tab, line feed, vertical tab, form feed, carriage return and
    space *)
Definition is_space (c : ascii) : bool :=
  match nat_of_ascii c with
  | 9 | 10 | 11 | 12 | 13 | 32 => true
  | _ => false
  end%nat.

Fixpoint trimStart (s : string) : string :=
  match s with
  | EmptyString => EmptyString
  | String c s' => if is_space c then trimStart s' else s
  end.

Fixpoint trimEnd (s : string) : string :=
  match s with
  | EmptyString => EmptyString
  | String c s' =>
      match trimEnd s' with
      | EmptyString => if is_space c then EmptyString else String c EmptyString
      | t => String c t
      end
  end.

(** [String.prototype.trim] *)
Definition trim (s : string) : string := trimEnd (trimStart s).

(** [s.includes(sub)] *)
Fixpoint includes (s sub : string) : bool :=
  String.prefix sub s ||
  match s with
  | EmptyString => false
  | String _ s' => includes s' sub
  end.

(** [Array.prototype.join] *)
Fixpoint join (sep : string) (l : list string) : string :=
  match l with
  | [] => ""
  | [x] => x
  | x :: l' => x ++ sep ++ join sep l'
  end.

(** [Array.prototype.sort] without a comparator: ascending order of the
    strings' code units. *)
Definition sort (l : list string) : list string := merge_sort String.le l.

(** [x || d] on strings and on numbers: the empty string and 0 are falsy. *)
Definition truthy_str (s : string) : bool := negb (String.eqb s "").

Definition or_str (o : option string) (d : string) : string :=
  match o with
  | Some s => if truthy_str s then s else d
  | None => d
  end.

(** [Number.prototype.toString] on an integer *)
Definition show_Z (n : Z) : string := pretty n.

(** The digits after the decimal point of [m / 1000], [0 <= m < 1000],
    without trailing zeros. *)
Definition show_frac3 (m : Z) : string :=
  let d1 := (m / 100)%Z in
  let d2 := (m / 10 mod 10)%Z in
  let d3 := (m mod 10)%Z in
  if (m =? 0)%Z then ""
  else if (m mod 100 =? 0)%Z then "." ++ show_Z d1
  else if (d3 =? 0)%Z then "." ++ show_Z d1 ++ show_Z d2
  else "." ++ show_Z d1 ++ show_Z d2 ++ show_Z d3.

(** [Number.prototype.toString] on the number [k / 1000]: the shortest
    decimal, [1.5] for 1500/1000 and [0] for 0 and for -0. *)
Definition show_milli (k : Z) : string :=
  (if (k <? 0)%Z then "-" else "") ++
  show_Z (Z.abs k / 1000) ++ show_frac3 (Z.abs k mod 1000).

(** [Math.round]: the nearest integer, halves towards +infinity *)
Definition round (x : Q) : Z := Qfloor (x + (1 # 2))%Q.

(** The nearest integer, the even one of two at a half: the rounding of
    IEEE 754 arithmetic. *)
Definition round_half_even (x : Q) : Z :=
  let f := Qfloor x in
  match (x - inject_Z f ?= 1 # 2)%Q with
  | Lt => f
  | Eq => if Z.even f then f else (f + 1)%Z
  | Gt => (f + 1)%Z
  end.

(** A magnitude [a], counted in units of 2^-1074 (the smallest positive
    double), kept to 53 significant bits; below 2^52 units, the subnormal
    range, to whole units. *)
Definition significand (a : Q) : Z :=
  let s := Z.max (Z.log2 (Qfloor a) - 52) 0 in
  (round_half_even (a / inject_Z (2 ^ s)) * 2 ^ s)%Z.

(** The double nearest to the rational [x]: a JavaScript number is a
    binary64 value, and every arithmetic operation returns the double
    nearest to its exact result.  A rational that is not a double stands for
    the one a decimal literal of that value denotes.  Magnitudes beyond the
    largest double (1.8e308), where the result is [Infinity], are outside
    this function. *)
Definition double (x : Q) : Q :=
  Qred (inject_Z (Z.sgn (Qnum x) * significand (Qabs x * inject_Z (2 ^ 1074)))
        / inject_Z (2 ^ 1074)).

(** [x + y], [x * y] and [x / y] on doubles *)
Definition fadd (x y : Q) : Q := double (x + y).
Definition fmul (x y : Q) : Q := double (x * y).
Definition fdiv (x y : Q) : Q := double (x / y).

(** The double quote character, as a string *)
Definition dquote : string := String (ascii_of_nat 34) EmptyString.

(** Truthiness of a number: 0 is falsy. *)
Definition truthy_num (x : Q) : bool := negb (Qeq_bool x 0).

(** [o || d] on an optional number *)
Definition or_numQ (o : option Q) (d : Q) : Q :=
  match o with
  | Some x => if truthy_num x then x else d
  | None => d
  end.

(** [Number.isInteger] *)
Definition isInteger (x : Q) : bool := Qeq_bool x (inject_Z (Qfloor x)).

Definition Qgeb (x y : Q) : bool := Qle_bool y x.
Definition Qltb (x y : Q) : bool := negb (Qle_bool y x).
Definition Qgtb (x y : Q) : bool := negb (Qle_bool x y).

(** [arr[i]] for a computed index: [undefined] outside the array *)
Definition index {A} (l : list A) (i : Z) : option A :=
  if (i <? 0)%Z then None else l !! Z.to_nat i.

(** [arr.slice(0, n)]; a negative [n] counts from the end *)
Definition slice0 {A} (n : Z) (l : list A) : list A :=
  if (n <? 0)%Z then take (length l - Z.to_nat (- n)) l else take (Z.to_nat n) l.

Definition is_digit (c : ascii) : bool :=
  (48 <=? nat_of_ascii c)%nat && (nat_of_ascii c <=? 57)%nat.

Definition is_alpha (c : ascii) : bool :=
  let n := nat_of_ascii c in
  ((65 <=? n)%nat && (n <=? 90)%nat) || ((97 <=? n)%nat && (n <=? 122)%nat).

Fixpoint forallb_string (p : ascii → bool) (s : string) : bool :=
  match s with
  | EmptyString => true
  | String c s' => p c && forallb_string p s'
  end.

Fixpoint filter_string (p : ascii → bool) (s : string) : string :=
  match s with
  | EmptyString => EmptyString
  | String c s' => if p c then String c (filter_string p s') else filter_string p s'
  end.

(** [s.replace(/\s/g, '')] *)
Definition remove_spaces (s : string) : string :=
  filter_string (λ c, negb (is_space c)) s.

Fixpoint drop_string (n : nat) (s : string) : string :=
  match n, s with
  | O, _ => s
  | S n', String _ s' => drop_string n' s'
  | S _, EmptyString => EmptyString
  end.

(** [s.replace(pat, rep)] with a string pattern: the first occurrence *)
Fixpoint replace_first (pat rep s : string) : string :=
  if String.prefix pat s then rep ++ drop_string (String.length pat) s
  else match s with
       | EmptyString => EmptyString
       | String c s' => String c (replace_first pat rep s')
       end.

(** [s.slice(-n)]: the last [n] characters *)
Definition slice_last (n : nat) (s : string) : string :=
  drop_string (String.length s - n) s.

(** [Number.prototype.toFixed(1)] *)
Definition toFixed1 (x : Q) : string :=
  let n := round (Qabs x * 10) in
  (if Qltb x 0 then "-" else "") ++ show_Z (n / 10) ++ "." ++ show_Z (n mod 10).

(** The values [parseFloat] returns and comparators compute with. *)
Inductive num := NaN | Inf (negative : bool) | Fin (q : Q).

Fixpoint span_digits (s : string) : list Z * string :=
  match s with
  | String c s' =>
      if is_digit c then
        let '(ds, rest) := span_digits s' in
        ((Z.of_nat (nat_of_ascii c) - 48)%Z :: ds, rest)
      else ([], s)
  | EmptyString => ([], EmptyString)
  end.

Definition digits_value (ds : list Z) : Z :=
  foldl (λ acc d, (acc * 10 + d)%Z) 0%Z ds.

Definition pow10 (e : Z) : Q :=
  if (e <? 0)%Z then 1 / inject_Z (10 ^ (- e)) else inject_Z (10 ^ e).

(** The exponent part [e[+-]digits], read only when digits follow. *)
Definition parse_exponent (s : string) : Z :=
  match s with
  | String c s' =>
      if (nat_of_ascii c =? 101)%nat || (nat_of_ascii c =? 69)%nat then
        let '(neg, s'') :=
          match s' with
          | String "-" t => (true, t)
          | String "+" t => (false, t)
          | _ => (false, s')
          end in
        let '(ds, _) := span_digits s'' in
        match ds with
        | [] => 0%Z
        | _ => if neg then (- digits_value ds)%Z else digits_value ds
        end
      else 0%Z
  | EmptyString => 0%Z
  end.

(** [parseFloat]: the longest prefix, after leading white space, that is a
    decimal literal. *)
Definition parseFloat (s : string) : num :=
  let s := trimStart s in
  let '(neg, s) :=
    match s with
    | String "-" t => (true, t)
    | String "+" t => (false, t)
    | _ => (false, s)
    end in
  if String.prefix "Infinity" s then Inf neg
  else
    let '(ip, rest) := span_digits s in
    let '(fp, rest) :=
      match rest with
      | String "." t => span_digits t
      | _ => ([], rest)
      end in
    match ip, fp with
    | [], [] => NaN
    | _, _ =>
        let mant :=
          (inject_Z (digits_value ip)
           + inject_Z (digits_value fp) * pow10 (- Z.of_nat (length fp)))%Q in
        let v := (mant * pow10 (parse_exponent rest))%Q in
        Fin (if neg then - v else v)%Q
    end.

Definition num_gt (x : num) (y : Q) : bool :=
  match x with
  | NaN => false
  | Inf neg => negb neg
  | Fin q => Qgtb q y
  end.

Definition num_lt (x : num) (y : Q) : bool :=
  match x with
  | NaN => false
  | Inf neg => neg
  | Fin q => Qltb q y
  end.

(** [x !== y] *)
Definition num_neq (x y : num) : bool :=
  match x, y with
  | NaN, _ | _, NaN => true
  | Inf a, Inf b => negb (Bool.eqb a b)
  | Fin p, Fin q => negb (Qeq_bool p q)
  | _, _ => true
  end.

(** The sign of [x - y], as a comparator result: [NaN] counts as equal. *)
Definition num_sub_sign (x y : num) : comparison :=
  match x, y with
  | NaN, _ | _, NaN => Eq
  | Inf a, Inf b => if Bool.eqb a b then Eq else if a then Lt else Gt
  | Inf a, Fin _ => if a then Lt else Gt
  | Fin _, Inf b => if b then Gt else Lt
  | Fin p, Fin q => (p ?= q)%Q
  end.

(** [Array.prototype.sort(cmp)]: a stable sort; [cmp a b = Gt] moves [b]
    in front of [a].  For a comparator that is a consistent ordering this is
    the order of every stable sort; for another one the language leaves the
    order to the engine, and the result here is one permutation among
    those. *)
Fixpoint insert_by {A} (cmp : A → A → comparison) (x : A) (l : list A) : list A :=
  match l with
  | [] => [x]
  | y :: l' =>
      match cmp x y with
      | Gt => y :: insert_by cmp x l'
      | _ => x :: l
      end
  end.

Definition sort_by {A} (cmp : A → A → comparison) (l : list A) : list A :=
  foldr (insert_by cmp) [] l.

(** [s.split(/\s+/)]: the pieces between the maximal runs of white space,
    the empty pieces at either end included. *)
Fixpoint split_ws_go (cur : string) (gap : bool) (s : string) : list string :=
  match s with
  | EmptyString => [cur]
  | String c s' =>
      if is_space c then
        if gap then split_ws_go EmptyString true s'
        else cur :: split_ws_go EmptyString true s'
      else split_ws_go (cur +:+ String c EmptyString) false s'
  end.

Definition split_ws (s : string) : list string := split_ws_go EmptyString false s.

(** [s.split(' ')]: the pieces between the occurrences of the separator,
    empty pieces included. *)
Fixpoint split_on_go (sep : ascii) (cur : string) (s : string) : list string :=
  match s with
  | EmptyString => [cur]
  | String c s' =>
      if Ascii.eqb c sep then cur :: split_on_go sep EmptyString s'
      else split_on_go sep (cur +:+ String c EmptyString) s'
  end.

Definition split_on (sep : ascii) (s : string) : list string :=
  split_on_go sep EmptyString s.

(** the class [\w]: letters, digits and the underscore *)
Definition is_word (c : ascii) : bool :=
  is_alpha c || is_digit c || (nat_of_ascii c =? 95)%nat.

Fixpoint map_string (f : ascii → ascii) (s : string) : string :=
  match s with
  | EmptyString => EmptyString
  | String c s' => String (f c) (map_string f s')
  end.

Definition hex_digit (n : nat) : string :=
  String (ascii_of_nat (if (n <? 10)%nat then 48 + n else 55 + n)) EmptyString.

(** [encodeURIComponent], on the bytes of the string *)
Definition uri_unreserved (c : ascii) : bool :=
  is_alpha c || is_digit c ||
  match nat_of_ascii c with
  | 45 | 95 | 46 | 33 | 126 | 42 | 39 | 40 | 41 => true
  | _ => false
  end%nat.

Fixpoint encodeURIComponent (s : string) : string :=
  match s with
  | EmptyString => EmptyString
  | String c s' =>
      (if uri_unreserved c then String c EmptyString
       else "%" ++ hex_digit (nat_of_ascii c / 16) ++ hex_digit (nat_of_ascii c mod 16))
      ++ encodeURIComponent s'
  end.

End Js.

(** ** Shared data: [LocationData] (hooks/use-location.ts) *)

Record LocationData := mkLocation {
  latitude : Q;
  longitude : Q;
  address : option string;
  city : option string;
  state : option string;
  country : option string;
  postalCode : option string
}.

(** ** The search cache (lib/search-cache.ts) *)

Module SearchCache.

(** The parameter object of [generateCacheKey]. *)
Record KeyParams := mkKeyParams {
  query : string;
  location : LocationData;
  cuisine : option string;
  dietaryRestrictions : option (list string);
  priceRange : option (list Z);
  radius : option Z
}.

(** [params.priceRange?.[i] || ''] inside a template literal: the number
    printed, or nothing when it is absent or 0. *)
Definition price_part (pr : option (list Z)) (i : nat) : string :=
  match pr ≫= (λ l, l !! i) with
  | Some n => if (n =? 0)%Z then "" else Js.show_Z n
  | None => ""
  end.

(** [Math.round(x * 1000) / 1000], kept as the integer number of
    thousandths.  The product is the double nearest to it, and
    [Math.round] works on that double. *)
Definition round3 (x : Q) : Z := Js.round (Js.fmul (Js.double x) 1000).

Definition generateCacheKey (params : KeyParams) : string :=
  let n_query := Js.trim (Js.toLowerCase (query params)) in
  let n_lat := round3 (latitude (location params)) in
  let n_lng := round3 (longitude (location params)) in
  let n_city := Js.toLowerCase <$> city (location params) in
  let n_cuisine := Js.toLowerCase <$> cuisine params in
  let n_dietary :=
    Js.or_str
      ((λ l, Js.join "," (Js.sort (map Js.toLowerCase l)))
         <$> dietaryRestrictions params) "" in
  let n_priceMin := price_part (priceRange params) 0 in
  let n_priceMax := price_part (priceRange params) 1 in
  let n_radius :=
    match radius params with
    | Some r => if (r =? 0)%Z then 10%Z else r
    | None => 10%Z
    end in
  Js.join "|"
    [ n_query;
      Js.show_milli n_lat ++ "," ++ Js.show_milli n_lng;
      Js.or_str n_city "";
      Js.or_str n_cuisine "";
      n_dietary;
      n_priceMin ++ "-" ++ n_priceMax;
      Js.show_Z n_radius ].

Section WithPayload.
Context {T : Type}.

Record Metadata := mkMetadata {
  md_location : LocationData;
  md_query : string;
  md_resultCount : Z;
  md_version : string
}.

Record CacheEntry := mkEntry {
  key : string;
  data : T;
  timestamp : Z;
  expiresAt : Z;
  metadata : Metadata;
  accessCount : Z;
  lastAccessed : Z
}.

Record CacheOptions := mkOptions {
  opt_ttl : option Z;
  opt_maxSize : option Z;
  opt_version : option string
}.

Record Stats := mkStats {
  hits : Z;
  misses : Z;
  evictions : Z;
  totalRequests : Z
}.

(** The fields of the class instance.  The JavaScript [Map] is a finite
    map; the operations below only look keys up, insert and delete. *)
Record t := mkCache {
  cache : gmap string CacheEntry;
  accessOrder : list string;
  ttl : Z;
  maxSize : Z;
  version : string;
  stats : Stats
}.

Definition or_num (o : option Z) (d : Z) : Z :=
  match o with
  | Some n => if (n =? 0)%Z then d else n
  | None => d
  end.

Definition resetStats : Stats := mkStats 0 0 0 0.

(** The constructor. *)
Definition new (options : CacheOptions) : t :=
  {| cache := ∅;
     accessOrder := [];
     ttl := or_num (opt_ttl options) (30 * 60 * 1000);
     maxSize := or_num (opt_maxSize options) 100;
     version := Js.or_str (opt_version options) "1.0";
     stats := resetStats |}.

Definition with_stats (f : Stats → Stats) (c : t) : t :=
  {| cache := cache c; accessOrder := accessOrder c; ttl := ttl c;
     maxSize := maxSize c; version := version c; stats := f (stats c) |}.

Definition with_store (m : gmap string CacheEntry) (o : list string) (c : t) : t :=
  {| cache := m; accessOrder := o; ttl := ttl c;
     maxSize := maxSize c; version := version c; stats := stats c |}.

(** [indexOf] followed by [splice(index, 1)]: the first occurrence goes. *)
Fixpoint removeFromAccessOrder (k : string) (o : list string) : list string :=
  match o with
  | [] => []
  | x :: o' => if decide (x = k) then o' else x :: removeFromAccessOrder k o'
  end.

Definition updateAccessOrder (k : string) (o : list string) : list string :=
  removeFromAccessOrder k o ++ [k].

Definition evictLRU (c : t) : t :=
  match accessOrder c with
  | [] => c
  | lruKey :: rest =>
      with_stats
        (λ s, mkStats (hits s) (misses s) (evictions s + 1) (totalRequests s))
        (with_store (delete lruKey (cache c)) rest c)
  end.

Definition touch (now : Z) (e : CacheEntry) : CacheEntry :=
  {| key := key e; data := data e; timestamp := timestamp e;
     expiresAt := expiresAt e; metadata := metadata e;
     accessCount := accessCount e + 1; lastAccessed := now |}.

Definition count_request (s : Stats) : Stats :=
  mkStats (hits s) (misses s) (evictions s) (totalRequests s + 1).
Definition count_miss (s : Stats) : Stats :=
  mkStats (hits s) (misses s + 1) (evictions s) (totalRequests s).
Definition count_hit (s : Stats) : Stats :=
  mkStats (hits s + 1) (misses s) (evictions s) (totalRequests s).

(** [get(key)], at time [now = Date.now()]. *)
Definition get (k : string) (now : Z) (c : t) : option T * t :=
  let c := with_stats count_request c in
  match cache c !! k with
  | None => (None, with_stats count_miss c)
  | Some entry =>
      if (now >? expiresAt entry)%Z then
        (None,
         with_stats count_miss
           (with_store (delete k (cache c))
                       (removeFromAccessOrder k (accessOrder c)) c))
      else
        (Some (data entry),
         with_stats count_hit
           (with_store (<[k := touch now entry]> (cache c))
                       (updateAccessOrder k (accessOrder c)) c))
  end.

(** [set(key, data, metadata)], at time [now]; the metadata argument
    carries location, query and result count, the version is added. *)
Definition set (k : string) (d : T) (loc : LocationData) (q : string)
    (resultCount : Z) (now : Z) (c : t) : t :=
  let c :=
    if ((Z.of_nat (size (cache c)) >=? maxSize c)%Z
        && negb (bool_decide (is_Some (cache c !! k))))
    then evictLRU c else c in
  let entry :=
    {| key := k; data := d; timestamp := now; expiresAt := (now + ttl c)%Z;
       metadata := mkMetadata loc q resultCount (version c);
       accessCount := 1; lastAccessed := now |} in
  with_store (<[k := entry]> (cache c)) (updateAccessOrder k (accessOrder c)) c.

(** [has(key)], at time [now]. *)
Definition has (k : string) (now : Z) (c : t) : bool * t :=
  match cache c !! k with
  | None => (false, c)
  | Some entry =>
      if (now >? expiresAt entry)%Z then
        (false,
         with_store (delete k (cache c))
                    (removeFromAccessOrder k (accessOrder c)) c)
      else (true, c)
  end.

(** [delete(key)] *)
Definition delete_ (k : string) (c : t) : bool * t :=
  match cache c !! k with
  | Some _ =>
      (true,
       with_store (delete k (cache c))
                  (removeFromAccessOrder k (accessOrder c)) c)
  | None => (false, c)
  end.

(** [clear()] *)
Definition clear (c : t) : t :=
  with_stats (λ _, resetStats) (with_store ∅ [] c).

(** [expireOldEntries(maxAgeMs)], at time [now]: every entry created
    before the cutoff is deleted from the map and taken out of the access
    order; the number of deleted entries is returned. *)
Definition expireOldEntries (maxAgeMs : Z) (now : Z) (c : t) : Z * t :=
  let cutoffTime := (now - maxAgeMs)%Z in
  let old := filter (λ kv, (timestamp kv.2 < cutoffTime)%Z) (cache c) in
  let kept := filter (λ kv, ¬ (timestamp kv.2 < cutoffTime)%Z) (cache c) in
  (Z.of_nat (size old),
   with_store kept
     (foldr removeFromAccessOrder (accessOrder c) (map_to_list old).*1) c).

(** [invalidateVersion(version)]: every entry written under that version
    is deleted from the map and taken out of the access order; the number
    of deleted entries is returned. *)
Definition invalidateVersion (v : string) (c : t) : Z * t :=
  let gone := filter (λ kv, md_version (metadata kv.2) = v) (cache c) in
  let kept := filter (λ kv, ¬ (md_version (metadata kv.2) = v)) (cache c) in
  (Z.of_nat (size gone),
   with_store kept
     (foldr removeFromAccessOrder (accessOrder c) (map_to_list gone).*1) c).

(** *** Runs of the cache

    A run is a sequence of method calls; [step] is the effect of one call on
    the instance. *)
Inductive op :=
| OpGet (k : string) (now : Z)
| OpSet (k : string) (d : T) (loc : LocationData) (q : string)
        (resultCount : Z) (now : Z)
| OpHas (k : string) (now : Z)
| OpDelete (k : string)
| OpClear
| OpExpire (maxAgeMs : Z) (now : Z).

Definition step (o : op) (c : t) : t :=
  match o with
  | OpGet k now => (get k now c).2
  | OpSet k d loc q n now => set k d loc q n now c
  | OpHas k now => (has k now c).2
  | OpDelete k => (delete_ k c).2
  | OpClear => clear c
  | OpExpire a now => (expireOldEntries a now c).2
  end.

Definition run (ops : list op) (c : t) : t := foldl (flip step) c ops.

(** The key an operation accesses, if any: a [get] that hits, and every
    [set]. *)
Definition accessed (o : op) (c : t) : option string :=
  match o with
  | OpGet k now => if (get k now c).1 is Some _ then Some k else None
  | OpSet k _ _ _ _ _ => Some k
  | _ => None
  end.

(** A run observed from outside: besides the instance, the number of calls
    made so far and, for each key, the number of the last call that accessed
    it.  This is what least recently accessed refers to. *)
Record traced := mkTraced {
  tr_cache : t;
  tr_clock : nat;
  tr_stamp : gmap string nat
}.

Definition traced_step (o : op) (s : traced) : traced :=
  {| tr_cache := step o (tr_cache s);
     tr_clock := S (tr_clock s);
     tr_stamp :=
       match accessed o (tr_cache s) with
       | Some k => <[k := tr_clock s]> (tr_stamp s)
       | None => tr_stamp s
       end |}.

Definition trace (ops : list op) (c : t) : traced :=
  foldl (flip traced_step) (mkTraced c 0 ∅) ops.

(** [a] was last accessed before [b]. *)
Definition accessed_before (r : gmap string nat) (a b : string) : Prop :=
  match r !! a, r !! b with
  | Some i, Some j => (i < j)%nat
  | _, _ => False
  end.

End WithPayload.

(** [calculateStringSimilarity(a, b)]: the Jaccard index of the two sets of
    words. *)
Definition calculateStringSimilarity (a b : string) : Q :=
  if String.eqb a b then 1
  else if (String.length a =? 0)%nat || (String.length b =? 0)%nat then 0
  else
    let wordsA : gset string := list_to_set (Js.split_ws a) in
    let wordsB : gset string := list_to_set (Js.split_ws b) in
    let intersection := filter (λ x, x ∈ wordsB) wordsA in
    let union := wordsA ∪ wordsB in
    (inject_Z (Z.of_nat (size intersection)) / inject_Z (Z.of_nat (size union)))%Q.

Arguments Metadata : clear implicits.
Arguments CacheEntry : clear implicits.
Arguments t : clear implicits.
Arguments op : clear implicits.
Arguments traced : clear implicits.

End SearchCache.

(** ** What the embedding takes from the platform

    The WHATWG URL parser behind [new URL(s)], the trigonometry behind the
    great-circle distance, the shortest-decimal printing of a fractional
    number and the stream of [Math.random()] draws are arguments of the
    model. *)
Record Platform := mkPlatform {
  (** [new URL(s)] does not throw *)
  url_parses : string → bool;
  (** [calculateDistance(lat1, lon1, lat2, lon2)] of the parser, in miles *)
  calculateDistance : Q → Q → Q → Q → Q;
  (** [String(x)] for a number [x] *)
  show_number : Q → string;
  (** the [i]-th value returned by [Math.random()] *)
  rand : nat → Q
}.

(** Code that calls [Math.random()]: a function of the number of draws made
    so far, returning its result and the new count. *)
Definition Gen (A : Type) : Type := nat → A * nat.

Definition gret {A} (a : A) : Gen A := λ i, (a, i).

Definition gbind {A B} (m : Gen A) (f : A → Gen B) : Gen B :=
  λ i, let '(a, j) := m i in f a j.

Notation "'let*' x := m 'in' k" := (gbind m (λ x, k))
  (at level 10, x pattern, m at level 100, k at level 200, only parsing).

Definition random (pf : Platform) : Gen Q := λ i, (rand pf i, S i).

(** [Math.floor(Math.random() * n)] *)
Definition random_below (pf : Platform) (n : Z) : Gen Z :=
  let* r := random pf in gret (Qfloor (r * inject_Z n)).

(** [o || g()] where [g] draws random numbers: [g] runs only when [o] is
    absent or falsy. *)
Definition or_gen {A} (truthy : A → bool) (o : option A) (g : Gen A) : Gen A :=
  match o with
  | Some a => if truthy a then gret a else g
  | None => g
  end.

Fixpoint gmapM {A B} (f : A → Gen B) (l : list A) : Gen (list B) :=
  match l with
  | [] => gret []
  | a :: l' => let* b := f a in let* bs := gmapM f l' in gret (b :: bs)
  end.

(** The result of reading a property of an object literal with a computed
    key: an own property, a property inherited from [Object.prototype]
    (a function or an object, truthy, never a string), or [undefined]. *)
Inductive property := Own (s : string) | Inherited | Undefined.

(** The all-lower-case names that every object inherits. *)
Definition inherited_key (k : string) : bool :=
  String.eqb k "constructor" || String.eqb k "__proto__".

(** All the names that an object literal inherits from [Object.prototype]:
    read from a table of arrays or numbers, each of them finds a function
    (an object for [__proto__]). *)
Definition prototype_key (k : string) : bool :=
  bool_decide
    (k ∈ [ "constructor"; "__proto__"; "toString"; "toLocaleString"; "valueOf";
           "hasOwnProperty"; "isPrototypeOf"; "propertyIsEnumerable";
           "__defineGetter__"; "__defineSetter__"; "__lookupGetter__";
           "__lookupSetter__" ]).

(** Whether an optional value is there at all. *)
Definition defined {A} (o : option A) : bool :=
  match o with Some _ => true | None => false end.

Fixpoint assoc {A} (k : string) (table : list (string * A)) : option A :=
  match table with
  | [] => None
  | (k', v) :: table' => if String.eqb k k' then Some v else assoc k table'
  end.

(** ** The canonical record (hooks/use-ai-recommendations.ts) *)

Module Restaurant.

Record t := mk {
  id : string;
  name : string;
  cuisine : string;
  description : string;
  priceLevel : Q;
  rating : Q;
  reviewCount : Q;
  address : string;
  phone : option string;
  website : option string;
  hours : option string;
  specialties : list string;
  dietaryOptions : list string;
  ambiance : string;
  bestFor : list string;
  estimatedWaitTime : option string;
  distance : string;
  matchScore : Q;
  matchReasons : list string;
  imageUrl : option string
}.

End Restaurant.

(** ** The result parser (lib/search-result-parser.ts) *)

Module SearchResultParser.

Record Coordinates := mkCoordinates { lat : Q; lng : Q }.

Record RawRestaurantData := mkRaw {
  name : string;
  cuisine : string;
  description : option string;
  priceLevel : option Q;
  rating : option Q;
  reviewCount : option Q;
  address : string;
  phone : option string;
  website : option string;
  hours : option string;
  specialties : option (list string);
  dietaryOptions : option (list string);
  ambiance : option string;
  bestFor : option (list string);
  estimatedWaitTime : option string;
  coordinates : option Coordinates;
  sourceInfo : option string;
  distance : option string
}.

Record Invalid := mkInvalid { inv_data : RawRestaurantData; reasons : list string }.

Record ParseStats := mkParseStats {
  totalProcessed : Z;
  validCount : Z;
  invalidCount : Z;
  qualityScore : Z
}.

Record ParsedRestaurantResult := mkParsed {
  valid : list Restaurant.t;
  invalid : list Invalid;
  stats : ParseStats
}.

Definition REQUIRED_FIELDS : list string := ["name"; "cuisine"; "address"].

Definition CUISINE_TYPES : list string :=
  [ "Italian"; "Japanese"; "Mexican"; "Chinese"; "Indian"; "Thai"; "French";
    "American"; "Mediterranean"; "Korean"; "Vietnamese"; "Greek"; "Spanish";
    "Lebanese"; "Turkish"; "Moroccan"; "Ethiopian"; "German"; "Brazilian";
    "Peruvian"; "Fusion"; "Contemporary"; "International"; "Seafood";
    "Steakhouse"; "BBQ"; "Pizza"; "Sushi"; "Ramen"; "Burger"; "Cafe" ].

Definition cuisineMap : list (string * string) :=
  [ ("indo", "Indian"); ("asian", "Asian Fusion"); ("tex-mex", "Mexican");
    ("continental", "International"); ("fast food", "American");
    ("fast-food", "American"); ("diner", "American"); ("pub", "American");
    ("gastropub", "American"); ("bistro", "French"); ("trattoria", "Italian");
    ("pizzeria", "Pizza"); ("taqueria", "Mexican"); ("cantina", "Mexican");
    ("sushi bar", "Sushi"); ("ramen shop", "Ramen"); ("barbecue", "BBQ");
    ("steakhouse", "Steakhouse"); ("seafood", "Seafood") ].

(** [normalizeCuisine]: the first cuisine type equal to the trimmed,
    lower-cased input, else [cuisineMap[normalized] || null]. *)
Definition normalizeCuisine (cuisine : string) : property :=
  let normalized := Js.toLowerCase (Js.trim cuisine) in
  match
    list_find (λ type, Js.toLowerCase type = normalized) CUISINE_TYPES
  with
  | Some (_, type) => Own type
  | None =>
      match assoc normalized cuisineMap with
      | Some v => Own v
      | None => if inherited_key normalized then Inherited else Undefined
      end
  end.

(** The field values of the required-field loop, by name. *)
Definition required_field (data : RawRestaurantData) (field : string) : string :=
  if String.eqb field "name" then name data
  else if String.eqb field "cuisine" then cuisine data
  else address data.

(** The character class of [/^[a-zA-Z0-9\s\-'&.!]+$/] *)
Definition name_char (c : ascii) : bool :=
  Js.is_alpha c || Js.is_digit c || Js.is_space c ||
  match nat_of_ascii c with
  | 45 | 39 | 38 | 46 | 33 => true
  | _ => false
  end%nat.

Definition name_regex (s : string) : bool :=
  Js.truthy_str s && Js.forallb_string name_char s.

(** The character class [[\d\s\-\(\)]] *)
Definition phone_char (c : ascii) : bool :=
  Js.is_digit c || Js.is_space c ||
  match nat_of_ascii c with
  | 45 | 40 | 41 => true
  | _ => false
  end%nat.

Definition is_1_to_9 (c : ascii) : bool :=
  (49 <=? nat_of_ascii c)%nat && (nat_of_ascii c <=? 57)%nat.

(** [[\d\s\-\(\)]{lo,hi}$] *)
Definition phone_run (lo hi : nat) (s : string) : bool :=
  Js.forallb_string phone_char s
  && (lo <=? String.length s)%nat && (String.length s <=? hi)%nat.

(** [[1-9]?] followed by the run *)
Definition phone_after_plus (s : string) : bool :=
  phone_run 10 15 s ||
  match s with
  | String c s' => is_1_to_9 c && phone_run 10 15 s'
  | EmptyString => false
  end.

(** [/^[\+]?[1-9]?[\d\s\-\(\)]{10,15}$/] *)
Definition phoneRegex (s : string) : bool :=
  phone_after_plus s ||
  match s with
  | String "+" s' => phone_after_plus s'
  | _ => false
  end.

Section WithPlatform.
Context (pf : Platform).

(** The checks of [validateRestaurant(data, location)], one definition per
    block of the method; each returns the errors it pushes. *)
Definition check_required (data : RawRestaurantData) : list string :=
  omap (λ field,
          let v := required_field data field in
          if negb (Js.truthy_str v) || (String.length (Js.trim v) =? 0)%nat
          then Some ("Missing required field: " +:+ field) else None)
       REQUIRED_FIELDS.

Definition check_name (data : RawRestaurantData) : list string :=
  if Js.truthy_str (name data) then
    (if (String.length (name data) <? 2)%nat
     then ["Restaurant name too short"] else [])
    ++ (if (100 <? String.length (name data))%nat
        then ["Restaurant name too long"] else [])
    ++ (if negb (name_regex (name data))
        then ["Restaurant name contains invalid characters"] else [])
  else [].

Definition check_cuisine (data : RawRestaurantData) : list string :=
  if Js.truthy_str (cuisine data) then
    match normalizeCuisine (cuisine data) with
    | Undefined => ["Unknown or invalid cuisine type"]
    | _ => []
    end
  else [].

Definition check_priceLevel (data : RawRestaurantData) : list string :=
  match priceLevel data with
  | Some p =>
      if negb (Js.isInteger p) || Js.Qltb p 1 || Js.Qgtb p 5
      then ["Price level must be an integer between 1 and 5"] else []
  | None => []
  end.

Definition check_rating (data : RawRestaurantData) : list string :=
  match rating data with
  | Some r =>
      if Js.Qltb r 1 || Js.Qgtb r 5
      then ["Rating must be a number between 1 and 5"] else []
  | None => []
  end.

Definition check_reviewCount (data : RawRestaurantData) : list string :=
  match reviewCount data with
  | Some n =>
      if negb (Js.isInteger n) || Js.Qltb n 0
      then ["Review count must be a non-negative integer"] else []
  | None => []
  end.

Definition check_address (data : RawRestaurantData) : list string :=
  if Js.truthy_str (address data) && (String.length (address data) <? 10)%nat
  then ["Address appears to be incomplete"] else [].

Definition check_coordinates (data : RawRestaurantData) (location : LocationData)
    : list string :=
  match coordinates data with
  | Some c =>
      (if Js.Qltb (lat c) (-90) || Js.Qgtb (lat c) 90
          || Js.Qltb (lng c) (-180) || Js.Qgtb (lng c) 180
       then ["Invalid coordinates"] else [])
      ++ (if Js.truthy_num (latitude location) && Js.truthy_num (longitude location)
          then
            if Js.Qgtb (calculateDistance pf (latitude location)
                          (longitude location) (lat c) (lng c)) 50
            then ["Restaurant location too far from search area"] else []
          else [])
  | None => []
  end.

Definition check_phone (data : RawRestaurantData) : list string :=
  match phone data with
  | Some ph =>
      if Js.truthy_str ph && negb (phoneRegex (Js.remove_spaces ph))
      then ["Invalid phone number format"] else []
  | None => []
  end.

Definition check_website (data : RawRestaurantData) : list string :=
  match website data with
  | Some w =>
      if Js.truthy_str w && negb (url_parses pf w)
      then ["Invalid website URL"] else []
  | None => []
  end.

Definition validation_errors (data : RawRestaurantData) (location : LocationData)
    : list string :=
  check_required data ++ check_name data ++ check_cuisine data
  ++ check_priceLevel data ++ check_rating data ++ check_reviewCount data
  ++ check_address data ++ check_coordinates data location
  ++ check_phone data ++ check_website data.

Record Validation := mkValidation { isValid : bool; errors : list string }.

Definition validateRestaurant (data : RawRestaurantData) (location : LocationData)
    : Validation :=
  let errors := validation_errors data location in
  {| isValid := (length errors =? 0)%nat; errors := errors |}.

(** *** Synthesis of missing fields

    The tables below are read with a cuisine as the key.  The generators
    are given for keys that name no inherited property: cuisine types,
    values of [cuisineMap], and the text of a function or an object.
    [transformToRestaurant] deals with the other keys itself. *)

Definition description_templates : list (string * list string) :=
  [ ("Italian", ["Authentic Italian cuisine with traditional recipes";
                 "Classic Italian dishes in a warm atmosphere"]);
    ("Japanese", ["Fresh sushi and authentic Japanese flavors";
                  "Traditional Japanese cuisine with modern touches"]);
    ("Mexican", ["Vibrant Mexican flavors with fresh ingredients";
                 "Authentic Mexican dishes and festive atmosphere"]);
    ("Chinese", ["Traditional Chinese cuisine with authentic flavors";
                 "Classic Chinese dishes prepared with care"]);
    ("Indian", ["Aromatic Indian spices and traditional recipes";
                "Rich Indian flavors and authentic preparations"]);
    ("American", ["Contemporary American cuisine with local ingredients";
                  "Classic American dishes with modern presentation"]);
    ("default", ["Quality cuisine prepared with fresh ingredients";
                 "Delicious dishes in a welcoming atmosphere"]) ].

Definition default_descriptions : list string :=
  ["Quality cuisine prepared with fresh ingredients";
   "Delicious dishes in a welcoming atmosphere"].

(** [generateDescription]; an index outside the array gives [undefined],
    which is the empty string here. *)
Definition generateDescription (cuisine' name' : string) : Gen string :=
  let descriptions :=
    default default_descriptions (assoc cuisine' description_templates) in
  let* i := random_below pf (Z.of_nat (length descriptions)) in
  gret (default "" (Js.index descriptions i)).

Definition cuisinePriceLevels : list (string * Q) :=
  [ ("French", 4); ("Steakhouse", 4); ("Sushi", 4); ("Pizza", 2);
    ("American", 3); ("Mexican", 2); ("Chinese", 2); ("Indian", 2) ]%Q.

(** The price level that [inferPriceLevel] reads from the name, if it
    reads one. *)
Definition price_by_name (name' : string) : option Q :=
  let nameLower := Js.toLowerCase name' in
  if Js.includes nameLower "fine" || Js.includes nameLower "upscale"
     || Js.includes nameLower "premium" then Some 5%Q
  else if Js.includes nameLower "bistro" || Js.includes nameLower "brasserie"
  then Some 4%Q
  else if Js.includes nameLower "casual" || Js.includes nameLower "family"
  then Some 2%Q
  else if Js.includes nameLower "fast" || Js.includes nameLower "quick"
  then Some 1%Q
  else None.

Definition inferPriceLevel (name' cuisine' : string) : Q :=
  match price_by_name name' with
  | Some p => p
  | None => Js.or_numQ (assoc cuisine' cuisinePriceLevels) 3
  end.

(** [Math.round((Math.random() * 2 + 3.0) * 10) / 10] *)
Definition generateFallbackRating : Gen Q :=
  let* r := random pf in
  gret (Js.fdiv
          (inject_Z (Js.round (Js.fmul (Js.fadd (Js.fmul (Js.double r) 2) 3) 10)))
          10).

Definition generateFallbackReviewCount : Gen Q :=
  let* n := random_below pf 1000 in gret (inject_Z (n + 50)).

Definition fallback_hours : list string :=
  [ "Mon-Thu 11am-10pm, Fri-Sat 11am-11pm, Sun 12pm-9pm";
    "Daily 11am-10pm";
    "Mon-Sat 5pm-11pm, Sun Closed";
    "Daily 12pm-9pm" ].

Definition generateFallbackHours : Gen string :=
  let* i := random_below pf (Z.of_nat (length fallback_hours)) in
  gret (default "" (Js.index fallback_hours i)).

Definition specialties_table : list (string * list string) :=
  [ ("Italian", ["Pasta"; "Pizza"; "Risotto"; "Osso Buco"]);
    ("Japanese", ["Sushi"; "Ramen"; "Tempura"; "Miso Soup"]);
    ("Mexican", ["Tacos"; "Guacamole"; "Enchiladas"; "Churros"]);
    ("Chinese", ["Kung Pao Chicken"; "Fried Rice"; "Dim Sum"; "Hot Pot"]);
    ("Indian", ["Butter Chicken"; "Biryani"; "Naan"; "Tandoori"]);
    ("American", ["Burgers"; "BBQ Ribs"; "Mac and Cheese"; "Apple Pie"]) ].

Definition generateSpecialties (cuisine' : string) : list string :=
  let cuisineSpecialties :=
    default ["House Special"; "Chef's Choice"] (assoc cuisine' specialties_table) in
  Js.slice0 3 cuisineSpecialties.

Definition generateDietaryOptions (cuisine' : string) : Gen (list string) :=
  let options := ["Vegetarian"; "Vegan"; "Gluten-Free"; "Dairy-Free"] in
  let* n := random_below pf 2 in
  gret (Js.slice0 (n + 1) options).

Definition generateAmbiance (priceLevel' : Q) : string :=
  if Js.Qgeb priceLevel' 4 then "Upscale and elegant"
  else if Qle_bool priceLevel' 2 then "Casual and family-friendly"
  else "Modern and trendy".

Definition generateBestFor (priceLevel' : Q) : list string :=
  if Js.Qgeb priceLevel' 4 then ["Date Night"; "Special Occasions"]
  else if Qle_bool priceLevel' 2 then ["Family Dinner"; "Quick Bite"]
  else ["Casual Dining"; "Group Dining"].

Definition truthy_opt (o : option string) : bool :=
  match o with Some s => Js.truthy_str s | None => false end.

Definition add_if (b : bool) (n : Z) : Z := if b then n else 0%Z.

(** [calculateMatchScore] *)
Definition calculateMatchScore (data : RawRestaurantData) (searchQuery cuisine' : string)
    : Q :=
  let queryLower := Js.toLowerCase searchQuery in
  let nameLower := Js.toLowerCase (name data) in
  let cuisineLower := Js.toLowerCase cuisine' in
  let score :=
    (50
     + add_if (Js.includes nameLower queryLower) 30
     + add_if (Js.includes queryLower nameLower) 20
     + add_if (Js.includes queryLower cuisineLower) 25
     + add_if (Js.includes cuisineLower queryLower) 15
     + add_if (match rating data with
               | Some r => Js.truthy_num r && Js.Qgeb r 4 | None => false end) 10
     + add_if (match reviewCount data with
               | Some n => Js.truthy_num n && Js.Qgtb n 100 | None => false end) 5
     + add_if (truthy_opt (phone data)) 3
     + add_if (truthy_opt (website data)) 3
     + add_if (truthy_opt (hours data)) 2)%Z in
  inject_Z (Z.min 100 (Z.max 0 score)).

(** [generateMatchReasons] *)
Definition generateMatchReasons (data : RawRestaurantData) (searchQuery cuisine' : string)
    : list string :=
  let queryLower := Js.toLowerCase searchQuery in
  let reasons : list string :=
    ((if Js.includes queryLower (Js.toLowerCase cuisine')
      then ["Matches " +:+ cuisine' +:+ " cuisine preference"] else [])
     ++ match rating data with
        | Some r =>
            if Js.truthy_num r && Js.Qgeb r 4
            then ["High rating (" +:+ show_number pf r +:+ "/5)"] else []
        | None => []
        end
     ++ match dietaryOptions data with
        | Some (d :: ds) =>
            ["Offers " +:+ Js.join ", " (Js.slice0 2 (d :: ds)) +:+ " options"]
        | _ => []
        end
     ++ match distance data with
        | Some d =>
            if Js.truthy_str d && Js.num_lt (Js.parseFloat d) 2
            then ["Close to your location"] else []
        | None => []
        end
     ++ match reviewCount data with
        | Some n =>
            if Js.truthy_num n && Js.Qgtb n 500
            then ["Popular with many reviews"] else []
        | None => []
        end)%list in
  Js.slice0 3 reasons.

(** The text of the value that [normalizeCuisine] reads from
    [Object.prototype] for [constructor] or [__proto__]: the key under which
    that value reads a table. *)
Definition inherited_text (cuisine' : string) : string :=
  if String.eqb (Js.toLowerCase (Js.trim cuisine')) "constructor"
  then "function Object() { [native code] }" else "[object Object]".

(** [transformToRestaurant], at time [now]; [None] is the [null] returned
    when the body throws.  The fields of the object literal are evaluated in
    order, each generator drawing its random numbers, and the body throws

    - at [specialties[cuisine].slice] when the cuisine, which
      [normalizeCuisine] does not know, names a property of
      [Object.prototype] (say [toString]) and the record has no specialties
      of its own: the table read finds a function, which has no [slice];
    - at [cuisine.toLowerCase()] in [calculateMatchScore] when
      [normalizeCuisine] itself read a function or an object from
      [Object.prototype] ([constructor], [__proto__]).

    For a cuisine of the first kind and a record with its own specialties
    the code reads [undefined] for a missing description
    ([templates[cuisine]] is a function) and a function for a price level
    that neither the record nor the name gives: the object it returns is
    not a [Restaurant], and [None] stands for it here.  No such record
    reaches this method from [parseRestaurants], which transforms validated
    records only. *)
Definition transformToRestaurant (now : Z) (data : RawRestaurantData) (index : Z)
    (location : LocationData) (searchQuery : string) : Gen (option Restaurant.t) :=
  let distance0 :=
    if negb (truthy_opt (distance data))
       && Js.truthy_num (latitude location) && Js.truthy_num (longitude location)
    then
      match coordinates data with
      | Some c =>
          Some (Js.toFixed1 (calculateDistance pf (latitude location)
                               (longitude location) (lat c) (lng c)) ++ " mi")
      | None => distance data
      end
    else distance data in
  let found := normalizeCuisine (cuisine data) in
  let normalizedCuisine :=
    match found with
    | Own c => c
    | Inherited => inherited_text (cuisine data)
    | Undefined => cuisine data
    end in
  let is_string := match found with Inherited => false | _ => true end in
  let finds_function :=
    match found with Undefined => prototype_key (cuisine data) | _ => false end in
  let* description' :=
    or_gen Js.truthy_str (description data)
           (generateDescription normalizedCuisine (name data)) in
  let priceLevel' :=
    Js.or_numQ (priceLevel data) (inferPriceLevel (name data) normalizedCuisine) in
  let* rating' := or_gen Js.truthy_num (rating data) generateFallbackRating in
  let* reviewCount' :=
    or_gen Js.truthy_num (reviewCount data) generateFallbackReviewCount in
  let* hours' := or_gen Js.truthy_str (hours data) generateFallbackHours in
  if finds_function && negb (defined (specialties data))
  then gret None
  else
    let specialties' :=
      default (generateSpecialties normalizedCuisine) (specialties data) in
    let* dietaryOptions' :=
      or_gen (λ _, true) (dietaryOptions data)
             (generateDietaryOptions normalizedCuisine) in
    if negb is_string then gret None
    else if finds_function
            && (negb (truthy_opt (description data))
                || negb (from_option Js.truthy_num false (priceLevel data)
                         || defined (price_by_name (name data))))
    then gret None
    else
      gret (Some
        {| Restaurant.id := "parsed-" ++ Js.show_Z now ++ "-" ++ Js.show_Z index;
           Restaurant.name := Js.trim (name data);
           Restaurant.cuisine := normalizedCuisine;
           Restaurant.description := description';
           Restaurant.priceLevel := priceLevel';
           Restaurant.rating := rating';
           Restaurant.reviewCount := reviewCount';
           Restaurant.address := Js.trim (address data);
           Restaurant.phone := phone data;
           Restaurant.website := website data;
           Restaurant.hours := Some hours';
           Restaurant.specialties := specialties';
           Restaurant.dietaryOptions := dietaryOptions';
           Restaurant.ambiance :=
             Js.or_str (ambiance data)
                       (generateAmbiance (Js.or_numQ (priceLevel data) 3));
           Restaurant.bestFor :=
             default (generateBestFor (Js.or_numQ (priceLevel data) 3)) (bestFor data);
           Restaurant.estimatedWaitTime := estimatedWaitTime data;
           Restaurant.distance := Js.or_str distance0 "Unknown";
           Restaurant.matchScore := calculateMatchScore data searchQuery normalizedCuisine;
           Restaurant.matchReasons :=
             generateMatchReasons data searchQuery normalizedCuisine;
           Restaurant.imageUrl :=
             Some ("/placeholder.svg?height=200&width=300&text="
                   ++ Js.encodeURIComponent (name data)) |}).

(** The per-restaurant summand of [calculateQualityScore]: [score] starts
    at 0 and each test that holds adds its weight, in double arithmetic. *)
Definition completeness_of (r : Restaurant.t) : Q :=
  foldl (λ score (test : bool * Q),
           if test.1 then Js.fadd score (Js.double test.2) else score) 0%Q
    [ (truthy_opt (Restaurant.phone r), 1 # 10);
      (truthy_opt (Restaurant.website r), 1 # 10);
      (truthy_opt (Restaurant.hours r), 1 # 10);
      (Js.truthy_num (Restaurant.rating r) && Js.Qgtb (Restaurant.rating r) 0, 2 # 10);
      (Js.truthy_num (Restaurant.reviewCount r)
       && Js.Qgtb (Restaurant.reviewCount r) 0, 1 # 10);
      ((0 <? length (Restaurant.specialties r))%nat, 2 # 10);
      ((0 <? length (Restaurant.dietaryOptions r))%nat, 1 # 10);
      (negb (String.eqb (Restaurant.distance r) "Unknown"), 1 # 10) ].

(** [calculateQualityScore(valid, invalid)]; every operation returns the
    double nearest to its result, and [Math.round] works on the last one. *)
Definition calculateQualityScore (valid' : list Restaurant.t) (invalid' : list Invalid)
    : Z :=
  if (length valid' =? 0)%nat && (length invalid' =? 0)%nat then 0%Z
  else
    let total := inject_Z (Z.of_nat (length valid' + length invalid')) in
    let validRatio := Js.fdiv (inject_Z (Z.of_nat (length valid'))) total in
    let completenessScore :=
      Js.fdiv (foldl (λ sum r, Js.fadd sum (completeness_of r)) 0%Q valid')
              (inject_Z (Z.max (Z.of_nat (length valid')) 1)) in
    Js.round
      (Js.fmul (Js.fadd (Js.fmul validRatio (Js.double (7 # 10)))
                        (Js.fmul completenessScore (Js.double (3 # 10))))
               100).

(** [compareRestaurantQuality(a, b)], as the sign of the number returned *)
Definition compareRestaurantQuality (a b : Restaurant.t) : comparison :=
  if negb (Qeq_bool (Restaurant.matchScore a) (Restaurant.matchScore b))
  then (Restaurant.matchScore b ?= Restaurant.matchScore a)%Q
  else
    let by_rating :=
      if Js.truthy_num (Restaurant.rating a) && Js.truthy_num (Restaurant.rating b)
         && negb (Qeq_bool (Restaurant.rating a) (Restaurant.rating b))
      then (Restaurant.rating b ?= Restaurant.rating a)%Q
      else Eq in
    if negb (String.eqb (Restaurant.distance a) "Unknown")
       && negb (String.eqb (Restaurant.distance b) "Unknown")
    then
      let distA := Js.parseFloat (Js.replace_first " mi" "" (Restaurant.distance a)) in
      let distB := Js.parseFloat (Js.replace_first " mi" "" (Restaurant.distance b)) in
      if Js.num_neq distA distB then Js.num_sub_sign distA distB else by_rating
    else by_rating.

(** The loop of [parseRestaurants]: one record at a time, with its index. *)
Fixpoint parse_loop (now : Z) (location : LocationData) (searchQuery : string)
    (index : Z) (rawData : list RawRestaurantData)
    : Gen (list Restaurant.t * list Invalid) :=
  match rawData with
  | [] => gret ([], [])
  | raw :: rest =>
      let validationResult := validateRestaurant raw location in
      if isValid validationResult then
        let* restaurant := transformToRestaurant now raw index location searchQuery in
        let* parts := parse_loop now location searchQuery (index + 1) rest in
        gret (match restaurant with
              | Some r => r :: parts.1
              | None => parts.1
              end, parts.2)
      else
        let* parts := parse_loop now location searchQuery (index + 1) rest in
        gret (parts.1, mkInvalid raw (errors validationResult) :: parts.2)
  end.

(** [parseRestaurants(rawData, location, searchQuery)], at time [now] *)
Definition parseRestaurants (now : Z) (rawData : list RawRestaurantData)
    (location : LocationData) (searchQuery : string) : Gen ParsedRestaurantResult :=
  let* parts := parse_loop now location searchQuery 0 rawData in
  let qualityScore' := calculateQualityScore parts.1 parts.2 in
  let sorted := Js.sort_by compareRestaurantQuality parts.1 in
  gret {| valid := sorted;
          invalid := parts.2;
          stats := {| totalProcessed := Z.of_nat (length rawData);
                      validCount := Z.of_nat (length sorted);
                      invalidCount := Z.of_nat (length parts.2);
                      qualityScore := qualityScore' |} |}.

End WithPlatform.

End SearchResultParser.

(** ** The quality validator (lib/restaurant-validator.ts) *)

Module RestaurantValidator.

Inductive Severity := error | warning | info.

#[global] Instance Severity_eq_dec : EqDecision Severity.
Proof. solve_decision. Defined.

Record ValidationIssue := mkIssue {
  field : string;
  severity : Severity;
  message : string;
  code : string
}.

Record ValidationResult := mkResult {
  isValid : bool;
  score : Z;
  issues : list ValidationIssue;
  warnings : list ValidationIssue;
  suggestions : list string
}.

Definition REQUIRED_FIELDS : list string := ["name"; "cuisine"; "address"].
Definition OPTIONAL_FIELDS : list string :=
  ["phone"; "website"; "hours"; "rating"; "reviewCount"].

Definition CUISINE_CATEGORIES : list string :=
  [ "Italian"; "Japanese"; "Mexican"; "Chinese"; "Indian"; "Thai"; "French";
    "American"; "Mediterranean"; "Korean"; "Vietnamese"; "Greek"; "Spanish";
    "Lebanese"; "Turkish"; "Moroccan"; "Ethiopian"; "German"; "Brazilian";
    "Peruvian"; "Fusion"; "Contemporary"; "International"; "Seafood";
    "Steakhouse"; "BBQ"; "Pizza"; "Sushi"; "Ramen"; "Burger"; "Cafe";
    "Deli"; "Bakery"; "Fast Food"; "Fine Dining"; "Casual Dining" ].

(** *** The regular expressions of the class, as matchers *)

(** Some suffix of the string satisfies [p]: an unanchored pattern. *)
Fixpoint anywhere (p : string → bool) (s : string) : bool :=
  p s || match s with
         | EmptyString => false
         | String _ s' => anywhere p s'
         end.

(** [w1\s*] at the start of the string; what follows is returned. *)
Definition after_gap (w1 s : string) : option string :=
  if String.prefix w1 s
  then Some (Js.trimStart (Js.drop_string (String.length w1) s))
  else None.

(** [/w1\s*w2/i] *)
Definition word_gap_word (w1 w2 name' : string) : bool :=
  anywhere (λ s, match after_gap w1 s with
                 | Some rest => String.prefix w2 rest
                 | None => false
                 end)
           (Js.toLowerCase name').

(** [/^restaurant\s*\d+$/i] *)
Definition restaurant_number (name' : string) : bool :=
  match after_gap "restaurant" (Js.toLowerCase name') with
  | Some rest => Js.truthy_str rest && Js.forallb_string Js.is_digit rest
  | None => false
  end.

(** [/^the\s*restaurant$/i] *)
Definition the_restaurant (name' : string) : bool :=
  match after_gap "the" (Js.toLowerCase name') with
  | Some rest => String.eqb rest "restaurant"
  | None => false
  end.

Definition SUSPICIOUS_PATTERNS : list (string → bool) :=
  [ word_gap_word "test" "restaurant";
    word_gap_word "sample" "restaurant";
    word_gap_word "example" "restaurant";
    (λ s, Js.includes (Js.toLowerCase s) "placeholder");
    word_gap_word "lorem" "ipsum";
    restaurant_number;
    the_restaurant ].

(** [.] matches everything but a line terminator. *)
Definition not_newline (c : ascii) : bool :=
  negb ((nat_of_ascii c =? 10)%nat || (nat_of_ascii c =? 13)%nat).

(** [/^(.+)\s+\1$/i]: the string is a non-empty group, white space, and the
    group again up to case; [n] is the length of the group. *)
Definition repeats_with (s : string) (n : nat) : bool :=
  let len := String.length s in
  let group := String.substring 0 n s in
  let gap := String.substring n (len - 2 * n) s in
  let again := String.substring (len - n) n s in
  (2 * n <? len)%nat
  && Js.forallb_string not_newline group
  && Js.forallb_string Js.is_space gap
  && String.eqb (Js.toLowerCase group) (Js.toLowerCase again).

Definition duplicate_name (s : string) : bool :=
  existsb (repeats_with s) (seq 1 (String.length s)).

(** [/^[\+]?[1-9][\d\s\-\(\)]{9,20}$/] *)
Definition phone_after_plus (s : string) : bool :=
  match s with
  | String c s' =>
      SearchResultParser.is_1_to_9 c && SearchResultParser.phone_run 9 20 s'
  | EmptyString => false
  end.

Definition phoneRegex (s : string) : bool :=
  phone_after_plus s ||
  match s with
  | String "+" s' => phone_after_plus s'
  | _ => false
  end.

(** [s.split(/\s+/)], without the empty pieces *)
Fixpoint words_go (cur : string) (s : string) : list string :=
  match s with
  | EmptyString => if Js.truthy_str cur then [cur] else []
  | String c s' =>
      if Js.is_space c
      then (if Js.truthy_str cur then [cur] else []) ++ words_go "" s'
      else words_go (cur +:+ String c "") s'
  end.

Definition words (s : string) : list string := words_go "" s.

Section WithPlatform.
Context (pf : Platform).

(** [value] is present: [!value || (typeof value === 'string' &&
    value.trim().length === 0)] is false. *)
Definition present_str (s : string) : bool :=
  Js.truthy_str s && negb (String.length (Js.trim s) =? 0)%nat.

Definition present_opt (o : option string) : bool :=
  match o with Some s => present_str s | None => false end.

Definition required_field (r : Restaurant.t) (f : string) : string :=
  if String.eqb f "name" then Restaurant.name r
  else if String.eqb f "cuisine" then Restaurant.cuisine r
  else Restaurant.address r.

(** [validateRequiredFields]: the issues it pushes *)
Definition validateRequiredFields (r : Restaurant.t) : list ValidationIssue :=
  omap (λ f,
          if negb (present_str (required_field r f))
          then Some (mkIssue f error
                       ("Required field '" +:+ f +:+ "' is missing or empty")
                       "REQUIRED_FIELD_MISSING")
          else None)
       REQUIRED_FIELDS.

Definition when (b : bool) (i : ValidationIssue) : list ValidationIssue :=
  if b then [i] else [].

(** [validateDataQuality]: the issues it pushes, and the warnings *)
Definition dataQuality_issues (r : Restaurant.t) : list ValidationIssue :=
  let name' := Restaurant.name r in
  when (Js.truthy_str name' && (String.length name' <? 2)%nat)
    (mkIssue "name" error "Restaurant name is too short" "NAME_TOO_SHORT")
  ++ when (Js.truthy_num (Restaurant.priceLevel r)
           && (Js.Qltb (Restaurant.priceLevel r) 1
               || Js.Qgtb (Restaurant.priceLevel r) 5))
       (mkIssue "priceLevel" error "Price level must be between 1 and 5"
                "INVALID_PRICE_LEVEL")
  ++ when (Js.truthy_num (Restaurant.rating r)
           && (Js.Qltb (Restaurant.rating r) 1 || Js.Qgtb (Restaurant.rating r) 5))
       (mkIssue "rating" error "Rating must be between 1 and 5" "INVALID_RATING")
  ++ when (Js.truthy_num (Restaurant.reviewCount r)
           && Js.Qltb (Restaurant.reviewCount r) 0)
       (mkIssue "reviewCount" error "Review count cannot be negative"
                "NEGATIVE_REVIEW_COUNT").

Definition dataQuality_warnings (r : Restaurant.t) : list ValidationIssue :=
  let name' := Restaurant.name r in
  when (Js.truthy_str name' && negb (String.length name' <? 2)%nat
        && (100 <? String.length name')%nat)
    (mkIssue "name" warning "Restaurant name is unusually long" "NAME_TOO_LONG")
  ++ when (Js.truthy_str (Restaurant.cuisine r)
           && negb (bool_decide (Restaurant.cuisine r ∈ CUISINE_CATEGORIES)))
       (mkIssue "cuisine" warning
          ("Cuisine '" +:+ Restaurant.cuisine r
           +:+ "' is not in standard categories") "UNKNOWN_CUISINE")
  ++ when (match Restaurant.phone r with
           | Some ph => Js.truthy_str ph && negb (phoneRegex (Js.remove_spaces ph))
           | None => false
           end)
       (mkIssue "phone" warning "Phone number format appears invalid"
                "INVALID_PHONE_FORMAT")
  ++ when (match Restaurant.website r with
           | Some w => Js.truthy_str w && negb (url_parses pf w)
           | None => false
           end)
       (mkIssue "website" warning "Website URL format appears invalid"
                "INVALID_URL_FORMAT")
  ++ when (Js.truthy_str (Restaurant.address r)
           && (String.length (Restaurant.address r) <? 10)%nat)
       (mkIssue "address" warning "Address appears to be incomplete"
                "INCOMPLETE_ADDRESS").

Definition validateDataQuality (r : Restaurant.t)
    : list ValidationIssue * list ValidationIssue :=
  (dataQuality_issues r, dataQuality_warnings r).

(** [checkSuspiciousPatterns]: the issues it pushes; the loop over the
    patterns stops at the first match. *)
Definition checkSuspiciousPatterns (r : Restaurant.t) : list ValidationIssue :=
  let name' := Restaurant.name r in
  when (Js.truthy_str name' && existsb (λ p, p name') SUSPICIOUS_PATTERNS)
    (mkIssue "name" error "Restaurant name appears to be placeholder or test data"
             "SUSPICIOUS_NAME_PATTERN")
  ++ when (Js.truthy_str name' && duplicate_name name')
       (mkIssue "name" error "Restaurant name contains suspicious repetition"
                "DUPLICATE_NAME_PATTERN").

(** [validateBusinessLogic]: it pushes warnings only *)
Definition validateBusinessLogic (r : Restaurant.t) : list ValidationIssue :=
  let price := Restaurant.priceLevel r in
  let ambianceLower := Js.toLowerCase (Restaurant.ambiance r) in
  let lowPriceHighEndAmbiance :=
    Qle_bool price 2
    && (Js.includes ambianceLower "upscale" || Js.includes ambianceLower "elegant") in
  let highPriceCasualAmbiance :=
    Js.Qgeb price 4 && Js.includes ambianceLower "casual" in
  when (Js.truthy_num (Restaurant.rating r) && Js.truthy_num (Restaurant.reviewCount r)
        && Js.Qgeb (Restaurant.rating r) (45 # 10)
        && Js.Qltb (Restaurant.reviewCount r) 10)
    (mkIssue "rating" warning "High rating with very few reviews may be unreliable"
             "SUSPICIOUS_RATING_PATTERN")
  ++ when (Js.truthy_num price && Js.Qgeb price 4
           && negb (SearchResultParser.truthy_opt (Restaurant.website r)))
       (mkIssue "website" warning "High-end restaurants typically have websites"
                "MISSING_EXPECTED_FEATURE")
  ++ when (Js.truthy_num price && Js.truthy_str (Restaurant.ambiance r)
           && (lowPriceHighEndAmbiance || highPriceCasualAmbiance))
       (mkIssue "ambiance" warning
                "Price level and ambiance description may be inconsistent"
                "INCONSISTENT_PRICE_AMBIANCE").

(** [validateLocationRelevance]: the warnings it pushes *)
Definition validateLocationRelevance (r : Restaurant.t) (searchLocation : LocationData)
    : list ValidationIssue :=
  match city searchLocation with
  | Some city' =>
      when (Js.truthy_str (Restaurant.address r) && Js.truthy_str city'
            && negb (Js.includes (Js.toLowerCase (Restaurant.address r))
                                 (Js.toLowerCase city')))
        (mkIssue "address" warning
           ("Restaurant address may not be in search city (" +:+ city' +:+ ")")
           "LOCATION_MISMATCH")
  | None => []
  end
  ++ when (Js.truthy_str (Restaurant.distance r)
           && negb (String.eqb (Restaurant.distance r) "Unknown")
           && Js.num_gt (Js.parseFloat
                           (Js.replace_first " mi" "" (Restaurant.distance r))) 25)
       (mkIssue "distance" warning "Restaurant is unusually far from search location"
                "EXCESSIVE_DISTANCE").

(** [validateQueryRelevance]: the warnings and the suggestions it pushes *)
Definition validateQueryRelevance (r : Restaurant.t) (searchQuery : string)
    : list ValidationIssue * list string :=
  let queryLower := Js.toLowerCase searchQuery in
  let nameLower := Js.toLowerCase (Restaurant.name r) in
  let cuisineLower := Js.toLowerCase (Restaurant.cuisine r) in
  let matchesName :=
    Js.includes queryLower nameLower || Js.includes nameLower queryLower in
  let matchesCuisine :=
    Js.includes queryLower cuisineLower || Js.includes cuisineLower queryLower in
  if negb matchesName && negb matchesCuisine then
    let queryWords :=
      filter (λ word, (2 < String.length word)%nat) (words queryLower) in
    let hasAnyMatch :=
      existsb (λ word,
                 Js.includes nameLower word || Js.includes cuisineLower word
                 || Js.includes (Js.toLowerCase (Restaurant.description r)) word)
              queryWords in
    if negb hasAnyMatch then
      ([mkIssue "relevance" warning "Restaurant may not be relevant to search query"
                "LOW_QUERY_RELEVANCE"],
       ["Consider restaurants more closely matching " +:+ Js.dquote
        +:+ searchQuery +:+ Js.dquote])
    else ([], [])
  else ([], []).

Definition points (b : bool) (n : Z) : Z := if b then n else 0%Z.

(** [calculateCompleteness]: [score] and [maxScore] are integers, the result
    is their ratio times 100. *)
Definition completeness_points (r : Restaurant.t) : Z :=
  (points (present_str (Restaurant.name r)) 30
   + points (present_str (Restaurant.cuisine r)) 30
   + points (present_str (Restaurant.address r)) 30
   + points (present_opt (Restaurant.phone r)) 10
   + points (present_opt (Restaurant.website r)) 10
   + points (present_opt (Restaurant.hours r)) 10
   + points (Js.truthy_num (Restaurant.rating r)) 10
   + points (Js.truthy_num (Restaurant.reviewCount r)) 10
   + points (0 <? length (Restaurant.specialties r))%nat 5
   + points (0 <? length (Restaurant.dietaryOptions r))%nat 5
   + points (0 <? length (Restaurant.bestFor r))%nat 5)%Z.

Definition maxScore : Z := (3 * 30 + 5 * 10 + 3 * 5)%Z.

Definition calculateCompleteness (r : Restaurant.t) : Q :=
  (inject_Z (completeness_points r) / inject_Z maxScore * 100)%Q.

(** The rating quality bonus of [calculateQualityScore]. *)
Definition rating_bonus (r : Restaurant.t) : Q :=
  if Js.truthy_num (Restaurant.rating r) && Js.truthy_num (Restaurant.reviewCount r)
  then
    if Js.Qgeb (Restaurant.rating r) 4 && Js.Qgeb (Restaurant.reviewCount r) 50
    then 10
    else if Js.Qgeb (Restaurant.rating r) (35 # 10)
            && Js.Qgeb (Restaurant.reviewCount r) 20
    then 5 else 0
  else 0.

(** The value of the variable [score] of [calculateQualityScore] when the
    method reaches its [return]: before rounding and clamping. *)
Definition score_before_clamping (r : Restaurant.t)
    (issues' warnings' : list ValidationIssue) : Q :=
  (100 - inject_Z (Z.of_nat (length issues')) * 20
   - inject_Z (Z.of_nat (length warnings')) * 5
   + (calculateCompleteness r - 50) * (3 # 10)
   + rating_bonus r)%Q.

(** [calculateQualityScore]:
    [Math.max(0, Math.min(100, Math.round(score)))] *)
Definition calculateQualityScore (r : Restaurant.t)
    (issues' warnings' : list ValidationIssue) : Z :=
  Z.max 0 (Z.min 100 (Js.round (score_before_clamping r issues' warnings'))).

(** [validateRestaurant(restaurant, searchLocation?, searchQuery?)] *)
Definition validateRestaurant (r : Restaurant.t)
    (searchLocation : option LocationData) (searchQuery : option string)
    : ValidationResult :=
  let quality := validateDataQuality r in
  let relevance :=
    match searchQuery with
    | Some q => if Js.truthy_str q then validateQueryRelevance r q else ([], [])
    | None => ([], [])
    end in
  let issues' :=
    (validateRequiredFields r ++ quality.1 ++ checkSuspiciousPatterns r)%list in
  let warnings' :=
    (quality.2 ++ validateBusinessLogic r
     ++ match searchLocation with
        | Some loc => validateLocationRelevance r loc
        | None => []
        end
     ++ relevance.1)%list in
  {| isValid := (length issues' =? 0)%nat;
     score := calculateQualityScore r issues' warnings';
     issues := issues';
     warnings := warnings';
     suggestions := Js.slice0 3 relevance.2 |}.

(** [calculateAccuracy] *)
Definition calculateAccuracy (r : Restaurant.t) : Q :=
  let rating := Restaurant.rating r in
  let priceLevel := Restaurant.priceLevel r in
  let reviewCount := Restaurant.reviewCount r in
  let score :=
    (100
     - (if Js.truthy_num rating && Js.Qgtb rating 5 then 20 else 0)
     - (if Js.truthy_num priceLevel && Js.Qgtb priceLevel 5 then 20 else 0)
     - (if Js.truthy_num reviewCount && Js.Qltb reviewCount 0 then 20 else 0)
     - (if Js.truthy_num rating && Js.truthy_num reviewCount
        then
          (if Js.Qgtb rating (48 # 10) && Js.Qltb reviewCount 5 then 15 else 0)
          + (if Js.Qltb rating 2 && Js.Qgtb reviewCount 1000 then 10 else 0)
        else 0))%Q in
  Qmax 0 score.

(** [calculateRelevance] *)
Definition calculateRelevance (r : Restaurant.t) : Q :=
  let score :=
    (70
     + (if (0 <? length (Restaurant.matchReasons r))%nat then 20 else 0)
     + (if Js.truthy_num (Restaurant.matchScore r)
        then (Restaurant.matchScore r - 50) * (6 # 10) else 0))%Q in
  Qmax 0 (Qmin 100 score).

(** [calculateFreshness] *)
Definition calculateFreshness (r : Restaurant.t) : Q :=
  let score :=
    (75
     + (if SearchResultParser.truthy_opt (Restaurant.estimatedWaitTime r)
        then 15 else 0)
     + (if match Restaurant.hours r with
           | Some h => Js.truthy_str h && Js.includes h "am"
           | None => false
           end
        then 10 else 0))%Q in
  Qmin 100 score.

Record QualityMetrics := mkMetrics {
  qm_completeness : Z;
  qm_accuracy : Z;
  qm_relevance : Z;
  qm_freshness : Z;
  qm_overall : Z
}.

(** [calculateQualityMetrics] *)
Definition calculateQualityMetrics (r : Restaurant.t) : QualityMetrics :=
  let completeness := calculateCompleteness r in
  let accuracy := calculateAccuracy r in
  let relevance := calculateRelevance r in
  let freshness := calculateFreshness r in
  let overall :=
    Js.round (completeness * (3 # 10) + accuracy * (3 # 10)
              + relevance * (25 # 100) + freshness * (15 # 100)) in
  {| qm_completeness := Js.round completeness;
     qm_accuracy := Js.round accuracy;
     qm_relevance := Js.round relevance;
     qm_freshness := Js.round freshness;
     qm_overall := overall |}.

Record Validated := mkValidated {
  restaurant : Restaurant.t;
  validation : ValidationResult
}.

Record QualityDistribution := mkDistribution {
  excellent : Z; good : Z; fair : Z; poor : Z
}.

Record Statistics := mkStatistics {
  totalCount : Z;
  validCount : Z;
  invalidCount : Z;
  averageScore : Z;
  qualityDistribution : QualityDistribution
}.

Record ListValidation := mkListValidation {
  valid : list Validated;
  invalid : list Validated;
  statistics : Statistics
}.

Definition count_where (p : Z → bool) (results : list Validated) : Z :=
  Z.of_nat (length (filter (λ x, p (score (validation x)) = true) results)).

(** [validateRestaurantList] *)
Definition validateRestaurantList (restaurants : list Restaurant.t)
    (searchLocation : option LocationData) (searchQuery : option string)
    : ListValidation :=
  let results :=
    map (λ r, mkValidated r (validateRestaurant r searchLocation searchQuery))
        restaurants in
  let valid' := filter (λ x, isValid (validation x) = true) results in
  let invalid' := filter (λ x, isValid (validation x) = false) results in
  let sorted :=
    Js.sort_by (λ a b, (score (validation b) ?= score (validation a))%Z) valid' in
  let scores := map (λ x, score (validation x)) results in
  let averageScore' : Q :=
    if (0 <? length scores)%nat
    then (inject_Z (foldl Z.add 0%Z scores) / inject_Z (Z.of_nat (length scores)))%Q
    else 0%Q in
  {| valid := sorted;
     invalid := invalid';
     statistics :=
       {| totalCount := Z.of_nat (length restaurants);
          validCount := Z.of_nat (length sorted);
          invalidCount := Z.of_nat (length invalid');
          averageScore := Js.round averageScore';
          qualityDistribution :=
            {| excellent := count_where (λ s, 90 <=? s)%Z results;
               good := count_where (λ s, (70 <=? s) && (s <? 90))%Z results;
               fair := count_where (λ s, (50 <=? s) && (s <? 70))%Z results;
               poor := count_where (λ s, s <? 50)%Z results |} |} |}.

End WithPlatform.

End RestaurantValidator.

(** ** Error classification and fallback (lib/error-handling.ts) *)

Module RestaurantSearchErrorHandler.

Inductive ErrorType := network | api_limit | validation | timeout | unknown.

#[global] Instance ErrorType_eq_dec : EqDecision ErrorType.
Proof. solve_decision. Defined.

(** The [context] argument of [handleSearchError]. *)
Record Context := mkContext {
  ctx_query : string;
  ctx_location : LocationData;
  attempt : Z
}.

Record SearchError := mkSearchError {
  type : ErrorType;
  message : string;
  code : string;
  retryable : bool;
  fallbackAvailable : bool;
  context : Context
}.

Inductive Quality := high | medium | low.

#[global] Instance Quality_eq_dec : EqDecision Quality.
Proof. solve_decision. Defined.

Record ErrorRecoveryOptions := mkRecovery {
  enableFallback : bool;
  maxRetries : Z;
  retryDelay : Z;
  fallbackQuality : Quality
}.

Inductive FallbackStrategy := none | mock | cache | simplified_search.

#[global] Instance FallbackStrategy_eq_dec : EqDecision FallbackStrategy.
Proof. solve_decision. Defined.

(** What the handler reads of a caught value: its [message], the result of
    its [toString()], its [status] and its [code], each possibly absent.
    [None] as the caught value is [null] or [undefined]. *)
Record Thrown := mkThrown {
  thrown_message : option string;
  thrown_toString : option string;
  thrown_status : option Z;
  thrown_code : option string
}.

Record Handled := mkHandled {
  searchError : SearchError;
  shouldRetry : bool;
  fallbackStrategy : FallbackStrategy;
  userMessage : string
}.

(** An entry of the static [errorCount] map. *)
Record ErrorCount := mkErrorCount { count : Z; lastError : Z }.

Definition MAX_ERRORS_PER_HOUR : Z := 10.
Definition HOUR_MS : Z := 60 * 60 * 1000.

Definition default_options : ErrorRecoveryOptions :=
  mkRecovery true 2 1000 medium.

Definition any_includes (s : string) (needles : list string) : bool :=
  existsb (Js.includes s) needles.

(** [classifyError(error, context)] *)
Definition classifyError (err : option Thrown) (ctx : Context) : SearchError :=
  let errorMessage :=
    Js.or_str (err ≫= thrown_message)
      (Js.or_str (err ≫= thrown_toString) "Unknown error") in
  let errorLower := Js.toLowerCase errorMessage in
  if any_includes errorLower ["network"; "fetch"; "connection"] then
    mkSearchError network "Network connection failed" "NETWORK_ERROR" true true ctx
  else if any_includes errorLower ["rate"; "limit"; "quota"] then
    mkSearchError api_limit "API rate limit exceeded" "RATE_LIMIT_ERROR" false true ctx
  else if any_includes errorLower ["validation"; "invalid"]
          || bool_decide (err ≫= thrown_status = Some 400%Z) then
    mkSearchError validation "Invalid search parameters" "VALIDATION_ERROR" false true ctx
  else if any_includes errorLower ["timeout"; "aborted"]
          || bool_decide (err ≫= thrown_code = Some "ECONNABORTED") then
    mkSearchError timeout "Search request timed out" "TIMEOUT_ERROR" true true ctx
  else
    mkSearchError unknown errorMessage "UNKNOWN_ERROR" true true ctx.

(** [trackError(errorKey)], at time [now] *)
Definition trackError (errorKey : string) (now : Z)
    (errorCount : gmap string ErrorCount) : gmap string ErrorCount :=
  let errorCount :=
    match errorCount !! errorKey with
    | Some existing =>
        if (now - lastError existing <? HOUR_MS)%Z
        then <[errorKey := mkErrorCount (count existing + 1) now]> errorCount
        else <[errorKey := mkErrorCount 1 now]> errorCount
    | None => <[errorKey := mkErrorCount 1 now]> errorCount
    end in
  if (100 <? size errorCount)%nat
  then filter (λ kv, ¬ (now - lastError kv.2 > HOUR_MS)%Z) errorCount
  else errorCount.

Definition isErrorRateExceeded (errorKey : string)
    (errorCount : gmap string ErrorCount) : bool :=
  match errorCount !! errorKey with
  | Some entry => (count entry >=? MAX_ERRORS_PER_HOUR)%Z
  | None => false
  end.

Definition selectFallbackStrategy (e : SearchError) (ctx : Context)
    (options : ErrorRecoveryOptions) : FallbackStrategy :=
  match type e with
  | api_limit => cache
  | network => if (attempt ctx =? 0)%Z then simplified_search else mock
  | validation => mock
  | _ => mock
  end.

Definition generateUserMessage (e : SearchError) (strategy : FallbackStrategy)
    (ctx : Context) : string :=
  let location := Js.or_str (city (ctx_location ctx)) "your area" in
  match strategy with
  | mock =>
      "We're having trouble finding restaurants in " +:+ location
      +:+ " right now, so we've provided some local suggestions based on your preferences."
  | cache =>
      "Using previously found restaurants in " +:+ location
      +:+ " while we resolve the search issue."
  | simplified_search =>
      "Trying a simplified search for restaurants in " +:+ location +:+ "..."
  | none =>
      "Unable to search for restaurants in " +:+ location
      +:+ ". Please try again later."
  end.

(** The key under which [handleSearchError] counts the error; [now] is the
    [Date.now()] of that line. *)
Definition errorKey_of (ctx : Context) (now : Z) : string :=
  Js.or_str (city (ctx_location ctx)) "unknown" +:+ "-"
  +:+ Js.slice_last 6 (Js.show_Z now).

(** [handleSearchError(error, context, options)]; [now_key] and
    [now_track] are the two readings of [Date.now()], the second one inside
    [trackError]; the static [errorCount] map is threaded through. *)
Definition handleSearchError (err : option Thrown) (ctx : Context)
    (options : ErrorRecoveryOptions) (now_key now_track : Z)
    (errorCount : gmap string ErrorCount) : Handled * gmap string ErrorCount :=
  let searchError' := classifyError err ctx in
  let errorKey := errorKey_of ctx now_key in
  let errorCount := trackError errorKey now_track errorCount in
  let shouldRetry' :=
    retryable searchError'
    && (attempt ctx <? maxRetries options)%Z
    && negb (isErrorRateExceeded errorKey errorCount) in
  let fallbackStrategy' :=
    if enableFallback options && fallbackAvailable searchError'
    then selectFallbackStrategy searchError' ctx options
    else none in
  let userMessage' := generateUserMessage searchError' fallbackStrategy' ctx in
  (mkHandled searchError' shouldRetry' fallbackStrategy' userMessage', errorCount).

Record FriendlyError := mkFriendly {
  fe_message : string;
  fe_suggestions : list string;
  canRetry : bool
}.

Definition errorMappings : list (string * FriendlyError) :=
  [ ("network",
     mkFriendly
       "Unable to connect to restaurant search services. Please check your internet connection."
       ["Check your internet connection"; "Try again in a few moments";
        "Use a different location if possible"] true);
    ("api_limit",
     mkFriendly
       "We've reached our search limit for now. Please try again later or use the fallback results."
       ["Try again in 10-15 minutes"; "Use a more specific search query";
        "Browse the suggested restaurants instead"] false);
    ("location_invalid",
     mkFriendly
       "The location provided doesn't seem to be valid for restaurant search."
       ["Try a different city or address"; "Use your current location if available";
        "Check the spelling of the location name"] true);
    ("no_results",
     mkFriendly
       "No restaurants found matching your criteria in this area."
       ["Try a broader search query"; "Expand your search radius";
        "Remove some filters to see more options"] true);
    ("timeout",
     mkFriendly
       "The search is taking longer than expected. Please try again."
       ["Try a simpler search query"; "Check your internet connection";
        "Try again in a moment"] true) ].

Definition type_name (t : ErrorType) : string :=
  match t with
  | network => "network"
  | api_limit => "api_limit"
  | validation => "validation"
  | timeout => "timeout"
  | unknown => "unknown"
  end.

(** [createUserFriendlyError(type)], for the type of a classified error *)
Definition createUserFriendlyError (t : ErrorType) : FriendlyError :=
  default
    (mkFriendly
       "Something went wrong with the restaurant search. Please try again."
       ["Try again with a different search"; "Check your internet connection";
        "Contact support if the problem persists"] true)
    (assoc (type_name t) errorMappings).

(** *** Fallback data *)

Definition cuisineTypes : list string :=
  ["Italian"; "American"; "Mexican"; "Chinese"; "Japanese"; "Indian"].

Definition baseNames : list string :=
  [ "Local Favorite"; "City Bistro"; "Corner Cafe"; "Downtown Grill";
    "Main Street"; "Garden Restaurant"; "Plaza Dining"; "Central Kitchen" ].

Definition fallback_specialties : list (string * list string) :=
  [ ("Italian", ["Pasta"; "Pizza"; "Risotto"]);
    ("Japanese", ["Sushi"; "Ramen"; "Tempura"]);
    ("Mexican", ["Tacos"; "Guacamole"; "Enchiladas"]);
    ("Chinese", ["Kung Pao"; "Fried Rice"; "Dumplings"]);
    ("Indian", ["Curry"; "Naan"; "Biryani"]);
    ("American", ["Burgers"; "Steaks"; "BBQ"]) ].

Definition getSpecialtiesForCuisine (cuisine' : string) : list string :=
  default ["House Special"] (assoc cuisine' fallback_specialties).

Definition generateFallbackMatchReasons (query cuisine' : string) : list string :=
  let reasons :=
    [ "Popular " +:+ Js.toLowerCase cuisine' +:+ " restaurant";
      "Good ratings from locals"; "Convenient location" ] in
  Js.slice0 2
    (if Js.includes (Js.toLowerCase query) (Js.toLowerCase cuisine')
     then ("Matches your " +:+ cuisine' +:+ " cuisine preference") :: reasons
     else reasons).

(** [s.padStart(4, '0')] *)
Definition padStart4 (s : string) : string :=
  String.substring 0 (4 - String.length s) "0000" +:+ s.

Section WithPlatform.
Context (pf : Platform).

Definition generateFallbackAddress (location : LocationData) : Gen string :=
  let* n := random_below pf 9999 in
  let streetNumbers := (n + 100)%Z in
  let streetNames :=
    ["Main St"; "First Ave"; "Broadway"; "Oak St"; "Park Ave"; "Center St"] in
  let* i := random_below pf (Z.of_nat (length streetNames)) in
  let streetName := default "undefined" (Js.index streetNames i) in
  let city' := Js.or_str (city location) "City" in
  gret (Js.show_Z streetNumbers +:+ " " +:+ streetName +:+ ", " +:+ city').

Definition generateFallbackPhone : Gen string :=
  let* a := random_below pf 800 in
  let* e := random_below pf 800 in
  let* n := random_below pf 10000 in
  gret ("(" +:+ Js.show_Z (a + 200) +:+ ") " +:+ Js.show_Z (e + 200) +:+ "-"
        +:+ padStart4 (Js.show_Z n)).

Definition getRandomDietaryOptions : Gen (list string) :=
  let options := ["Vegetarian"; "Vegan"; "Gluten-Free"; "Dairy-Free"] in
  let* n := random_below pf 2 in
  gret (Js.slice0 (n + 1) options).

(** The body of the loop of [generateFallbackRestaurants] for index [i]. *)
Definition fallback_entry (now : Z) (query : string) (location : LocationData)
    (quality : Quality) (i : nat) : Gen Restaurant.t :=
  let is_high := bool_decide (quality = high) in
  let cuisine' := default "undefined" (cuisineTypes !! (i mod length cuisineTypes)%nat) in
  let baseName := default "undefined" (baseNames !! (i mod length baseNames)%nat) in
  let cityName := Js.or_str (city location) "Local" in
  let suffix :=
    if (length baseNames - 1 <? i)%nat
    then Js.show_Z (Z.of_nat i - Z.of_nat (length baseNames) + 2) else "" in
  let* price := random_below pf 3 in
  let* r_rating := random pf in
  let* reviews := random_below pf (if is_high then 500 else 200) in
  let* address' := generateFallbackAddress location in
  let* phone' := generateFallbackPhone in
  let* dietary := getRandomDietaryOptions in
  let* r_wait := random pf in
  let* wait :=
    if Js.Qgtb r_wait (1 # 2)
    then (let* w := random_below pf 20 in
          gret (Some (Js.show_Z (w + 10) +:+ " min")))
    else gret None in
  let* r_dist := random pf in
  let* bonus := random_below pf 20 in
  gret
    {| Restaurant.id :=
         "fallback-" +:+ Js.show_Z now +:+ "-" +:+ Js.show_Z (Z.of_nat i);
       Restaurant.name := Js.trim (cityName +:+ " " +:+ baseName +:+ " " +:+ suffix);
       Restaurant.cuisine := cuisine';
       Restaurant.description :=
         (if is_high then "Popular" else "Local") +:+ " "
         +:+ Js.toLowerCase cuisine' +:+ " restaurant in " +:+ cityName;
       Restaurant.priceLevel := inject_Z (price + 2);
       Restaurant.rating :=
         if is_high
         then Js.fadd 4 (Js.fmul (Js.double r_rating) (Js.double (8 # 10)))
         else Js.fadd (35 # 10) (Js.fmul (Js.double r_rating) 1);
       Restaurant.reviewCount := inject_Z (reviews + (if is_high then 200 else 50));
       Restaurant.address := address';
       Restaurant.phone := Some phone';
       Restaurant.website :=
         Some ("https://" +:+ Js.remove_spaces (Js.toLowerCase baseName) +:+ ".com");
       Restaurant.hours := Some "Daily 11am-10pm";
       Restaurant.specialties := getSpecialtiesForCuisine cuisine';
       Restaurant.dietaryOptions := dietary;
       Restaurant.ambiance :=
         if is_high then "Modern and inviting" else "Casual and friendly";
       Restaurant.bestFor :=
         if is_high then ["Date Night"; "Family Dinner"] else ["Casual Dining"];
       Restaurant.estimatedWaitTime := wait;
       Restaurant.distance :=
         Js.toFixed1 (Js.fadd (Js.fmul (Js.double r_dist) 5) (1 # 2)) +:+ " mi";
       Restaurant.matchScore := inject_Z ((if is_high then 75 else 60) + bonus);
       Restaurant.matchReasons := generateFallbackMatchReasons query cuisine';
       Restaurant.imageUrl :=
         Some ("/placeholder.svg?height=200&width=300&text="
               +:+ Js.encodeURIComponent baseName) |}.

(** [generateFallbackRestaurants(query, location, quality)], at time [now] *)
Definition generateFallbackRestaurants (now : Z) (query : string)
    (location : LocationData) (quality : Quality) : Gen (list Restaurant.t) :=
  let count' :=
    match quality with high => 8 | medium => 6 | low => 4 end%nat in
  let* restaurants := gmapM (fallback_entry now query location quality) (seq 0 count') in
  gret (Js.sort_by
          (λ a b, (Restaurant.matchScore b ?= Restaurant.matchScore a)%Q)
          restaurants).

End WithPlatform.

End RestaurantSearchErrorHandler.

(** ** The search route (app/api/restaurant/search/route.ts) *)

Module Route.

(** The JSON body of the request. *)
Record RequestBody := mkBody {
  query : option string;
  location : option LocationData;
  radius : option Z;
  priceRange : option (list Z);
  cuisine : option string;
  dietaryRestrictions : option (list string);
  maxResults : option Z
}.

Record ErrorInfo := mkErrorInfo {
  ei_type : RestaurantSearchErrorHandler.ErrorType;
  ei_message : string;
  ei_fallbackStrategy : RestaurantSearchErrorHandler.FallbackStrategy
}.

(** [searchMetadata] as the provider returns it or as the fallback branch
    builds it. *)
Record SearchMetadata := mkSearchMetadata {
  sm_query : string;
  sm_location : string;
  totalFound : Z;
  searchTimestamp : string;
  confidence : Q;
  errorInfo : option ErrorInfo
}.

(** [searchMetadata] of the response: the above, spread, with three more
    fields. *)
Record ResponseMetadata := mkResponseMetadata {
  base : option SearchMetadata;
  usedFallback : bool;
  qualityStats : SearchResultParser.ParseStats;
  validationStats : RestaurantValidator.Statistics
}.

(** What the route stores in the cache. *)
Record Payload := mkPayload {
  p_restaurants : list Restaurant.t;
  p_searchMetadata : ResponseMetadata
}.

Record Body := mkResponseBody {
  restaurants : list Restaurant.t;
  totalResults : Z;
  searchMetadata : ResponseMetadata;
  searchParams : RequestBody;
  cached : bool
}.

Inductive Response :=
| BadRequest (error : string)
| CacheHit (payload : Payload) (searchParams : RequestBody)
| Found (body : Body)
| ServiceUnavailable (error : string) (suggestions : list string)
    (canRetry : bool) (searchParams : RequestBody)
| ServerError.

Definition status (r : Response) : Z :=
  match r with
  | BadRequest _ => 400
  | CacheHit _ _ | Found _ => 200
  | ServiceUnavailable _ _ _ _ => 503
  | ServerError => 500
  end.

(** The outcome of [openAISearchService.searchRestaurants]: it returns
    records and metadata, or it throws. *)
Inductive Outcome :=
| Returned (restaurants : list SearchResultParser.RawRestaurantData)
    (searchMetadata : SearchMetadata)
| Threw (err : option RestaurantSearchErrorHandler.Thrown).

(** The readings of the clock during one request, in program order. *)
Record Clock := mkClock {
  t_get : Z;
  t_error_key : Z;
  t_error_track : Z;
  t_fallback : Z;
  t_iso : string;
  t_parse : Z;
  t_set : Z
}.

(** The module-level state: the cache instance and the static map of the
    error handler. *)
Record Server := mkServer {
  searchCache : SearchCache.t Payload;
  errorCount : gmap string RestaurantSearchErrorHandler.ErrorCount
}.

(** The constructor call at module level. *)
Definition initial : Server :=
  {| searchCache :=
       SearchCache.new
         (SearchCache.mkOptions (Some (30 * 60 * 1000)%Z) (Some 100%Z) None);
     errorCount := ∅ |}.

(** A fallback restaurant read as the raw record the parser expects. *)
Definition as_raw (r : Restaurant.t) : SearchResultParser.RawRestaurantData :=
  {| SearchResultParser.name := Restaurant.name r;
     SearchResultParser.cuisine := Restaurant.cuisine r;
     SearchResultParser.description := Some (Restaurant.description r);
     SearchResultParser.priceLevel := Some (Restaurant.priceLevel r);
     SearchResultParser.rating := Some (Restaurant.rating r);
     SearchResultParser.reviewCount := Some (Restaurant.reviewCount r);
     SearchResultParser.address := Restaurant.address r;
     SearchResultParser.phone := Restaurant.phone r;
     SearchResultParser.website := Restaurant.website r;
     SearchResultParser.hours := Restaurant.hours r;
     SearchResultParser.specialties := Some (Restaurant.specialties r);
     SearchResultParser.dietaryOptions := Some (Restaurant.dietaryOptions r);
     SearchResultParser.ambiance := Some (Restaurant.ambiance r);
     SearchResultParser.bestFor := Some (Restaurant.bestFor r);
     SearchResultParser.estimatedWaitTime := Restaurant.estimatedWaitTime r;
     SearchResultParser.coordinates := None;
     SearchResultParser.sourceInfo := None;
     SearchResultParser.distance := Some (Restaurant.distance r) |}.

Section WithPlatform.
Context (pf : Platform).

(** The cache key of the request. *)
Definition cacheKey_of (body : RequestBody) (loc : LocationData) : string :=
  SearchCache.generateCacheKey
    {| SearchCache.query := Js.or_str (query body) "";
       SearchCache.location := loc;
       SearchCache.cuisine := cuisine body;
       SearchCache.dietaryRestrictions := dietaryRestrictions body;
       SearchCache.priceRange := priceRange body;
       SearchCache.radius := Some (default 10%Z (radius body)) |}.

(** What the [try]/[catch] around the provider call leaves behind: the
    records, the metadata and the flag, or the 503 response. *)
Inductive Searched :=
| Records (restaurants : list SearchResultParser.RawRestaurantData)
    (searchMetadata : SearchMetadata) (usedFallback : bool)
| GiveUp (response : Response).

Definition search_or_fallback (clock : Clock) (body : RequestBody)
    (loc : LocationData) (outcome : Outcome)
    (errorCount' : gmap string RestaurantSearchErrorHandler.ErrorCount)
    : Gen (Searched * gmap string RestaurantSearchErrorHandler.ErrorCount) :=
  match outcome with
  | Returned restaurants' searchMetadata' =>
      gret (Records restaurants' searchMetadata' false, errorCount')
  | Threw searchError =>
      let handled :=
        RestaurantSearchErrorHandler.handleSearchError searchError
          (RestaurantSearchErrorHandler.mkContext (Js.or_str (query body) "") loc 0)
          (RestaurantSearchErrorHandler.mkRecovery true 1 1000
             RestaurantSearchErrorHandler.medium)
          (t_error_key clock) (t_error_track clock) errorCount' in
      let errorHandling := handled.1 in
      if bool_decide (RestaurantSearchErrorHandler.fallbackStrategy errorHandling
                      ≠ RestaurantSearchErrorHandler.none)
      then
        let* fallback :=
          RestaurantSearchErrorHandler.generateFallbackRestaurants pf
            (t_fallback clock) (Js.or_str (query body) "") loc
            RestaurantSearchErrorHandler.medium in
        gret (Records (map as_raw fallback)
                {| sm_query := Js.or_str (query body) "restaurants";
                   sm_location :=
                     Js.or_str (city loc)
                       (show_number pf (latitude loc) +:+ ", "
                        +:+ show_number pf (longitude loc));
                   totalFound := Z.of_nat (length fallback);
                   searchTimestamp := t_iso clock;
                   confidence := 6 # 10;
                   errorInfo :=
                     Some {| ei_type :=
                               RestaurantSearchErrorHandler.type
                                 (RestaurantSearchErrorHandler.searchError errorHandling);
                             ei_message :=
                               RestaurantSearchErrorHandler.userMessage errorHandling;
                             ei_fallbackStrategy :=
                               RestaurantSearchErrorHandler.fallbackStrategy
                                 errorHandling |} |}
                true,
              handled.2)
      else
        let userError :=
          RestaurantSearchErrorHandler.createUserFriendlyError
            (RestaurantSearchErrorHandler.type
               (RestaurantSearchErrorHandler.searchError errorHandling)) in
        gret (GiveUp
                (ServiceUnavailable
                   (RestaurantSearchErrorHandler.fe_message userError)
                   (RestaurantSearchErrorHandler.fe_suggestions userError)
                   (RestaurantSearchErrorHandler.canRetry userError) body),
              handled.2)
  end.

(** [POST(req)].  [req] is the parsed body, [None] when [req.json()]
    throws; [outcome] is what the provider does if it is called.  The call
    to [validateSearchContext] only logs and is left out. *)
Definition POST (clock : Clock) (req : option RequestBody) (outcome : Outcome)
    (srv : Server) : Gen (Response * Server) :=
  match req with
  | None => gret (ServerError, srv)
  | Some body =>
      match location body with
      | None => gret (BadRequest "Location data is required", srv)
      | Some loc =>
          if negb (Js.truthy_num (latitude loc)) && negb (Js.truthy_num (longitude loc))
          then gret (BadRequest "Location data is required", srv)
          else
            let cacheKey := cacheKey_of body loc in
            let looked := SearchCache.get cacheKey (t_get clock) (searchCache srv) in
            match looked.1 with
            | Some cachedResult =>
                gret (CacheHit cachedResult body, mkServer looked.2 (errorCount srv))
            | None =>
                let* searched :=
                  search_or_fallback clock body loc outcome (errorCount srv) in
                match searched.1 with
                | GiveUp response => gret (response, mkServer looked.2 searched.2)
                | Records restaurants' searchMetadata' usedFallback' =>
                    let* parseResult :=
                      SearchResultParser.parseRestaurants pf (t_parse clock)
                        restaurants' loc (Js.or_str (query body) "") in
                    let validationResult :=
                      RestaurantValidator.validateRestaurantList pf
                        (SearchResultParser.valid parseResult) (Some loc) (query body) in
                    let finalRestaurants :=
                      Js.slice0 (default 8%Z (maxResults body))
                        (map RestaurantValidator.restaurant
                           (filter
                              (λ result,
                                 (60 ≤ RestaurantValidator.score
                                         (RestaurantValidator.validation result))%Z)
                              (RestaurantValidator.valid validationResult))) in
                    let metadata :=
                      {| base := Some searchMetadata';
                         usedFallback := usedFallback';
                         qualityStats := SearchResultParser.stats parseResult;
                         validationStats :=
                           RestaurantValidator.statistics validationResult |} in
                    let response :=
                      {| restaurants := finalRestaurants;
                         totalResults := Z.of_nat (length finalRestaurants);
                         searchMetadata := metadata;
                         searchParams := body;
                         cached := false |} in
                    let cache' :=
                      if negb usedFallback' && (0 <? length finalRestaurants)%nat
                      then
                        SearchCache.set cacheKey
                          (mkPayload finalRestaurants metadata) loc
                          (Js.or_str (query body) "")
                          (Z.of_nat (length finalRestaurants))
                          (t_set clock) looked.2
                      else looked.2 in
                    gret (Found response, mkServer cache' searched.2)
                end
            end
      end
  end.

End WithPlatform.

End Route.

(** ** The query builder (lib/search-query-builder.ts) *)

Module SearchQueryBuilder.

(** The fields of [SearchContext] that the methods below read; [location]
    is absent when the caller passes none. *)
Record SearchContext := mkSearchContext {
  userQuery : string;
  location : option LocationData;
  cuisine : option string;
  dietaryRestrictions : option (list string);
  priceRange : option (list Q);
  occasion : option string
}.

Definition truthy_opt := SearchResultParser.truthy_opt.

(** [Math.round((priceRange[0] + priceRange[1]) / 2)]; [None] is the [NaN]
    that comes out when one of the two is missing. *)
Definition avgPrice (pr : list Q) : option Z :=
  match pr with
  | p0 :: p1 :: _ => Some (Js.round ((p0 + p1) / 2))
  | _ => None
  end.

Definition stopWords : list string :=
  [ "find"; "show"; "search"; "look"; "for"; "me"; "some"; "good"; "nice";
    "restaurant"; "restaurants"; "place"; "places"; "food"; "eat"; "dining";
    "near"; "around"; "in"; "at"; "the"; "a"; "an"; "and"; "or"; "but" ].

(** [replace(/[^\w\s]/g, ' ')] on one character *)
Definition blank_punctuation (c : ascii) : ascii :=
  if Js.is_word c || Js.is_space c then c else " "%char.

(** [cleanUserQuery] *)
Definition cleanUserQuery (query : string) : string :=
  if negb (Js.truthy_str query) then ""
  else
    let words :=
      filter (λ word, (2 < String.length word)%nat ∧ word ∉ stopWords)
             (Js.split_ws (Js.map_string blank_punctuation (Js.toLowerCase query))) in
    Js.trim (Js.join " " words).

Section WithPlatform.
Context (pf : Platform).

(** [buildLocationString] *)
Definition buildLocationString (loc : LocationData) : string :=
  let city' := default "" (city loc) in
  let state' := default "" (state loc) in
  let country' := default "" (country loc) in
  if truthy_opt (city loc) && truthy_opt (country loc) then
    if truthy_opt (state loc) && String.eqb country' "United States"
    then city' +:+ ", " +:+ state'
    else if truthy_opt (state loc)
    then city' +:+ ", " +:+ state' +:+ ", " +:+ country'
    else city' +:+ ", " +:+ country'
  else if truthy_opt (address loc) then default "" (address loc)
  else show_number pf (latitude loc) +:+ ", " +:+ show_number pf (longitude loc).

End WithPlatform.

(** [buildFallbackQueries] *)
Definition buildFallbackQueries (context : SearchContext) (locationStr : string)
    : list string :=
  let fallbacks : list string :=
    (["best restaurants in " +:+ locationStr]
     ++ (if truthy_opt (cuisine context)
         then [default "" (cuisine context) +:+ " restaurants " +:+ locationStr]
         else [])
     ++ ["top rated restaurants near " +:+ locationStr]
     ++ ["local restaurant recommendations " +:+ locationStr]
     ++ match priceRange context with
        | Some pr =>
            match avgPrice pr with
            | Some avg =>
                if (avg <=? 2)%Z then ["affordable restaurants " +:+ locationStr]
                else if (4 <=? avg)%Z
                then ["fine dining restaurants " +:+ locationStr]
                else []
            | None => []
            end
        | None => []
        end)%list in
  Js.slice0 3 fallbacks.

(** [calculateQueryConfidence]; [None] when the context has no location,
    where the method throws. *)
Definition calculateQueryConfidence (context : SearchContext) : option Z :=
  let cleanQuery := cleanUserQuery (userQuery context) in
  let from_query :=
    if (0 <? String.length cleanQuery)%nat
    then Z.min 20 (Z.of_nat (length (Js.split_on " " cleanQuery)) * 5)
    else 0%Z in
  match location context with
  | None => None
  | Some loc =>
      let confidence :=
        (50 + from_query
         + (if truthy_opt (city loc) then 15 else 0)
         + (if truthy_opt (state loc) then 10 else 0)
         + (if truthy_opt (postalCode loc) then 5 else 0)
         + (if truthy_opt (cuisine context) then 10 else 0)
         + (match dietaryRestrictions context with
            | Some (_ :: _) => 8
            | _ => 0
            end)
         + (if priceRange context is Some _ then 5 else 0)
         + (if truthy_opt (occasion context) then 5 else 0))%Z in
      Some (Z.min 100 confidence)
  end.

Record ContextValidation := mkContextValidation {
  isValid : bool;
  issues : list string
}.

(** [validateSearchContext] *)
Definition validateSearchContext (context : SearchContext) : ContextValidation :=
  let issues' : list string :=
    (match location context with
     | None => ["Location data is required"]
     | Some loc =>
         (if negb (Js.truthy_num (latitude loc)) || negb (Js.truthy_num (longitude loc))
          then ["Location coordinates are missing"] else [])
         ++ (if negb (truthy_opt (city loc)) && negb (truthy_opt (address loc))
             then ["Location name or address is missing"] else [])
     end
     ++ (if negb (Js.truthy_str (userQuery context))
            || (String.length (Js.trim (userQuery context)) =? 0)%nat
         then
           if negb (truthy_opt (cuisine context))
           then ["Either user query or cuisine preference is required"] else []
         else [])
     ++ match priceRange context with
        | Some [lo; hi] =>
            if Js.Qltb lo 1 || Js.Qgtb hi 5
            then ["Price range values must be between 1 and 5"]
            else if Js.Qgtb lo hi
            then ["Price range minimum cannot exceed maximum"]
            else []
        | Some _ => ["Price range must have exactly 2 values"]
        | None => []
        end)%list in
  {| isValid := (length issues' =? 0)%nat; issues := issues' |}.

End SearchQueryBuilder.

(** ** The cache of the search provider (lib/openai-search-service.ts) *)

Module OpenAISearchService.

Section WithPayload.
Context {T : Type}.

Record Cached := mkCached { data : T; timestamp : Z }.

Definition CACHE_TTL : Z := 30 * 60 * 1000.
Definition MAX_CACHE_SIZE : nat := 100.

(** The [Map] of the instance: its entries in insertion order, the oldest
    first.  [Map.prototype.set] leaves an existing key at its place and
    appends a new one; [keys().next().value] is the first key. *)
Definition Store := list (string * Cached).

Fixpoint map_get (k : string) (m : Store) : option Cached :=
  match m with
  | [] => None
  | (k', v) :: m' => if decide (k' = k) then Some v else map_get k m'
  end.

Fixpoint map_delete (k : string) (m : Store) : Store :=
  match m with
  | [] => []
  | (k', v) :: m' => if decide (k' = k) then m' else (k', v) :: map_delete k m'
  end.

Fixpoint map_set (k : string) (v : Cached) (m : Store) : Store :=
  match m with
  | [] => [(k, v)]
  | (k', v') :: m' =>
      if decide (k' = k) then (k, v) :: m' else (k', v') :: map_set k v m'
  end.

(** [getFromCache(key)], at time [now] *)
Definition getFromCache (key : string) (now : Z) (cache : Store)
    : option T * Store :=
  match map_get key cache with
  | None => (None, cache)
  | Some cached =>
      if (now - timestamp cached >? CACHE_TTL)%Z
      then (None, map_delete key cache)
      else (Some (data cached), cache)
  end.

(** [cacheResult(key, result)], at time [now] *)
Definition cacheResult (key : string) (result : T) (now : Z) (cache : Store)
    : Store :=
  let cache :=
    if (MAX_CACHE_SIZE <=? length cache)%nat then
      match cache with
      | (oldestKey, _) :: _ => map_delete oldestKey cache
      | [] => cache
      end
    else cache in
  map_set key (mkCached result now) cache.

(** [clearCache()] *)
Definition clearCache (cache : Store) : Store := [].

(** A call of one of the three methods. *)
Inductive op :=
| OpGet (key : string) (now : Z)
| OpPut (key : string) (result : T) (now : Z)
| OpClear.

Definition step (o : op) (cache : Store) : Store :=
  match o with
  | OpGet k now => (getFromCache k now cache).2
  | OpPut k r now => cacheResult k r now cache
  | OpClear => clearCache cache
  end.

Definition run (ops : list op) (cache : Store) : Store := foldl (flip step) cache ops.

End WithPayload.

Arguments Cached : clear implicits.
Arguments Store : clear implicits.
Arguments op : clear implicits.

End OpenAISearchService.

(** * Vocabulary of the statements

    The relations, invariants and sample data that the theorems below
    are stated with. *)

Section CacheKeyVocabulary.
Import SearchCache.

(** Two characters that differ at most in their case. *)
Definition same_letter (a b : ascii) : Prop :=
  Js.lower_ascii a = Js.lower_ascii b.

(** Two strings that differ at most in the case of their letters. *)
Inductive same_modulo_case : string → string → Prop :=
| smc_nil : same_modulo_case "" ""
| smc_cons a b s t :
    same_letter a b → same_modulo_case s t →
    same_modulo_case (String a s) (String b t).

Fixpoint all_space (s : string) : bool :=
  match s with
  | EmptyString => true
  | String c s' => Js.is_space c && all_space s'
  end.

(** Two queries that differ at most in case and in leading or trailing
    white space. *)
Definition query_variant (q1 q2 : string) : Prop :=
  ∃ pre1 core1 post1 pre2 core2 post2,
    q1 = pre1 ++ core1 ++ post1 ∧ q2 = pre2 ++ core2 ++ post2 ∧
    all_space pre1 = true ∧ all_space post1 = true ∧
    all_space pre2 = true ∧ all_space post2 = true ∧
    same_modulo_case core1 core2.

(** Two optional text fields that differ at most in case. *)
Definition text_variant (o1 o2 : option string) : Prop :=
  option_Forall2 same_modulo_case o1 o2.

(** Two dietary-restriction lists that differ at most in the order and in
    the case of their items. *)
Definition dietary_variant (d1 d2 : option (list string)) : Prop :=
  option_Forall2
    (λ l1 l2, ∃ l, l1 ≡ₚ l ∧ Forall2 same_modulo_case l l2) d1 d2.

Definition tokyo (lat : Q) : LocationData :=
  mkLocation lat (139 # 1) None (Some "Tokyo") None None None.

Definition sushi_params (q : string) (lat : Q) (d : list string) : KeyParams :=
  mkKeyParams q (tokyo lat) (Some "Japanese") (Some d) (Some [2; 4]%Z) None.

Definition here : LocationData := tokyo (356762 # 10000).

End CacheKeyVocabulary.

Section CacheVocabulary.
Context {T : Type}.
Import SearchCache.

(** The access order lists every stored key exactly once. *)
Definition wf (c : t T) : Prop :=
  NoDup (accessOrder c) ∧ ∀ k, k ∈ accessOrder c ↔ is_Some (cache c !! k).

(** The capacity bound. *)
Definition bounded (c : t T) : Prop :=
  (Z.of_nat (size (cache c)) ≤ maxSize c)%Z.

(** Every key of the access order has been accessed, at a call before the
    [n]-th, and the order lists the keys from the least to the most
    recently accessed. *)
Definition stamped (r : gmap string nat) (n : nat) (o : list string) : Prop :=
  (∀ k, k ∈ o → ∃ i, r !! k = Some i ∧ (i < n)%nat) ∧
  StronglySorted (accessed_before r) o.

(** The invariant of a traced run. *)
Definition traced_inv (s : traced T) : Prop :=
  wf (tr_cache s) ∧ bounded (tr_cache s) ∧
  stamped (tr_stamp s) (tr_clock s) (accessOrder (tr_cache s)).

End CacheVocabulary.

Section CacheData.
Import SearchCache.

Definition small_cache : t string := new (mkOptions None (Some 2%Z) None).

(** Two inserts, then a hit on the older key. *)
Definition warm_up : list (op string) :=
  [OpSet "a" "A" here "ramen" 1 0; OpSet "b" "B" here "sushi" 1 1; OpGet "a" 2].

End CacheData.

Section ParserVocabulary.
Import SearchResultParser.

(** A platform to run the examples on: [new URL] accepts what starts with
    [http://] or [https://], every distance is 3 miles, numbers print as
    their rounded integer and every random draw is 1/2. *)
Definition demo_platform : Platform :=
  {| url_parses := λ s, String.prefix "http://" s || String.prefix "https://" s;
     calculateDistance := λ _ _ _ _, 3%Q;
     show_number := λ x, Js.show_Z (Js.round x);
     rand := λ _, (1 # 2)%Q |}.

(** A record with the required fields only. *)
Definition bare (name' cuisine' address' : string) : RawRestaurantData :=
  mkRaw name' cuisine' None None None None address' None None None None None
        None None None None None None.

Definition with_phone (ph : string) (d : RawRestaurantData) : RawRestaurantData :=
  mkRaw (name d) (cuisine d) (description d) (priceLevel d) (rating d)
        (reviewCount d) (address d) (Some ph) (website d) (hours d)
        (specialties d) (dietaryOptions d) (ambiance d) (bestFor d)
        (estimatedWaitTime d) (coordinates d) (sourceInfo d) (distance d).

Definition sushi_zen : RawRestaurantData :=
  bare "Sushi Zen" "Japanese" "1-2-3 Ginza, Tokyo".

(** The phone number is present and fails the format check. *)
Definition bad_phone (data : RawRestaurantData) : Prop :=
  ∃ ph, phone data = Some ph ∧ Js.truthy_str ph = true
        ∧ phoneRegex (Js.remove_spaces ph) = false.

(** The website is present and [new URL] rejects it. *)
Definition bad_website (pf : Platform) (data : RawRestaurantData) : Prop :=
  ∃ w, website data = Some w ∧ Js.truthy_str w = true ∧ url_parses pf w = false.

(** [Math.random()] returns a number in [[0, 1)]. *)
Definition rand_ok (pf : Platform) : Prop :=
  ∀ i, (0 <= rand pf i)%Q ∧ (rand pf i < 1)%Q.

(** Only the required fields of the record are present. *)
Definition only_required (data : RawRestaurantData) : Prop :=
  description data = None ∧ priceLevel data = None ∧ rating data = None ∧
  reviewCount data = None ∧ phone data = None ∧ website data = None ∧
  hours data = None ∧ specialties data = None ∧ dietaryOptions data = None ∧
  ambiance data = None ∧ bestFor data = None ∧ estimatedWaitTime data = None ∧
  coordinates data = None ∧ sourceInfo data = None ∧ distance data = None.

End ParserVocabulary.

Section ValidatorVocabulary.
Import RestaurantValidator.

Definition all_of (sev : Severity) (l : list ValidationIssue) : Prop :=
  Forall (λ i, severity i = sev) l.

(** The number of error-severity entries among everything recorded. *)
Definition errors_recorded (res : ValidationResult) : nat :=
  length (filter (λ i, severity i = error) (issues res ++ warnings res)%list).

Definition test_restaurant : Restaurant.t :=
  Restaurant.mk "r1" "Test Restaurant 1" "Japanese" "Sushi counter" 2 (47 # 10) 5
    "1 Ginza" (Some "call us") None None [] [] "Upscale and elegant" [] None
    "Unknown" 50 [] None.

Definition honest_restaurant : Restaurant.t :=
  Restaurant.mk "r2" "Sushi Zen" "Japanese" "Sushi counter" 2 (47 # 10) 5
    "1 Ginza" (Some "call us") None None [] [] "Upscale and elegant" [] None
    "Unknown" 50 [] None.

End ValidatorVocabulary.

Section ErrorHandlerVocabulary.
Import RestaurantSearchErrorHandler.

Definition tokyo_ctx (n : Z) : Context := mkContext "sushi" here n.

Definition thrown (msg : string) : option Thrown :=
  Some (mkThrown (Some msg) (Some ("Error: " +:+ msg)) None None).

End ErrorHandlerVocabulary.

Section RouteVocabulary.
Import Route.

(** The flag of a response, when it has one. *)
Definition usedFallback_of (r : Response) : option bool :=
  match r with
  | Found body => Some (usedFallback (searchMetadata body))
  | _ => None
  end.

(** The request reaches the provider: the body parses, carries a usable
    location, and the cache misses. *)
Definition reaches_provider (clock : Clock) (req : option RequestBody)
    (srv : Server) : Prop :=
  ∃ body loc,
    req = Some body ∧ location body = Some loc ∧
    (negb (Js.truthy_num (latitude loc)) && negb (Js.truthy_num (longitude loc))) = false ∧
    (SearchCache.get (cacheKey_of body loc) (t_get clock) (searchCache srv)).1 = None.

Definition demo_clock : Clock :=
  mkClock 1730000000000 1730000000100 1730000000100 1730000000101
          "2024-10-27T03:33:20.101Z" 1730000000102 1730000000103.

Definition sushi_request : RequestBody :=
  mkBody (Some "sushi") (Some here) None None None None None.

Definition rate_limited : Outcome := Threw (thrown "Rate limit exceeded").

Definition one_hit : Outcome :=
  Returned [sushi_zen] (mkSearchMetadata "sushi" "Tokyo" 1 "2024-10-27" 1 None).

End RouteVocabulary.

Section CacheAccountingVocabulary.
Context {T : Type}.
Import SearchCache.

(** The counters: every request was a hit or a miss, and no counter is
    negative. *)
Definition stats_ok (s : Stats) : Prop :=
  (hits s + misses s = totalRequests s)%Z ∧
  (0 ≤ hits s)%Z ∧ (0 ≤ misses s)%Z ∧ (0 ≤ evictions s)%Z.

(** What [set] writes and [get] keeps: the entry is filed under its own key,
    expires one time to live after it was written, carries the version of
    the instance and has been accessed at least once. *)
Definition entry_ok (c : t T) (k : string) (e : CacheEntry T) : Prop :=
  key e = k ∧ expiresAt e = (timestamp e + ttl c)%Z ∧
  md_version (metadata e) = version c ∧ (1 ≤ accessCount e)%Z.

Definition entries_ok (c : t T) : Prop :=
  ∀ k e, cache c !! k = Some e → entry_ok c k e.

End CacheAccountingVocabulary.

Section ParserAccountingVocabulary.
Import SearchResultParser.

#[global] Instance property_eq_dec : EqDecision property.
Proof. solve_decision. Defined.

(** A record that passes validation and whose cuisine is read from
    [Object.prototype]: the transformation throws on it. *)
Definition silently_dropped (pf : Platform) (location : LocationData)
    (raw : RawRestaurantData) : Prop :=
  isValid (validateRestaurant pf raw location) = true ∧
  normalizeCuisine (cuisine raw) = Inherited.

#[global] Instance silently_dropped_dec pf location raw :
  Decision (silently_dropped pf location raw).
Proof. unfold silently_dropped. apply _. Defined.

(** A record that names its cuisine by a key every object inherits. *)
Definition proto_cafe : RawRestaurantData :=
  bare "Cafe Proto" "Constructor" "12 Main Street, Springfield".

(** A restaurant with phone, website, hours and rating, and none of review
    count, specialties, dietary options and distance. *)
Definition half_complete : Restaurant.t :=
  Restaurant.mk "parsed-1730000000000-0" "Sushi Zen" "Japanese" "Fresh sushi"
    3 4 0 "1 Chome, Tokyo" (Some "555-123-4567") (Some "https://zen.example")
    (Some "Daily 11am-10pm") [] [] "Modern and trendy" [] None "Unknown" 50 []
    None.

End ParserAccountingVocabulary.

Section ErrorRateVocabulary.
Import RestaurantSearchErrorHandler.

(** Errors counted under one key, one after the other, at the given
    times. *)
Definition track_all (errorKey : string) (times : list Z)
    (errorCount : gmap string ErrorCount) : gmap string ErrorCount :=
  foldl (λ m t, trackError errorKey t m) errorCount times.

(** Each time is less than [d] after the one before it. *)
Fixpoint gaps_below (d : Z) (times : list Z) : Prop :=
  match times with
  | t1 :: (t2 :: _) as rest => (t2 - t1 < d)%Z ∧ gaps_below d rest
  | _ => True
  end.

(** Ten errors, one every 59 minutes. *)
Definition slow_burst : list Z := (λ n, n * (59 * 60 * 1000))%Z <$> seqZ 0 10.

(** What every restaurant of the fallback generator looks like.  The upper
    bounds of the rating are reached: 4.5 is the double nearest to 3.5 plus
    the largest draw, and the largest rating of quality [high] is the double
    that 4.8 denotes. *)
Definition fallback_shape (quality : Quality) (r : Restaurant.t) : Prop :=
  let is_high := bool_decide (quality = high) in
  Restaurant.cuisine r ∈ cuisineTypes ∧
  (2 <= Restaurant.priceLevel r)%Q ∧ (Restaurant.priceLevel r <= 4)%Q ∧
  ((if is_high then 4 else 35 # 10) <= Restaurant.rating r)%Q ∧
  (Restaurant.rating r <= (if is_high then 48 # 10 else 45 # 10))%Q ∧
  ((if is_high then 200 else 50) <= Restaurant.reviewCount r)%Q ∧
  (Restaurant.reviewCount r < (if is_high then 700 else 250))%Q ∧
  ((if is_high then 75 else 60) <= Restaurant.matchScore r)%Q ∧
  (Restaurant.matchScore r < (if is_high then 95 else 80))%Q ∧
  length (Restaurant.matchReasons r) = 2%nat ∧
  Restaurant.specialties r ≠ [] ∧
  Restaurant.dietaryOptions r ≠ [] ∧
  is_Some (Restaurant.phone r) ∧ is_Some (Restaurant.website r) ∧
  Restaurant.hours r = Some "Daily 11am-10pm".

(** A string of exactly [k] decimal digits. *)
Definition digits (k : nat) (s : string) : bool :=
  (String.length s =? k)%nat && Js.forallb_string Js.is_digit s.

End ErrorRateVocabulary.

Section RouteMoreVocabulary.
Import Route.

(** A city whose name has a comma. *)
Definition washington : LocationData :=
  mkLocation (389 # 10) (-77 # 1) None (Some "Washington, D.C.") None None None.

Definition pizza_request : RequestBody :=
  mkBody (Some "pizza") (Some washington) None None None None None.

Definition unlocated_request : RequestBody :=
  mkBody (Some "sushi") None None None None None None.


(** A request that asks for -1 results. *)
Definition negative_request : RequestBody :=
  mkBody (Some "sushi") (Some here) None None None None (Some (-1)%Z).

Definition two_hits : Outcome :=
  Returned [sushi_zen; sushi_zen]
           (mkSearchMetadata "sushi" "Tokyo" 2 "2024-10-27" 1 None).

End RouteMoreVocabulary.

Section ProviderCacheVocabulary.
Context {T : Type}.
Import OpenAISearchService.

(** The keys of the map are distinct and there are at most
    [MAX_CACHE_SIZE] of them. *)
Definition store_ok (cache : Store T) : Prop :=
  NoDup cache.*1 ∧ (length cache ≤ MAX_CACHE_SIZE)%nat.

End ProviderCacheVocabulary.

Section ProviderCacheData.
Import OpenAISearchService.

(** A full cache: the keys [k0] to [k99], written at times 0 to 99. *)
Definition full_store : Store string :=
  (λ n : nat, ("k" +:+ pretty n, mkCached ("r" +:+ pretty n) (Z.of_nat n)))
    <$> seq 0 100.

End ProviderCacheData.

Section QueryVocabulary.

(** The characters of a cleaned query word: lower-case letters, digits and
    the underscore. *)
Definition clean_char (c : ascii) : bool :=
  negb (Js.is_space c) && Js.is_word c && Ascii.eqb (Js.lower_ascii c) c.

End QueryVocabulary.

(** * Properties *)

Example show_milli_ex :
  map Js.show_milli [35676; 139650; -500; 0; 1001; -73990]%Z
  = ["35.676"; "139.65"; "-0.5"; "0"; "1.001"; "-73.99"].
Proof. vm_compute. reflexivity. Qed.

Example sort_ex : Js.sort ["vegan"; "halal"; "Keto"; "gluten-free"]
  = ["Keto"; "gluten-free"; "halal"; "vegan"].
Proof. vm_compute. reflexivity. Qed.

Example trim_ex : Js.trim (Js.toLowerCase "  Sushi Bar  ") = "sushi bar".
Proof. vm_compute. reflexivity. Qed.

Example parseFloat_ex :
  Js.num_gt (Js.parseFloat "25.1") 25 = true ∧
  Js.num_gt (Js.parseFloat " 2.5e1 mi") 25 = false ∧
  Js.parseFloat "Unknown" = Js.NaN ∧
  Js.num_lt (Js.parseFloat ".5") 2 = true ∧
  Js.parseFloat "-Infinity" = Js.Inf true ∧
  Js.parseFloat "." = Js.NaN ∧
  Js.toFixed1 (1234 # 1000) = "1.2" ∧ Js.toFixed1 (5 # 100) = "0.1" ∧
  Js.encodeURIComponent "Sushi & Co" = "Sushi%20%26%20Co" ∧
  Js.replace_first " mi" "" "3.2 mi" = "3.2" ∧
  Js.slice_last 6 "1730505600123" = "600123".
Proof. repeat split; by vm_compute. Qed.

(** ** Cache key derivation *)

(** ** Double arithmetic

    Rounding to the nearest double is monotone, and a bound that is itself
    a double survives it. *)

Section Doubles.


Lemma round_half_even_bounds x :
  (Qfloor x ≤ Js.round_half_even x ≤ Qfloor x + 1)%Z.
Proof.
  unfold Js.round_half_even.
  destruct (x - inject_Z (Qfloor x) ?= 1 # 2)%Q; [destruct (Z.even _)|..]; lia.
Qed.

Lemma round_half_even_mono x y :
  (x <= y)%Q → (Js.round_half_even x ≤ Js.round_half_even y)%Z.
Proof.
  intros Hxy. pose proof (Qfloor_resp_le _ _ Hxy) as Hf.
  destruct (Z.eq_dec (Qfloor x) (Qfloor y)) as [e|n].
  - unfold Js.round_half_even. rewrite e.
    destruct (Qcompare_spec (x - inject_Z (Qfloor y)) (1 # 2)) as [H1|H1|H1],
             (Qcompare_spec (y - inject_Z (Qfloor y)) (1 # 2)) as [H2|H2|H2];
      try destruct (Z.even _); try lia; exfalso; lra.
  - pose proof (round_half_even_bounds x). pose proof (round_half_even_bounds y).
    lia.
Qed.

Lemma round_half_even_Z k : Js.round_half_even (inject_Z k) = k.
Proof.
  unfold Js.round_half_even. rewrite Qfloor_Z.
  assert (inject_Z k - inject_Z k < 1 # 2)%Q as ->%Qlt_alt by lra. done.
Qed.


Lemma pow2_pos s : (0 ≤ s)%Z → (0 < inject_Z (2 ^ s))%Q.
Proof.
  intros Hs. change 0%Q with (inject_Z 0). rewrite <- Zlt_Qlt.
  by apply Z.pow_pos_nonneg.
Qed.

Lemma Qdiv_le_mono a b c : (0 < c)%Q → (a <= b)%Q → (a / c <= b / c)%Q.
Proof.
  intros Hc Hab. apply Qle_shift_div_l; [done|].
  unfold Qdiv. rewrite <- Qmult_assoc, (Qmult_comm (/ c)), Qmult_inv_r, Qmult_1_r; [done|].
  intros E. rewrite E in Hc. by apply Qlt_irrefl in Hc.
Qed.

Lemma round_half_even_le x k : (x <= inject_Z k)%Q → (Js.round_half_even x ≤ k)%Z.
Proof. intros H%round_half_even_mono. by rewrite round_half_even_Z in H. Qed.

Lemma round_half_even_ge x k : (inject_Z k <= x)%Q → (k ≤ Js.round_half_even x)%Z.
Proof. intros H%round_half_even_mono. by rewrite round_half_even_Z in H. Qed.

Lemma significand_nonneg a : (0 <= a)%Q → (0 ≤ Js.significand a)%Z.
Proof.
  intros Ha. unfold Js.significand.
  set (s := Z.max _ 0). assert (0 ≤ s)%Z by lia.
  apply Z.mul_nonneg_nonneg; [|by apply Z.pow_nonneg].
  apply round_half_even_ge. apply Qle_shift_div_l; [by apply pow2_pos|].
  by rewrite Qmult_0_l.
Qed.

Lemma significand_mono a b :
  (0 <= a)%Q → (a <= b)%Q → (Js.significand a ≤ Js.significand b)%Z.
Proof.
  intros Ha Hab. unfold Js.significand.
  pose proof (Qfloor_resp_le _ _ Hab) as Hn.
  pose proof (Qfloor_resp_le _ _ Ha) as H0. change (Qfloor 0) with 0%Z in H0.
  pose proof (Z.log2_le_mono _ _ Hn) as HL.
  set (na := Qfloor a) in *. set (nb := Qfloor b) in *.
  set (sa := Z.max (Z.log2 na - 52) 0). set (sb := Z.max (Z.log2 nb - 52) 0).
  assert (0 ≤ sa)%Z by lia. assert (sa ≤ sb)%Z by lia.
  destruct (Z.eq_dec sa sb) as [e|n].
  - rewrite e. apply Z.mul_le_mono_nonneg_r; [by apply Z.pow_nonneg; lia|].
    apply round_half_even_mono, Qdiv_le_mono; [apply pow2_pos; lia|done].
  - assert (sb = Z.log2 nb - 52)%Z as Hsb by lia.
    assert (0 < nb)%Z as Hnb.
    { destruct (Z.le_gt_cases nb 0) as [Hle|]; [|done].
      rewrite (Z.log2_nonpos nb Hle) in Hsb. lia. }
    assert (2 ^ (sb + 52) ≤ nb)%Z as Hlow.
    { replace (sb + 52)%Z with (Z.log2 nb) by lia. by apply Z.log2_spec. }
    assert (na + 1 ≤ 2 ^ (sa + 53))%Z as Hhigh.
    { destruct (Z.eq_dec na 0%Z) as [Hna0|Hna]; [rewrite Hna0|].
      - assert (0 < 2 ^ (sa + 53))%Z by (apply Z.pow_pos_nonneg; lia). lia.
      - pose proof (Z.log2_spec na ltac:(lia)) as [_ Hlt].
        assert (2 ^ Z.succ (Z.log2 na) ≤ 2 ^ (sa + 53))%Z
          by (apply Z.pow_le_mono_r; lia).
        lia. }
    trans (2 ^ 53 * 2 ^ sa)%Z.
    + apply Z.mul_le_mono_nonneg_r; [by apply Z.pow_nonneg; lia|].
      apply round_half_even_le. apply Qle_shift_div_r; [by apply pow2_pos|].
      rewrite <- inject_Z_mult, <- Z.pow_add_r by lia.
      apply Qlt_le_weak. eapply Qlt_le_trans; [apply (Qlt_floor a)|].
      rewrite <- Zle_Qle. fold na. by rewrite (Z.add_comm 53).
    + trans (2 ^ 52 * 2 ^ sb)%Z.
      * rewrite <- !Z.pow_add_r by lia. apply Z.pow_le_mono_r; lia.
      * apply Z.mul_le_mono_nonneg_r; [by apply Z.pow_nonneg; lia|].
        apply round_half_even_ge. apply Qle_shift_div_l; [apply pow2_pos; lia|].
        rewrite <- inject_Z_mult, <- Z.pow_add_r by lia.
        eapply Qle_trans; [|apply (Qfloor_le b)].
        rewrite <- Zle_Qle. fold nb. by rewrite (Z.add_comm 52).
Qed.

Lemma double_spec x :
  (Js.double x ==
   inject_Z (Z.sgn (Qnum x) * Js.significand (Qabs x * inject_Z (2 ^ 1074)))
   / inject_Z (2 ^ 1074))%Q.
Proof. apply Qred_correct. Qed.

Lemma Qnum_nonneg x : (0 <= x)%Q → (0 ≤ Qnum x)%Z.
Proof. unfold Qle. simpl. lia. Qed.

Lemma double_mono x y : (0 <= x)%Q → (x <= y)%Q → (Js.double x <= Js.double y)%Q.
Proof.
  intros Hx Hxy. rewrite !double_spec.
  apply Qdiv_le_mono; [by apply pow2_pos|]. rewrite <- Zle_Qle.
  assert (0 <= y)%Q as Hy by (by eapply Qle_trans).
  pose proof (Qnum_nonneg _ Hx) as Hnx. pose proof (Qnum_nonneg _ Hy) as Hny.
  assert (Js.significand (Qabs x * inject_Z (2 ^ 1074))
          ≤ Js.significand (Qabs y * inject_Z (2 ^ 1074)))%Z as Hs.
  { apply significand_mono.
    - apply Qmult_le_0_compat; [apply Qabs_nonneg|]. apply Qlt_le_weak. by apply pow2_pos.
    - apply Qmult_le_compat_r; [|apply Qlt_le_weak; by apply pow2_pos].
      by rewrite !Qabs_pos. }
  assert (0 ≤ Js.significand (Qabs x * inject_Z (2 ^ 1074)))%Z as Hs0.
  { apply significand_nonneg, Qmult_le_0_compat; [apply Qabs_nonneg|].
    apply Qlt_le_weak. by apply pow2_pos. }
  destruct (Z.eq_dec (Qnum x) 0%Z) as [->|Hx0]; [simpl|].
  - apply Z.mul_nonneg_nonneg; [|lia]. destruct (Qnum y); simpl; lia.
  - assert (0 < Qnum y)%Z as Hy0.
    { revert Hxy. unfold Qle. nia. }
    rewrite !Z.sgn_pos by lia. lia.
Qed.

Lemma double_nonneg x : (0 <= x)%Q → (0 <= Js.double x)%Q.
Proof.
  intros Hx. apply (Qle_trans _ (Js.double 0)); [by vm_compute|].
  by apply double_mono.
Qed.

(** A bound that is itself a double survives the rounding. *)
Lemma double_le x b :
  (0 <= x)%Q → (x <= b)%Q → (Js.double b == b)%Q → (Js.double x <= b)%Q.
Proof. intros Hx Hxb <-. by apply double_mono. Qed.

Lemma double_ge x b :
  (0 <= b)%Q → (b <= x)%Q → (Js.double b == b)%Q → (b <= Js.double x)%Q.
Proof. intros Hx Hxb <-. by apply double_mono. Qed.


Lemma Qmult_le_unit d c : (0 <= d)%Q → (d <= 1)%Q → (0 <= c)%Q → (d * c <= c)%Q.
Proof. intros. nra. Qed.

Lemma double_unit r : (0 <= r)%Q → (r < 1)%Q →
  (0 <= Js.double r)%Q ∧ (Js.double r <= 1)%Q.
Proof.
  intros H0 H1. split; [by apply double_nonneg|].
  apply double_le; [done|by apply Qlt_le_weak|by vm_compute].
Qed.

Example double_ex :
  (Js.fmul (Js.double (1 # 3)) 3 == 1)%Q ∧
  (Js.fadd (Js.double (1 # 10)) (Js.double (2 # 10)) > 3 # 10)%Q ∧
  (Js.double (1 # 2) == 1 # 2)%Q.
Proof. by vm_compute. Qed.

(** The double 1.0005 is less than 1.0005, and its product with 1000 is
    less than 1000.5; the double nearest to the product is 1000.5, which
    [Math.round] takes to 1001. *)
Example round3_ex :
  (Js.double (10005 # 10000) * 1000 < 10005 # 10)%Q ∧
  map SearchCache.round3 [10005 # 10000; 10004 # 10000; 356761 # 10000; -(5 # 10000)]
  = [1001; 1000; 35676; 0]%Z.
Proof. by vm_compute. Qed.

End Doubles.

Section CacheKey.
Import SearchCache.

Lemma toLowerCase_app s t :
  Js.toLowerCase (s ++ t) = Js.toLowerCase s ++ Js.toLowerCase t.
Proof. induction s as [|c s IH]; simpl; [done | by rewrite IH]. Qed.

Lemma toLowerCase_same s t :
  same_modulo_case s t → Js.toLowerCase s = Js.toLowerCase t.
Proof.
  induction 1 as [|a b s t Hab _ IH]; simpl; [done|].
  unfold same_letter in Hab. by rewrite Hab, IH.
Qed.

Lemma is_space_lower c : Js.is_space (Js.lower_ascii c) = Js.is_space c.
Proof. by destruct c as [[] [] [] [] [] [] [] []]. Qed.

Lemma all_space_lower s : all_space (Js.toLowerCase s) = all_space s.
Proof.
  induction s as [|c s IH]; simpl; [done|]. by rewrite is_space_lower, IH.
Qed.

Lemma trimStart_space_app w s :
  all_space w = true → Js.trimStart (w ++ s) = Js.trimStart s.
Proof.
  induction w as [|c w IH]; simpl; [done|].
  intros [Hc Hw]%andb_true_iff. rewrite Hc. auto.
Qed.

Lemma trimEnd_all_space w : all_space w = true → Js.trimEnd w = "".
Proof.
  induction w as [|c w IH]; simpl; [done|].
  intros [Hc Hw]%andb_true_iff. by rewrite (IH Hw), Hc.
Qed.

Lemma trimEnd_app_space s w :
  all_space w = true → Js.trimEnd (s ++ w) = Js.trimEnd s.
Proof.
  intros Hw. induction s as [|c s IH]; simpl.
  - by apply trimEnd_all_space.
  - by rewrite IH.
Qed.

Lemma trimStart_all_space w : all_space w = true → Js.trimStart w = "".
Proof.
  induction w as [|c w IH]; simpl; [done|].
  intros [Hc Hw]%andb_true_iff. rewrite Hc. auto.
Qed.

Lemma trim_core_app_space s w :
  all_space w = true → Js.trim (s ++ w) = Js.trim s.
Proof.
  intros Hw. unfold Js.trim. induction s as [|c s IH].
  - change ("" ++ w) with w. by rewrite (trimStart_all_space w Hw).
  - simpl. destruct (Js.is_space c); [done|].
    change (String c (s ++ w)) with (String c s ++ w).
    by apply trimEnd_app_space.
Qed.

Lemma trim_padding pre core post :
  all_space pre = true → all_space post = true →
  Js.trim (pre ++ core ++ post) = Js.trim core.
Proof.
  intros Hpre Hpost. unfold Js.trim at 1.
  rewrite (trimStart_space_app pre _ Hpre).
  by apply trim_core_app_space.
Qed.

Lemma normalize_query_variant q1 q2 :
  query_variant q1 q2 →
  Js.trim (Js.toLowerCase q1) = Js.trim (Js.toLowerCase q2).
Proof.
  intros (pre1 & core1 & post1 & pre2 & core2 & post2 &
          -> & -> & Hp1 & Ho1 & Hp2 & Ho2 & Hc).
  rewrite !toLowerCase_app.
  rewrite !trim_padding by (by rewrite all_space_lower).
  by rewrite (toLowerCase_same _ _ Hc).
Qed.

Lemma sort_Permutation l1 l2 : l1 ≡ₚ l2 → Js.sort l1 = Js.sort l2.
Proof.
  intros HP. unfold Js.sort.
  apply (StronglySorted_unique String.le).
  - apply StronglySorted_merge_sort; apply _.
  - apply StronglySorted_merge_sort; apply _.
  - by rewrite !merge_sort_Permutation.
Qed.

Lemma map_toLowerCase_same l1 l2 :
  Forall2 same_modulo_case l1 l2 →
  map Js.toLowerCase l1 = map Js.toLowerCase l2.
Proof.
  induction 1 as [|s t l1 l2 Hst _ IH]; simpl; [done|].
  by rewrite (toLowerCase_same _ _ Hst), IH.
Qed.

Lemma normalize_dietary_variant d1 d2 :
  dietary_variant d1 d2 →
  (λ l, Js.join "," (Js.sort (map Js.toLowerCase l))) <$> d1
  = (λ l, Js.join "," (Js.sort (map Js.toLowerCase l))) <$> d2.
Proof.
  destruct 1 as [l1 l2 (l & HP & HF)|]; simpl; [|done].
  f_equal. f_equal.
  rewrite <- (map_toLowerCase_same _ _ HF).
  apply sort_Permutation. by apply Permutation_map.
Qed.

Lemma normalize_text_variant o1 o2 :
  text_variant o1 o2 → Js.toLowerCase <$> o1 = Js.toLowerCase <$> o2.
Proof.
  destruct 1 as [s t Hst|]; simpl; [|done].
  by rewrite (toLowerCase_same _ _ Hst).
Qed.

End CacheKey.

Section CacheKeyClaims.
Import SearchCache.

(** C1 (as it holds on the code). [generateCacheKey] returns the same string
    for two parameter sets whose queries differ at most in case and in
    leading or trailing white space, whose dietary-restriction lists differ
    at most in order and case, whose city and cuisine differ at most in
    case, and whose coordinates round to the same thousandth of a degree
    ([Math.round(x * 1000)] agrees, the product being the double the code
    computes); price range and radius are equal. *)
Theorem generateCacheKey_normalizes (p1 p2 : KeyParams) :
  query_variant (query p1) (query p2) →
  dietary_variant (dietaryRestrictions p1) (dietaryRestrictions p2) →
  round3 (latitude (location p1)) = round3 (latitude (location p2)) →
  round3 (longitude (location p1)) = round3 (longitude (location p2)) →
  text_variant (city (location p1)) (city (location p2)) →
  text_variant (cuisine p1) (cuisine p2) →
  priceRange p1 = priceRange p2 →
  radius p1 = radius p2 →
  generateCacheKey p1 = generateCacheKey p2.
Proof.
  intros Hq Hd Hlat Hlng Hcity Hcuisine Hprice Hradius.
  unfold generateCacheKey.
  rewrite (normalize_query_variant _ _ Hq), (normalize_dietary_variant _ _ Hd).
  rewrite (normalize_text_variant _ _ Hcity), (normalize_text_variant _ _ Hcuisine).
  by rewrite Hlat, Hlng, Hprice, Hradius.
Qed.

(** The two requests of the witness differ in the case and padding of the
    query, in the order and case of the dietary list and by 0.0002 degrees
    of latitude inside one rounding cell. *)
Lemma generateCacheKey_normalizes_witness :
  generateCacheKey (sushi_params "  Sushi Bar " (356761 # 10000) ["Vegan"; "halal"])
  = generateCacheKey (sushi_params "sushi bar" (356763 # 10000) ["Halal"; "vegan"])
  ∧ generateCacheKey (sushi_params "sushi bar" (356763 # 10000) ["Halal"; "vegan"])
    = "sushi bar|35.676,139|tokyo|japanese|halal,vegan|2-4|10".
Proof.
  split; [|by vm_compute].
  apply generateCacheKey_normalizes; simpl; try reflexivity.
  - exists "  ", "Sushi Bar", " ", "", "sushi bar", "".
    repeat split; repeat (constructor; [by vm_compute|]); constructor.
  - constructor. exists ["halal"; "Vegan"]. split.
    + apply perm_swap.
    + repeat (constructor; [repeat (constructor; [by vm_compute|]); constructor|]).
      constructor.
  - constructor. repeat (constructor; [by vm_compute|]). constructor.
  - constructor. repeat (constructor; [by vm_compute|]). constructor.
Defined.

(** C1 as stated fails for coordinate jitter: the two requests below differ
    only by 0.0002 degrees of latitude, less than the rounding step 0.001,
    and get different keys, the latitudes 1.0004 and 1.0006 lying on either
    side of the rounding boundary 1.0005. *)
Lemma generateCacheKey_jitter_counterexample :
  let p1 := sushi_params "sushi" (10004 # 10000) [] in
  let p2 := sushi_params "sushi" (10006 # 10000) [] in
  (Qabs (latitude (location p1) - latitude (location p2)) < 1 # 1000)%Q ∧
  generateCacheKey p1 = "sushi|1,139|tokyo|japanese||2-4|10" ∧
  generateCacheKey p2 = "sushi|1.001,139|tokyo|japanese||2-4|10" ∧
  generateCacheKey p1 ≠ generateCacheKey p2.
Proof. repeat split; by vm_compute. Qed.

End CacheKeyClaims.

(** ** The cache: well-formedness, expiry and eviction *)

Section CacheProofs.
Context {T : Type}.
Import SearchCache.

Implicit Types (c : t T) (o : list string) (k : string) (r : gmap string nat).

Lemma remove_not_elem k o : k ∉ o → removeFromAccessOrder k o = o.
Proof.
  induction o as [|x o IH]; simpl; [done|].
  intros [Hx Ho]%not_elem_of_cons. rewrite decide_False by done.
  by rewrite IH.
Qed.

Lemma elem_of_remove k x o :
  NoDup o → x ∈ removeFromAccessOrder k o ↔ x ∈ o ∧ x ≠ k.
Proof.
  induction o as [|y o IH]; simpl; intros Hnd.
  - set_solver.
  - apply NoDup_cons in Hnd as [Hy Hnd]. case_decide as Hyk.
    + subst y. split.
      * intros Hx. split; [set_solver|]. intros ->. done.
      * intros [[->|Hx]%elem_of_cons Hne]; done.
    + rewrite !elem_of_cons, (IH Hnd). naive_solver.
Qed.

Lemma remove_sublist k o : removeFromAccessOrder k o `sublist_of` o.
Proof.
  induction o as [|y o IH]; simpl; [done|].
  case_decide; [by apply sublist_cons | by apply sublist_skip].
Qed.

Lemma NoDup_remove k o : NoDup o → NoDup (removeFromAccessOrder k o).
Proof. intros. by eapply sublist_NoDup, remove_sublist. Qed.

Lemma StronglySorted_sublist {A} (R : relation A) (l1 l2 : list A) :
  l1 `sublist_of` l2 → StronglySorted R l2 → StronglySorted R l1.
Proof.
  induction 1 as [|x l1 l2 Hs IH|x l1 l2 Hs IH]; intros Hl; [done|..].
  - apply StronglySorted_cons in Hl as [HF Hl].
    apply StronglySorted_cons. split; [|by auto].
    eapply Forall_forall. intros y Hy. eapply Forall_forall in HF; [done|].
    by eapply elem_of_sublist.
  - apply StronglySorted_cons in Hl as [_ Hl]. auto.
Qed.

Lemma length_remove k o :
  k ∈ o → S (length (removeFromAccessOrder k o)) = length o.
Proof.
  induction o as [|y o IH]; simpl; [by intros ?%elem_of_nil|].
  case_decide; [done|]. intros [->|Hk]%elem_of_cons; [done|].
  simpl. by rewrite IH.
Qed.

Lemma NoDup_update k o : NoDup o → NoDup (updateAccessOrder k o).
Proof.
  intros Hnd. unfold updateAccessOrder. apply NoDup_app. split_and!.
  - by apply NoDup_remove.
  - intros x [_ Hx]%elem_of_remove; [|done]. set_solver.
  - apply NoDup_singleton.
Qed.

Lemma elem_of_update k x o :
  NoDup o → x ∈ updateAccessOrder k o ↔ x = k ∨ x ∈ o.
Proof.
  intros Hnd. unfold updateAccessOrder.
  rewrite elem_of_app, elem_of_remove, list_elem_of_singleton by done.
  destruct (decide (x = k)); naive_solver.
Qed.

Lemma wf_size c : wf c → size (cache c) = length (accessOrder c).
Proof.
  intros [Hnd Hdom]. rewrite <- size_dom.
  rewrite <- (size_list_to_set (C := gset string) (accessOrder c)) by done.
  f_equal. apply set_eq. intros k.
  by rewrite elem_of_dom, elem_of_list_to_set, Hdom.
Qed.

Lemma wf_new (options : CacheOptions) : wf (new (T := T) options).
Proof.
  split; simpl; [apply NoDup_nil_2|].
  intros k. rewrite lookup_empty. split; [by intros ?%elem_of_nil|by intros [? ?]].
Qed.

Lemma wf_removed c k :
  wf c →
  wf (with_store (delete k (cache c)) (removeFromAccessOrder k (accessOrder c)) c).
Proof.
  intros [Hnd Hdom]. split; simpl; [by apply NoDup_remove|].
  intros x. rewrite elem_of_remove by done. rewrite Hdom, lookup_delete.
  case_decide; subst; naive_solver.
Qed.

Lemma wf_inserted c k (e : CacheEntry T) :
  wf c →
  wf (with_store (<[k := e]> (cache c)) (updateAccessOrder k (accessOrder c)) c).
Proof.
  intros [Hnd Hdom]. split; simpl; [by apply NoDup_update|].
  intros x. rewrite elem_of_update by done. rewrite Hdom, lookup_insert.
  case_decide; subst; naive_solver.
Qed.

Lemma wf_with_stats c f : wf c → wf (with_stats f c).
Proof. done. Qed.

Lemma wf_evictLRU c : wf c → wf (evictLRU c).
Proof.
  intros [Hnd Hdom]. unfold evictLRU.
  destruct (accessOrder c) as [|x o] eqn:Ho; [by split; rewrite ?Ho|].
  apply NoDup_cons in Hnd as [Hx Hnd]. split; simpl; [done|].
  intros y. rewrite lookup_delete. specialize (Hdom y).
  rewrite elem_of_cons in Hdom. case_decide; subst; naive_solver.
Qed.

Lemma wf_get c k now : wf c → wf (get k now c).2.
Proof.
  intros Hwf. unfold get. simpl.
  destruct (cache c !! k) as [e|]; [|done].
  destruct (now >? expiresAt e)%Z; simpl.
  - by apply (wf_removed c k).
  - by apply (wf_inserted c k).
Qed.

Lemma wf_set c k d loc q n now : wf c → wf (set k d loc q n now c).
Proof.
  intros Hwf. unfold set.
  match goal with |- context [if ?b then _ else _] => destruct b end.
  - by apply wf_inserted, wf_evictLRU.
  - by apply wf_inserted.
Qed.

Lemma wf_has c k now : wf c → wf (has k now c).2.
Proof.
  intros Hwf. unfold has.
  destruct (cache c !! k) as [e|]; [|done].
  destruct (now >? expiresAt e)%Z; [|done]. by apply wf_removed.
Qed.

Lemma wf_delete c k : wf c → wf (delete_ k c).2.
Proof.
  intros Hwf. unfold delete_.
  destruct (cache c !! k) as [e|]; [|done]. by apply wf_removed.
Qed.

Lemma wf_clear c : wf c → wf (clear c).
Proof.
  intros _. split; simpl; [apply NoDup_nil_2|].
  intros k. rewrite lookup_empty. split; [by intros ?%elem_of_nil|by intros [? ?]].
Qed.

(** Taking several keys out of the access order, one after the other. *)
Lemma remove_all_spec (ks : list string) o :
  NoDup o →
  NoDup (foldr removeFromAccessOrder o ks) ∧
  foldr removeFromAccessOrder o ks `sublist_of` o ∧
  ∀ x, x ∈ foldr removeFromAccessOrder o ks ↔ x ∈ o ∧ x ∉ ks.
Proof.
  intros Hnd. induction ks as [|k ks (IH1 & IH2 & IH3)]; simpl.
  - split_and!; [done..|]. set_solver.
  - split_and!.
    + by apply NoDup_remove.
    + etrans; [apply remove_sublist|done].
    + intros x. rewrite elem_of_remove by done. rewrite IH3. set_solver.
Qed.

Lemma wf_expire c a now : wf c → wf (expireOldEntries a now c).2.
Proof.
  intros [Hnd Hdom]. unfold expireOldEntries. simpl.
  set (P := λ kv : string * CacheEntry T, (timestamp kv.2 < now - a)%Z).
  destruct (remove_all_spec (map_to_list (filter P (cache c))).*1 _ Hnd)
    as (H1 & _ & H3).
  split; simpl; [done|].
  intros k. rewrite H3, Hdom.
  assert (k ∈ (map_to_list (filter P (cache c))).*1
          ↔ is_Some (filter P (cache c) !! k)) as ->.
  { rewrite list_elem_of_fmap. split.
    - intros ([k' e] & -> & He%elem_of_map_to_list). by exists e.
    - intros [e He]. exists (k, e). by rewrite elem_of_map_to_list. }
  unfold is_Some. setoid_rewrite map_lookup_filter_Some. simpl.
  split.
  - intros [[e He] Hn]. exists e. split; [done|]. intros HP. apply Hn. eauto.
  - intros (e & He & HP). split; [eauto|]. intros (e' & He' & HP').
    simplify_eq. done.
Qed.

Lemma wf_step (x : op T) c : wf c → wf (step x c).
Proof.
  intros Hwf. destruct x; simpl.
  - by apply wf_get.
  - by apply wf_set.
  - by apply wf_has.
  - by apply wf_delete.
  - by apply wf_clear.
  - by apply wf_expire.
Qed.

Lemma maxSize_step (x : op T) c : maxSize (step x c) = maxSize c.
Proof.
  destruct x as [k now|k d loc q n now|k now|k| |a now]; simpl; try done.
  - unfold get. simpl. destruct (cache c !! k) as [e|]; [|done].
    by destruct (now >? expiresAt e)%Z.
  - unfold set. match goal with |- context [if ?b then _ else _] => destruct b end;
      [|done]. simpl. unfold evictLRU. by destruct (accessOrder c).
  - unfold has. destruct (cache c !! k) as [e|]; [|done].
    by destruct (now >? expiresAt e)%Z.
  - unfold delete_. by destruct (cache c !! k).
Qed.

Lemma ttl_step (x : op T) c : ttl (step x c) = ttl c.
Proof.
  destruct x as [k now|k d loc q n now|k now|k| |a now]; simpl; try done.
  - unfold get. simpl. destruct (cache c !! k) as [e|]; [|done].
    by destruct (now >? expiresAt e)%Z.
  - unfold set. match goal with |- context [if ?b then _ else _] => destruct b end;
      [|done]. simpl. unfold evictLRU. by destruct (accessOrder c).
  - unfold has. destruct (cache c !! k) as [e|]; [|done].
    by destruct (now >? expiresAt e)%Z.
  - unfold delete_. by destruct (cache c !! k).
Qed.

(** *** The capacity bound *)

Lemma size_removed c k :
  (size (delete k (cache c)) ≤ size (cache c))%nat.
Proof. apply map_subseteq_size, delete_subseteq. Qed.

Lemma set_no_evict c k d loc q n now :
  ((Z.of_nat (size (cache c)) >=? maxSize c)%Z
   && negb (bool_decide (is_Some (cache c !! k)))) = false →
  set k d loc q n now c =
  with_store
    (<[k := mkEntry k d now (now + ttl c) (mkMetadata loc q n (version c)) 1 now]>
       (cache c))
    (updateAccessOrder k (accessOrder c)) c.
Proof. intros Hb. unfold set. by rewrite Hb. Qed.

Lemma set_evict c k d loc q n now lru rest :
  accessOrder c = lru :: rest →
  (Z.of_nat (size (cache c)) >= maxSize c)%Z →
  cache c !! k = None →
  cache (set k d loc q n now c) =
    <[k := mkEntry k d now (now + ttl c) (mkMetadata loc q n (version c)) 1 now]>
      (delete lru (cache c)) ∧
  accessOrder (set k d loc q n now c) = updateAccessOrder k rest.
Proof.
  intros Ho Hfull Hk. unfold set.
  rewrite (proj2 (Z.geb_le _ _)) by lia.
  rewrite bool_decide_false by (rewrite Hk; by intros [? ?]).
  simpl. unfold evictLRU. rewrite Ho. done.
Qed.

Lemma bounded_set c k d loc q n now :
  wf c → (1 ≤ maxSize c)%Z → bounded c → bounded (set k d loc q n now c).
Proof.
  intros Hwf Hmax Hb. unfold bounded in *.
  destruct ((Z.of_nat (size (cache c)) >=? maxSize c)%Z
            && negb (bool_decide (is_Some (cache c !! k)))) eqn:Hcase.
  - apply andb_true_iff in Hcase as [Hfull Hnew].
    apply Z.geb_le in Hfull. apply negb_true_iff, bool_decide_eq_false in Hnew.
    assert (cache c !! k = None) as Hk by (by apply eq_None_not_Some).
    pose proof (wf_size c Hwf) as Hsz.
    destruct (accessOrder c) as [|lru rest] eqn:Ho; [simpl in Hsz; lia|].
    destruct (set_evict c k d loc q n now lru rest Ho) as [Hc _]; [lia|done|].
    assert (maxSize (set k d loc q n now c) = maxSize c) as ->
      by apply (maxSize_step (OpSet k d loc q n now)).
    rewrite Hc. rewrite map_size_insert_None
      by (rewrite lookup_delete; case_decide; done).
    destruct Hwf as [_ Hdom]. rewrite map_size_delete_Some
      by (apply Hdom; rewrite Ho; left).
    lia.
  - rewrite (set_no_evict _ _ _ _ _ _ _ Hcase). simpl.
    apply andb_false_iff in Hcase as [Hroom|Hold].
    + rewrite Z.geb_leb in Hroom. apply Z.leb_gt in Hroom.
      rewrite map_size_insert.
      destruct (cache c !! k); simpl; lia.
    + apply negb_false_iff, bool_decide_eq_true in Hold.
      by rewrite map_size_insert_Some.
Qed.

Lemma bounded_step (x : op T) c :
  wf c → (1 ≤ maxSize c)%Z → bounded c → bounded (step x c).
Proof.
  intros Hwf Hmax Hb.
  destruct x as [k now|k d loc q n now|k now|k| |a now].
  - unfold bounded in *. simpl. unfold get. simpl.
    destruct (cache c !! k) as [e|] eqn:He; [|done].
    destruct (now >? expiresAt e)%Z; simpl.
    + pose proof (size_removed c k). lia.
    + by rewrite map_size_insert_Some.
  - by apply bounded_set.
  - unfold bounded in *. simpl. unfold has.
    destruct (cache c !! k) as [e|]; [|done].
    destruct (now >? expiresAt e)%Z; simpl; [|done].
    pose proof (size_removed c k). lia.
  - unfold bounded in *. simpl. unfold delete_.
    destruct (cache c !! k) as [e|]; [|done]. simpl.
    pose proof (size_removed c k). lia.
  - unfold bounded. simpl. rewrite map_size_empty. lia.
  - unfold bounded in *. simpl.
    match goal with |- context [size (filter ?P (cache c))] =>
      pose proof (map_subseteq_size _ _ (map_filter_subseteq P (cache c))) end.
    lia.
Qed.

(** *** Recency *)

Lemma stamped_sublist r n n' o o' :
  stamped r n o → o' `sublist_of` o → (n ≤ n')%nat → stamped r n' o'.
Proof.
  intros [Hs Hsorted] Hsub Hn. split.
  - intros k Hk. destruct (Hs k) as (i & Hi & Hlt);
      [by eapply elem_of_sublist|]. exists i. split; [done|lia].
  - by eapply StronglySorted_sublist.
Qed.

Lemma accessed_before_insert r k n a b :
  a ≠ k → b ≠ k →
  accessed_before r a b → accessed_before (<[k := n]> r) a b.
Proof.
  intros Ha Hb. unfold accessed_before. by rewrite !lookup_insert_ne.
Qed.

Lemma StronglySorted_insert r k n o :
  k ∉ o → StronglySorted (accessed_before r) o →
  StronglySorted (accessed_before (<[k := n]> r)) o.
Proof.
  induction o as [|x o IH]; intros Hk Hs; [constructor|].
  apply not_elem_of_cons in Hk as [Hkx Hk].
  apply StronglySorted_cons in Hs as [HF Hs].
  apply StronglySorted_cons. split; [|by auto].
  apply Forall_forall. intros y Hy.
  apply accessed_before_insert; [done| |].
  - intros ->. done.
  - by eapply Forall_forall in HF.
Qed.

Lemma stamped_update r n o k :
  NoDup o → stamped r n o →
  stamped (<[k := n]> r) (S n) (updateAccessOrder k o).
Proof.
  intros Hnd [Hs Hsorted]. unfold updateAccessOrder.
  assert (k ∉ removeFromAccessOrder k o) as Hk.
  { intros [_ ?]%elem_of_remove; done. }
  split.
  - intros x [Hx| ->%list_elem_of_singleton]%elem_of_app.
    + apply elem_of_remove in Hx as [Hx Hne]; [|done].
      destruct (Hs x Hx) as (i & Hi & Hlt). exists i.
      rewrite lookup_insert_ne by done. split; [done|lia].
    + exists n. rewrite lookup_insert_eq. split; [done|lia].
  - apply StronglySorted_app. split_and!.
    + intros x y Hx ->%list_elem_of_singleton.
      apply elem_of_remove in Hx as [Hx Hne]; [|done].
      destruct (Hs x Hx) as (i & Hi & Hlt). unfold accessed_before.
      rewrite lookup_insert_ne by done. by rewrite Hi, lookup_insert_eq.
    + apply StronglySorted_insert; [done|].
      eapply StronglySorted_sublist; [apply remove_sublist|done].
    + repeat constructor.
Qed.

Lemma stamped_step (x : op T) (s : traced T) :
  wf (tr_cache s) →
  stamped (tr_stamp s) (tr_clock s) (accessOrder (tr_cache s)) →
  stamped (tr_stamp (traced_step x s)) (tr_clock (traced_step x s))
          (accessOrder (tr_cache (traced_step x s))).
Proof.
  destruct s as [c n r]. simpl. intros Hwf Hst.
  pose proof Hwf as [Hnd Hdom].
  destruct x as [k now|k d loc q m now|k now|k| |a now]; simpl.
  - unfold get. simpl. destruct (cache c !! k) as [e|]; simpl.
    + destruct (now >? expiresAt e)%Z; simpl.
      * eapply (stamped_sublist _ _ _ _ _ Hst); [apply remove_sublist|lia].
      * by apply stamped_update.
    + eapply (stamped_sublist _ _ _ _ _ Hst); [done|lia].
  - unfold set.
    match goal with |- context [if ?b then _ else _] => destruct b end; simpl.
    + unfold evictLRU. destruct (accessOrder c) as [|lru rest] eqn:Ho; simpl.
      * apply stamped_update; [by rewrite Ho|by rewrite Ho].
      * apply NoDup_cons in Hnd as [_ Hnd]. apply stamped_update; [done|].
        eapply (stamped_sublist _ _ _ _ _ Hst); [by apply sublist_cons|lia].
    + by apply stamped_update.
  - unfold has. destruct (cache c !! k) as [e|]; simpl.
    + destruct (now >? expiresAt e)%Z; simpl.
      * eapply (stamped_sublist _ _ _ _ _ Hst); [apply remove_sublist|lia].
      * eapply (stamped_sublist _ _ _ _ _ Hst); [done|lia].
    + eapply (stamped_sublist _ _ _ _ _ Hst); [done|lia].
  - unfold delete_. destruct (cache c !! k) as [e|]; simpl.
    + eapply (stamped_sublist _ _ _ _ _ Hst); [apply remove_sublist|lia].
    + eapply (stamped_sublist _ _ _ _ _ Hst); [done|lia].
  - split; [by intros k ?%elem_of_nil|constructor].
  - match goal with |- context [foldr _ _ ?ks] =>
      destruct (remove_all_spec ks _ Hnd) as (_ & Hsub & _) end.
    eapply (stamped_sublist _ _ _ _ _ Hst); [done|lia].
Qed.

Lemma traced_inv_step (x : op T) (s : traced T) :
  (1 ≤ maxSize (tr_cache s))%Z → traced_inv s → traced_inv (traced_step x s).
Proof.
  intros Hmax (Hwf & Hb & Hst). split_and!.
  - by apply wf_step.
  - by apply bounded_step.
  - by apply stamped_step.
Qed.

Lemma trace_snoc (ops : list (op T)) (x : op T) c :
  trace (ops ++ [x]) c = traced_step x (trace ops c).
Proof. unfold trace. by rewrite foldl_app. Qed.

Lemma trace_run (ops : list (op T)) c : tr_cache (trace ops c) = run ops c.
Proof.
  induction ops as [|x ops IH] using rev_ind; [done|].
  rewrite trace_snoc. unfold run. rewrite foldl_app. simpl.
  by rewrite IH.
Qed.

Lemma trace_maxSize (ops : list (op T)) c :
  maxSize (tr_cache (trace ops c)) = maxSize c.
Proof.
  induction ops as [|x ops IH] using rev_ind; [done|].
  rewrite trace_snoc. simpl. by rewrite maxSize_step.
Qed.

Lemma traced_inv_new (options : CacheOptions) :
  (1 ≤ maxSize (new (T := T) options))%Z →
  traced_inv (mkTraced (new (T := T) options) 0 ∅).
Proof.
  intros Hmax. split_and!.
  - apply wf_new.
  - unfold bounded. simpl. rewrite map_size_empty. simpl in Hmax. lia.
  - split; [by intros k ?%elem_of_nil|constructor].
Qed.

Lemma traced_inv_trace (options : CacheOptions) (ops : list (op T)) :
  (1 ≤ maxSize (new (T := T) options))%Z →
  traced_inv (trace ops (new options)).
Proof.
  intros Hmax. induction ops as [|x ops IH] using rev_ind.
  - by apply traced_inv_new.
  - rewrite trace_snoc. apply traced_inv_step; [|done].
    by rewrite trace_maxSize.
Qed.

(** What [set] does to a full cache that does not hold the key. *)
Lemma set_full_evicts c r n k d loc q m now :
  wf c → stamped r n (accessOrder c) → (1 ≤ maxSize c)%Z →
  Z.of_nat (size (cache c)) = maxSize c → cache c !! k = None →
  ∃ lru,
    is_Some (cache c !! lru) ∧
    (∀ k', is_Some (cache c !! k') → k' ≠ lru → accessed_before r lru k') ∧
    let c' := set k d loc q m now c in
    dom (cache c') = {[k]} ∪ dom (cache c) ∖ {[lru]} ∧
    cache c' !! lru = None ∧
    size (cache c') = size (cache c) ∧
    (∀ k', k' ≠ k → k' ≠ lru → cache c' !! k' = cache c !! k').
Proof.
  intros Hwf [Hs Hsorted] Hmax Hfull Hk.
  pose proof (wf_size c Hwf) as Hsz. pose proof Hwf as [Hnd Hdom].
  destruct (accessOrder c) as [|lru rest] eqn:Ho; [simpl in Hsz; lia|].
  destruct (set_evict c k d loc q m now lru rest Ho) as [Hc Hord]; [lia|done|].
  assert (is_Some (cache c !! lru)) as Hlru by (apply Hdom; left).
  assert (lru ≠ k) as Hne by (intros ->; rewrite Hk in Hlru; by destruct Hlru).
  exists lru. split_and!; [done| |].
  - intros k' Hk' Hne'. apply StronglySorted_cons in Hsorted as [HF _].
    eapply Forall_forall in HF; [done|].
    apply Hdom in Hk'. apply elem_of_cons in Hk' as [?|?]; done.
  - cbv zeta. rewrite Hc. split_and!.
    + rewrite dom_insert_L, dom_delete_L. done.
    + rewrite lookup_insert_ne by done. apply lookup_delete_eq.
    + rewrite map_size_insert_None
        by (rewrite lookup_delete; case_decide; done).
      rewrite map_size_delete_Some by done.
      destruct (size (cache c)); [simpl in Hsz; done|done].
    + intros k' H1 H2. rewrite lookup_insert_ne by done.
      by rewrite lookup_delete_ne.
Qed.

(** [set] never removes a key that was accessed after another stored key. *)
Lemma set_keeps_recent c r n k d loc q m now k0 k1 :
  wf c → stamped r n (accessOrder c) →
  is_Some (cache c !! k0) → is_Some (cache c !! k1) →
  accessed_before r k1 k0 →
  is_Some (cache (set k d loc q m now c) !! k0).
Proof.
  intros [Hnd Hdom] [Hs Hsorted] Hk0 Hk1 Hbefore. unfold set.
  match goal with |- context [if ?b then _ else _] => destruct b end; simpl.
  - unfold evictLRU. destruct (accessOrder c) as [|lru rest] eqn:Ho; simpl.
    + rewrite lookup_insert. case_decide; [by eexists|done].
    + rewrite lookup_insert. case_decide; [by eexists|].
      rewrite lookup_delete_ne; [done|]. intros ->.
      apply StronglySorted_cons in Hsorted as [HF _].
      assert (k1 ∈ rest) as Hin.
      { apply Hdom in Hk1. apply elem_of_cons in Hk1 as [->|?]; [|done].
        unfold accessed_before in Hbefore.
        destruct (r !! k0); [lia|done]. }
      eapply Forall_forall in HF; [|exact Hin].
      unfold accessed_before in *.
      destruct (r !! k0), (r !! k1); try done. lia.
  - rewrite lookup_insert. case_decide; [by eexists|done].
Qed.

(** A [get] that hits protects its key from the next eviction, as long as
    the cache holds another key. *)
Lemma get_protects c r n k0 now0 k1 k d loc q m now :
  wf c → stamped r n (accessOrder c) →
  is_Some (get k0 now0 c).1 → k1 ≠ k0 → is_Some (cache c !! k1) →
  is_Some (cache (set k d loc q m now (get k0 now0 c).2) !! k0).
Proof.
  intros Hwf Hst Hhit Hne Hk1.
  assert (∃ e, cache c !! k0 = Some e ∧ (now0 >? expiresAt e)%Z = false)
    as (e & He & Hexp).
  { revert Hhit. unfold get. simpl.
    destruct (cache c !! k0) as [e|]; simpl; [|by intros [? ?]].
    destruct (now0 >? expiresAt e)%Z eqn:?; simpl; [by intros [? ?]|]. eauto. }
  assert (get k0 now0 c =
          (Some (data e),
           with_stats count_hit
             (with_store (<[k0 := touch now0 e]> (cache c))
                (updateAccessOrder k0 (accessOrder c))
                (with_stats count_request c)))) as Hget.
  { unfold get. simpl. by rewrite He, Hexp. }
  pose proof (stamped_step (OpGet k0 now0) (mkTraced c n r) Hwf Hst) as Hst'.
  pose proof (wf_get c k0 now0 Hwf) as Hwf'.
  unfold traced_step, accessed, step in Hst'. simpl in Hst'.
  rewrite Hget in Hst', Hwf' |- *. simpl in Hst'.
  eapply set_keeps_recent with (k1 := k1); [exact Hwf'|exact Hst'|..]; simpl.
  - rewrite lookup_insert_eq. by eexists.
  - by rewrite lookup_insert_ne.
  - destruct Hst as [Hs _]. destruct Hwf as [_ Hdom].
    destruct (Hs k1) as (i & Hi & Hlt); [by apply Hdom|].
    unfold accessed_before.
    rewrite lookup_insert_ne by done. by rewrite Hi, lookup_insert_eq.
Qed.

(** C7. For a cache of capacity [maxSize >= 1], after any run of [get],
    [set], [has], [delete], [clear] and [expireOldEntries] calls on a fresh
    instance: the number of stored entries is at most [maxSize]; a [set] of
    a key that is not stored, on a full cache, removes exactly one entry,
    the one that was accessed least recently, and leaves the number of
    entries unchanged; a [set] never removes a key that was accessed after
    some other stored key; and a key that a [get] has just returned
    survives the following [set] whenever another key is stored. *)
Theorem lru_eviction_and_capacity (options : CacheOptions) (ops : list (op T)) :
  (1 ≤ maxSize (new (T := T) options))%Z →
  let s := trace ops (new options) in
  let c := run ops (new options) in
  tr_cache s = c ∧
  (Z.of_nat (size (cache c)) ≤ maxSize c)%Z ∧
  (∀ k d loc q m now,
     Z.of_nat (size (cache c)) = maxSize c → cache c !! k = None →
     ∃ lru,
       is_Some (cache c !! lru) ∧
       (∀ k', is_Some (cache c !! k') → k' ≠ lru →
              accessed_before (tr_stamp s) lru k') ∧
       let c' := set k d loc q m now c in
       dom (cache c') = {[k]} ∪ dom (cache c) ∖ {[lru]} ∧
       cache c' !! lru = None ∧
       size (cache c') = size (cache c) ∧
       (∀ k', k' ≠ k → k' ≠ lru → cache c' !! k' = cache c !! k')) ∧
  (∀ k0 k1 k d loc q m now,
     is_Some (cache c !! k0) → is_Some (cache c !! k1) →
     accessed_before (tr_stamp s) k1 k0 →
     is_Some (cache (set k d loc q m now c) !! k0)) ∧
  (∀ k0 now0 k1 k d loc q m now,
     is_Some (get k0 now0 c).1 → k1 ≠ k0 → is_Some (cache c !! k1) →
     is_Some (cache (set k d loc q m now (get k0 now0 c).2) !! k0)).
Proof.
  intros Hmax s c.
  pose proof (traced_inv_trace options ops Hmax) as (Hwf & Hb & Hst).
  pose proof (trace_maxSize ops (new options)) as Hsame.
  pose proof (trace_run ops (new options)) as Hrun.
  fold s in Hwf, Hb, Hst, Hsame, Hrun. fold c in Hrun.
  rewrite Hrun in Hwf, Hb, Hst, Hsame.
  split_and!; [done|done|..].
  - intros k d loc q m now Hfull Hk.
    eapply set_full_evicts; [done|done|by rewrite Hsame|done|done].
  - intros k0 k1 k d loc q m now. by eapply set_keeps_recent.
  - intros k0 now0 k1 k d loc q m now. by eapply get_protects.
Qed.

(** C6. An entry stored by [set] at time [t0] in a cache of time-to-live
    [ttl] is returned by [get] at every time [t1 <= t0 + ttl]; at a time
    [t1 > t0 + ttl] the [get] returns nothing, the entry is gone from the
    map afterwards, and result and final state are those of the same [get]
    on the cache from which the key was deleted beforehand.  More generally
    this holds for every stored entry and its [expiresAt], which a hit leaves
    unchanged. *)
Theorem ttl_expiry c k (d : T) loc q m (t0 t1 : Z) :
  let c1 := set k d loc q m t0 c in
  (∃ e, cache c1 !! k = Some e ∧ data e = d ∧ expiresAt e = (t0 + ttl c)%Z) ∧
  ((t1 ≤ t0 + ttl c)%Z → (get k t1 c1).1 = Some d) ∧
  ((t1 > t0 + ttl c)%Z →
     (get k t1 c1).1 = None ∧
     cache (get k t1 c1).2 !! k = None ∧
     get k t1 c1 = get k t1 (delete_ k c1).2) ∧
  (∀ (c' : t T) e,
     cache c' !! k = Some e →
     ((t1 ≤ expiresAt e)%Z →
        (get k t1 c').1 = Some (data e) ∧
        expiresAt <$> cache (get k t1 c').2 !! k = Some (expiresAt e)) ∧
     ((t1 > expiresAt e)%Z →
        (get k t1 c').1 = None ∧
        cache (get k t1 c').2 !! k = None ∧
        get k t1 c' = get k t1 (delete_ k c').2)).
Proof.
  assert (∀ (c' : t T) e,
     cache c' !! k = Some e →
     ((t1 ≤ expiresAt e)%Z →
        (get k t1 c').1 = Some (data e) ∧
        expiresAt <$> cache (get k t1 c').2 !! k = Some (expiresAt e)) ∧
     ((t1 > expiresAt e)%Z →
        (get k t1 c').1 = None ∧
        cache (get k t1 c').2 !! k = None ∧
        get k t1 c' = get k t1 (delete_ k c').2)) as Hgen.
  { intros c' e He. split; intros Ht.
    - unfold get. simpl. rewrite He.
      assert ((t1 >? expiresAt e)%Z = false) as -> by lia.
      simpl. by rewrite lookup_insert_eq.
    - unfold get, delete_. simpl. rewrite He. simpl.
      rewrite lookup_delete_eq.
      assert ((t1 >? expiresAt e)%Z = true) as -> by lia.
      simpl. by rewrite lookup_delete_eq. }
  intros c1.
  assert (∃ e, cache c1 !! k = Some e ∧ data e = d
               ∧ expiresAt e = (t0 + ttl c)%Z) as (e & He & Hd & Hx).
  { unfold c1, set.
    match goal with |- context [if ?b then _ else _] => destruct b end; simpl.
    - rewrite lookup_insert_eq. eexists. split_and!; [done|done|]. simpl.
      unfold evictLRU. by destruct (accessOrder c).
    - rewrite lookup_insert_eq. by eexists. }
  destruct (Hgen c1 e He) as [Hlive Hdead]. rewrite Hd, Hx in *.
  split_and!; [by exists e| | |done].
  - intros Ht. by apply Hlive.
  - intros Ht. by apply Hdead.
Qed.

End CacheProofs.

Section CacheExamples.
Import SearchCache.

Example warm_up_evicts_b :
  let c := set "c" "C" here "udon" 1 3 (run warm_up small_cache) in
  accessOrder (run warm_up small_cache) = ["b"; "a"] ∧
  accessOrder c = ["a"; "c"] ∧
  data <$> cache c !! "a" = Some "A" ∧ cache c !! "b" = None ∧
  size (cache c) = 2%nat.
Proof. by vm_compute. Qed.

Lemma lru_eviction_and_capacity_witness :
  let c := run warm_up small_cache in
  (1 ≤ maxSize small_cache)%Z ∧
  (Z.of_nat (size (cache c)) ≤ maxSize c)%Z ∧
  is_Some (cache (set "c" "C" here "udon" 1 3 c) !! "a").
Proof.
  assert (1 ≤ maxSize small_cache)%Z as Hmax by (vm_compute; congruence).
  destruct (lru_eviction_and_capacity (mkOptions None (Some 2%Z) None) warm_up Hmax)
    as (_ & Hsize & _ & Hkeep & _).
  split_and!; [exact Hmax|exact Hsize|].
  apply (Hkeep "a" "b"); vm_compute; [by eexists|by eexists|lia].
Defined.

Lemma ttl_expiry_witness :
  let c1 := set "a" "A" here "ramen" 1 1000 small_cache in
  (get "a" 1801000 c1).1 = Some "A" ∧
  (get "a" 1801001 c1).1 = None ∧
  cache (get "a" 1801001 c1).2 !! "a" = None.
Proof.
  destruct (ttl_expiry small_cache "a" "A" here "ramen" 1 1000 1801000)
    as (_ & Hlive & _).
  destruct (ttl_expiry small_cache "a" "A" here "ramen" 1 1000 1801001)
    as (_ & _ & Hdead & _).
  split_and!.
  - apply Hlive. vm_compute. congruence.
  - apply Hdead. vm_compute. reflexivity.
  - apply Hdead. vm_compute. reflexivity.
Defined.

End CacheExamples.

(** ** The result parser *)

Section ParserProofs.
Import SearchResultParser.

Example sushi_zen_accepted :
  validateRestaurant demo_platform sushi_zen here = mkValidation true [].
Proof. by vm_compute. Qed.

Example phone_formats :
  phoneRegex (Js.remove_spaces "(555) 123-4567") = true ∧
  phoneRegex (Js.remove_spaces "+1 555 123 4567") = true ∧
  phoneRegex (Js.remove_spaces "555-1234") = false ∧
  phoneRegex (Js.remove_spaces "call us") = false.
Proof. by vm_compute. Qed.

Example normalizeCuisine_ex :
  normalizeCuisine " trattoria " = Own "Italian" ∧
  normalizeCuisine "JAPANESE" = Own "Japanese" ∧
  normalizeCuisine "Constructor" = Inherited ∧
  normalizeCuisine "klingon" = Undefined.
Proof. by vm_compute. Qed.

Section WithPlatform.
Context (pf : Platform).

Lemma bad_phone_error data location :
  bad_phone data →
  "Invalid phone number format" ∈ validation_errors pf data location.
Proof.
  intros (ph & Hph & Ht & Hre). unfold validation_errors.
  rewrite !elem_of_app. do 8 right. left.
  unfold check_phone. rewrite Hph, Ht, Hre. left.
Qed.

Lemma bad_website_error data location :
  bad_website pf data →
  "Invalid website URL" ∈ validation_errors pf data location.
Proof.
  intros (w & Hw & Ht & Hu). unfold validation_errors.
  rewrite !elem_of_app. do 9 right.
  unfold check_website. rewrite Hw, Ht, Hu. left.
Qed.

Lemma error_invalidates data location msg :
  msg ∈ validation_errors pf data location →
  isValid (validateRestaurant pf data location) = false.
Proof.
  unfold validateRestaurant. simpl.
  destruct (validation_errors pf data location); [by intros ?%elem_of_nil|done].
Qed.

(** The rejected records of the loop are the records that fail validation,
    in order, each with its errors. *)
Lemma parse_loop_invalid now location q rawData index i :
  (parse_loop pf now location q index rawData i).1.2 =
  omap (λ raw,
          if isValid (validateRestaurant pf raw location) then None
          else Some (mkInvalid raw (errors (validateRestaurant pf raw location))))
       rawData.
Proof.
  revert index i. induction rawData as [|raw rest IH]; intros index i; [done|].
  cbn [parse_loop omap list_omap].
  destruct (isValid (validateRestaurant pf raw location)).
  - unfold gbind.
    destruct (transformToRestaurant pf now raw index location q i) as [r j].
    specialize (IH (index + 1)%Z j).
    destruct (parse_loop pf now location q (index + 1) rest j) as [parts j'].
    simpl in *. done.
  - unfold gbind. specialize (IH (index + 1)%Z i).
    destruct (parse_loop pf now location q (index + 1) rest i) as [parts j'].
    simpl in *. by rewrite IH.
Qed.

(** Every accepted restaurant of the loop is the transform of a record that
    passed validation. *)
Lemma parse_loop_valid now location q rawData index i r :
  r ∈ (parse_loop pf now location q index rawData i).1.1 →
  ∃ raw idx j,
    raw ∈ rawData ∧ isValid (validateRestaurant pf raw location) = true ∧
    (transformToRestaurant pf now raw idx location q j).1 = Some r.
Proof.
  revert index i. induction rawData as [|raw rest IH]; intros index i.
  - by intros ?%elem_of_nil.
  - cbn [parse_loop].
    destruct (isValid (validateRestaurant pf raw location)) eqn:Hv.
    + unfold gbind.
      destruct (transformToRestaurant pf now raw index location q i)
        as [r0 j] eqn:Ht.
      specialize (IH (index + 1)%Z j).
      destruct (parse_loop pf now location q (index + 1) rest j) as [parts j'].
      simpl in *. intros Hr.
      assert (r0 = Some r ∨ r ∈ parts.1) as [->|Hin].
      { destruct r0; [|by right].
        apply elem_of_cons in Hr as [->|?]; [by left|by right]. }
      * exists raw, index, i. split_and!; [left|done|by rewrite Ht].
      * destruct (IH Hin) as (raw' & idx & j0 & Hraw & ? & ?).
        exists raw', idx, j0. split_and!; [by right|done|done].
    + unfold gbind. specialize (IH (index + 1)%Z i).
      destruct (parse_loop pf now location q (index + 1) rest i) as [parts j'].
      simpl in *. intros Hin.
      destruct (IH Hin) as (raw' & idx & j0 & Hraw & ? & ?).
      exists raw', idx, j0. split_and!; [by right|done|done].
Qed.

Lemma insert_by_Permutation {A} (cmp : A → A → comparison) x l :
  Js.insert_by cmp x l ≡ₚ x :: l.
Proof.
  induction l as [|y l IH]; simpl; [done|].
  destruct (cmp x y); [done|done|]. rewrite IH. apply perm_swap.
Qed.

Lemma sort_by_Permutation {A} (cmp : A → A → comparison) l :
  Js.sort_by cmp l ≡ₚ l.
Proof.
  induction l as [|x l IH]; simpl; [done|].
  unfold Js.sort_by in *. simpl. by rewrite insert_by_Permutation, IH.
Qed.

End WithPlatform.

(** What a record that passes validation satisfies, check by check. *)
Lemma valid_checks (pf : Platform) data location :
  isValid (validateRestaurant pf data location) = true →
  check_required data = [] ∧ check_cuisine data = [] ∧
  check_priceLevel data = [] ∧ check_rating data = [] ∧
  check_reviewCount data = [].
Proof.
  unfold validateRestaurant. cbn [isValid]. intros Hlen%Nat.eqb_eq.
  apply nil_length_inv in Hlen. unfold validation_errors in Hlen.
  repeat (apply app_nil in Hlen as [? Hlen]). done.
Qed.

Lemma required_present data field :
  check_required data = [] → field ∈ REQUIRED_FIELDS →
  String.length (Js.trim (required_field data field)) ≠ 0%nat.
Proof.
  unfold check_required. intros Hnil Hf Hlen.
  assert (("Missing required field: " +:+ field) ∈ ([] : list string)) as Hin;
    [|by apply elem_of_nil in Hin].
  rewrite <- Hnil. apply list_elem_of_omap. exists field. split; [done|].
  cbv zeta. rewrite Hlen. by rewrite orb_true_r.
Qed.

(** A record that passes validation names a cuisine that [normalizeCuisine]
    finds, as an own property or as an inherited one. *)
Lemma valid_cuisine_known (pf : Platform) data location :
  isValid (validateRestaurant pf data location) = true →
  normalizeCuisine (cuisine data) ≠ Undefined.
Proof.
  intros (Hreq & Hcui & _)%valid_checks.
  pose proof (required_present data "cuisine" Hreq
                ltac:(apply (bool_decide_unpack _); by vm_compute)) as Hlen.
  change (required_field data "cuisine") with (cuisine data) in Hlen.
  unfold check_cuisine in Hcui.
  destruct (Js.truthy_str (cuisine data)) eqn:Ht.
  - by destruct (normalizeCuisine (cuisine data)).
  - destruct (cuisine data); [by simpl in Hlen|by simpl in Ht].
Qed.

(** *** Synthesis *)

Section Synthesis.
Context (pf : Platform).

Hypothesis Hrand : rand_ok pf.

Lemma random_below_range (n : Z) i :
  (0 < n)%Z →
  (0 ≤ (random_below pf n i).1 < n)%Z.
Proof.
  intros Hn. unfold random_below, gbind, random, gret. cbn [fst].
  destruct (Hrand i) as [H0 H1].
  assert (0 < inject_Z n)%Q as Hn'.
  { change 0%Q with (inject_Z 0). by rewrite <- Zlt_Qlt. }
  split.
  - change 0%Z with (Qfloor 0). apply Qfloor_resp_le. nra.
  - rewrite Zlt_Qlt. eapply Qle_lt_trans; [apply Qfloor_le|]. nra.
Qed.

Lemma index_in_range {A} (l : list A) (i : Z) (P : A → Prop) d :
  (0 ≤ i < Z.of_nat (length l))%Z → Forall P l →
  P (default d (Js.index l i)).
Proof.
  intros Hi HF. unfold Js.index.
  destruct (i <? 0)%Z eqn:Hneg; [lia|].
  destruct (lookup_lt_is_Some_2 l (Z.to_nat i)) as [x Hx]; [lia|].
  rewrite Hx. simpl. eapply Forall_lookup_1; eauto.
Qed.

Lemma assoc_Forall {A} (P : A → Prop) k (table : list (string * A)) v :
  Forall (λ kv, P kv.2) table → assoc k table = Some v → P v.
Proof.
  induction 1 as [|[k' v'] table HP _ IH]; simpl; [done|].
  destruct (String.eqb k k'); [|done]. by intros [= <-].
Qed.

Ltac Forall_by tac := repeat (apply Forall_cons_2; [tac|]); apply Forall_nil_2.

Lemma description_templates_ok c :
  (length (default default_descriptions (assoc c description_templates)) = 2)%nat ∧
  Forall (λ s, s ≠ "") (default default_descriptions (assoc c description_templates)).
Proof.
  destruct (assoc c description_templates) as [l|] eqn:Hl; simpl.
  - eapply (assoc_Forall (λ l, length l = 2%nat ∧ Forall (λ s, s ≠ "") l));
      [|exact Hl].
    Forall_by ltac:(simpl; split; [done|Forall_by ltac:(done)]).
  - split; [done|Forall_by ltac:(done)].
Qed.

Lemma generateDescription_nonempty c n i :
  (generateDescription pf c n i).1 ≠ "".
Proof.
  unfold generateDescription, gbind, gret.
  destruct (description_templates_ok c) as [Hlen HF].
  pose proof (random_below_range
    (Z.of_nat (length (default default_descriptions (assoc c description_templates)))) i)
    as Hr.
  destruct (random_below pf _ i) as [k j]. simpl in *.
  apply index_in_range; [|done]. apply Hr. lia.
Qed.

Lemma generateFallbackHours_nonempty i :
  (generateFallbackHours pf i).1 ≠ "".
Proof.
  unfold generateFallbackHours, gbind, gret.
  pose proof (random_below_range (Z.of_nat (length fallback_hours)) i) as Hr.
  destruct (random_below pf _ i) as [k j]. simpl in *.
  apply index_in_range; [apply Hr; lia|]. Forall_by ltac:(done).
Qed.

Lemma generateFallbackRating_range i :
  (3 <= (generateFallbackRating pf i).1)%Q ∧ ((generateFallbackRating pf i).1 <= 5)%Q.
Proof.
  unfold generateFallbackRating, gbind, gret, random. cbn [fst].
  destruct (Hrand i) as [H0 H1].
  destruct (double_unit _ H0 H1) as [Hd0 Hd1].
  set (d := Js.double (rand pf i)) in *. clearbody d.
  unfold Js.fmul, Js.fadd, Js.fdiv.
  assert (0 <= Js.double (d * 2))%Q as Ha0 by (apply double_nonneg; lra).
  assert (Js.double (d * 2) <= 2)%Q as Ha1
    by (apply double_le; [lra|lra|by vm_compute]).
  set (a := Js.double (d * 2)) in *. clearbody a.
  assert (3 <= Js.double (a + 3))%Q as Hb0
    by (apply double_ge; [lra|lra|by vm_compute]).
  assert (Js.double (a + 3) <= 5)%Q as Hb1
    by (apply double_le; [lra|lra|by vm_compute]).
  set (b := Js.double (a + 3)) in *. clearbody b.
  assert (30 <= Js.double (b * 10))%Q as Hc0
    by (apply double_ge; [lra|lra|by vm_compute]).
  assert (Js.double (b * 10) <= 50)%Q as Hc1
    by (apply double_le; [lra|lra|by vm_compute]).
  set (c := Js.double (b * 10)) in *. clearbody c.
  unfold Js.round. set (x := (c + (1 # 2))%Q).
  assert (30 ≤ Qfloor x)%Z as Hlo.
  { change 30%Z with (Qfloor 30). apply Qfloor_resp_le. unfold x. lra. }
  assert (Qfloor x ≤ 50)%Z as Hhi.
  { apply Z.lt_succ_r. rewrite Zlt_Qlt.
    eapply Qle_lt_trans; [apply Qfloor_le|].
    change (inject_Z (Z.succ 50)) with (51 # 1)%Q. unfold x. lra. }
  rewrite Zle_Qle in Hlo, Hhi.
  change (inject_Z 30) with 30%Q in Hlo. change (inject_Z 50) with 50%Q in Hhi.
  set (y := inject_Z (Qfloor x)) in *. clearbody y. split.
  - apply double_ge; [lra| |by vm_compute]. apply Qle_shift_div_l; lra.
  - apply double_le; [|apply Qle_shift_div_r; lra|by vm_compute].
    apply Qle_shift_div_l; lra.
Qed.

Lemma generateFallbackReviewCount_range i :
  (50 <= (generateFallbackReviewCount pf i).1)%Q.
Proof.
  unfold generateFallbackReviewCount, gbind, gret.
  pose proof (random_below_range 1000 i) as Hr.
  destruct (random_below pf 1000 i) as [k j]. simpl in *.
  change 50%Q with (inject_Z 50). rewrite <- Zle_Qle. lia.
Qed.

Lemma generateSpecialties_nonempty c : generateSpecialties c ≠ [].
Proof.
  unfold generateSpecialties.
  destruct (assoc c specialties_table) as [l|] eqn:Hl; simpl; [|done].
  eapply (assoc_Forall (λ l, Js.slice0 3 l ≠ [])); [|exact Hl].
  Forall_by ltac:(done).
Qed.

Lemma generateDietaryOptions_nonempty c i :
  (generateDietaryOptions pf c i).1 ≠ [].
Proof.
  unfold generateDietaryOptions, gbind, gret.
  pose proof (random_below_range 2 i) as Hr.
  destruct (random_below pf 2 i) as [k j]. simpl in *.
  unfold Js.slice0. destruct (k + 1 <? 0)%Z eqn:Hneg; [lia|].
  destruct (Z.to_nat (k + 1)) eqn:Hk; [lia|done].
Qed.

Lemma inferPriceLevel_range n c :
  (1 <= inferPriceLevel n c)%Q ∧ (inferPriceLevel n c <= 5)%Q.
Proof.
  unfold inferPriceLevel, price_by_name. cbv zeta.
  repeat (match goal with |- context [if ?b then _ else _] => destruct b end;
          [split; by vm_compute|]).
  destruct (assoc c cuisinePriceLevels) as [p|] eqn:Hp; simpl;
    [|split; by vm_compute].
  eapply (assoc_Forall (λ p, (1 <= Js.or_numQ (Some p) 3)%Q
                             ∧ (Js.or_numQ (Some p) 3 <= 5)%Q)); [|exact Hp].
  Forall_by ltac:(split; by vm_compute).
Qed.

End Synthesis.

(** C2 (as it holds on the code). For a record that passes the parser's
    validation with only the required fields, [transformToRestaurant]
    returns a restaurant unless the cuisine names a property inherited from
    [Object.prototype], when it returns null; and the restaurant it returns
    has a non-empty description, a price level in [1, 5], a rating in
    [3, 5], a review count of at least 50, non-empty hours, specialties,
    dietary options, ambiance and best-for, and the distance [Unknown];
    phone, website and estimated wait time are passed through and stay
    absent. *)
Theorem synthesis_of_missing_fields (pf : Platform) now data index location q i :
  rand_ok pf →
  isValid (validateRestaurant pf data location) = true →
  only_required data →
  (normalizeCuisine (cuisine data) ≠ Inherited →
   is_Some (transformToRestaurant pf now data index location q i).1) ∧
  (normalizeCuisine (cuisine data) = Inherited →
   (transformToRestaurant pf now data index location q i).1 = None) ∧
  ∀ r, (transformToRestaurant pf now data index location q i).1 = Some r →
    Restaurant.description r ≠ "" ∧
    (1 <= Restaurant.priceLevel r)%Q ∧ (Restaurant.priceLevel r <= 5)%Q ∧
    (3 <= Restaurant.rating r)%Q ∧ (Restaurant.rating r <= 5)%Q ∧
    (50 <= Restaurant.reviewCount r)%Q ∧
    (∃ h, Restaurant.hours r = Some h ∧ h ≠ "") ∧
    Restaurant.specialties r ≠ [] ∧
    Restaurant.dietaryOptions r ≠ [] ∧
    Restaurant.ambiance r ≠ "" ∧
    Restaurant.bestFor r ≠ [] ∧
    Restaurant.distance r = "Unknown" ∧
    Restaurant.phone r = None ∧
    Restaurant.website r = None ∧
    Restaurant.estimatedWaitTime r = None.
Proof.
  intros Hrand Hknown%valid_cuisine_known Honly.
  destruct data as [n c de pl ra rc ad ph we ho sp di am be ew co so ds].
  unfold only_required in Honly. cbn in Honly, Hknown.
  destruct Honly as (-> & -> & -> & -> & -> & -> & -> & -> & -> & -> & -> & ->
                     & -> & -> & ->).
  unfold transformToRestaurant.
  cbn [name cuisine description priceLevel rating reviewCount address phone
       website hours specialties dietaryOptions ambiance bestFor
       estimatedWaitTime coordinates sourceInfo distance truthy_opt negb andb].
  assert (∀ c', let t :=
      (let* description' := or_gen Js.truthy_str None (generateDescription pf c' n) in
       let priceLevel' := Js.or_numQ None (inferPriceLevel n c') in
       let* rating' := or_gen Js.truthy_num None (generateFallbackRating pf) in
       let* reviewCount' := or_gen Js.truthy_num None (generateFallbackReviewCount pf) in
       let* hours' := or_gen Js.truthy_str None (generateFallbackHours pf) in
       let specialties' := default (generateSpecialties c') None in
       let* dietaryOptions' := or_gen (λ _, true) None (generateDietaryOptions pf c') in
       gret (description', priceLevel', rating', reviewCount', hours',
             specialties', dietaryOptions')) i in
    t.1.1.1.1.1.1.1 ≠ "" ∧
    (1 <= t.1.1.1.1.1.1.2)%Q ∧ (t.1.1.1.1.1.1.2 <= 5)%Q ∧
    (3 <= t.1.1.1.1.1.2)%Q ∧ (t.1.1.1.1.1.2 <= 5)%Q ∧
    (50 <= t.1.1.1.1.2)%Q ∧ t.1.1.1.2 ≠ "" ∧ t.1.1.2 ≠ [] ∧ t.1.2 ≠ []) as Hgen.
  { intros c'. unfold or_gen, gbind, gret. cbn zeta.
    pose proof (generateDescription_nonempty pf Hrand c' n i) as H1.
    destruct (generateDescription pf c' n i) as [d1 i1].
    pose proof (generateFallbackRating_range pf Hrand i1) as [H2 H2'].
    destruct (generateFallbackRating pf i1) as [d2 i2].
    pose proof (generateFallbackReviewCount_range pf Hrand i2) as H3.
    destruct (generateFallbackReviewCount pf i2) as [d3 i3].
    pose proof (generateFallbackHours_nonempty pf Hrand i3) as H4.
    destruct (generateFallbackHours pf i3) as [d4 i4].
    pose proof (generateDietaryOptions_nonempty pf Hrand c' i4) as H5.
    destruct (generateDietaryOptions pf c' i4) as [d5 i5].
    cbn [fst snd default] in *.
    pose proof (inferPriceLevel_range n c') as [Hp Hp'].
    split_and!; try done. apply generateSpecialties_nonempty. }
  destruct (normalizeCuisine c) as [c'| |] eqn:Hc; [| |done].
  - specialize (Hgen c'). revert Hgen.
    cbn [andb negb]. unfold or_gen, gbind, gret. cbn zeta.
    destruct (generateDescription pf c' n i) as [d1 i1].
    destruct (generateFallbackRating pf i1) as [d2 i2].
    destruct (generateFallbackReviewCount pf i2) as [d3 i3].
    destruct (generateFallbackHours pf i3) as [d4 i4].
    destruct (generateDietaryOptions pf c' i4) as [d5 i5].
    cbn [fst snd default]. intros (H1 & H2 & H3 & H4 & H5 & H6 & H7 & H8 & H9).
    split; [by eexists|]. split; [done|]. intros r [= <-].
    cbn [Restaurant.description Restaurant.priceLevel Restaurant.rating
         Restaurant.reviewCount Restaurant.hours Restaurant.specialties
         Restaurant.dietaryOptions Restaurant.ambiance Restaurant.bestFor
         Restaurant.distance Restaurant.phone Restaurant.website
         Restaurant.estimatedWaitTime].
    split_and!; try done;
      first [by exists d4
            |by destruct (Js.truthy_num (latitude location)
                          && Js.truthy_num (longitude location))].
  - cbn [andb negb]. unfold or_gen, gbind, gret. cbn zeta.
    destruct (generateDescription pf _ n i) as [d1 i1].
    destruct (generateFallbackRating pf i1) as [d2 i2].
    destruct (generateFallbackReviewCount pf i2) as [d3 i3].
    destruct (generateFallbackHours pf i3) as [d4 i4].
    destruct (generateDietaryOptions pf _ i4) as [d5 i5].
    cbn [fst snd]. split; [done|]. split; done.
Qed.

Lemma demo_rand_ok : rand_ok demo_platform.
Proof. intros i. split; by vm_compute. Qed.

Lemma synthesis_of_missing_fields_witness :
  ∃ r, (transformToRestaurant demo_platform 1730000000000 sushi_zen 0 here
          "sushi" 0%nat).1 = Some r ∧
       Restaurant.description r ≠ "" ∧ Restaurant.specialties r ≠ [] ∧
       Restaurant.distance r = "Unknown" ∧ Restaurant.phone r = None.
Proof.
  destruct (synthesis_of_missing_fields demo_platform 1730000000000 sushi_zen 0
              here "sushi" 0%nat demo_rand_ok) as (Hsome & _ & Hfields).
  { by vm_compute. }
  { by vm_compute. }
  destruct Hsome as [r Hr]; [by vm_compute|].
  exists r. split; [exact Hr|].
  destruct (Hfields r Hr) as (? & _ & _ & _ & _ & _ & _ & ? & _ & _ & _ & ? & ? & _).
  done.
Defined.

(** C2 as stated fails: a record that passes validation with only the
    required fields yields a restaurant without phone, website and
    estimated wait time. *)
Lemma synthesis_counterexample :
  let res := (transformToRestaurant demo_platform 1730000000000 sushi_zen 0 here
                "sushi" 0%nat).1 in
  isValid (validateRestaurant demo_platform sushi_zen here) = true ∧
  only_required sushi_zen ∧
  Restaurant.phone <$> res = Some None ∧
  Restaurant.website <$> res = Some None ∧
  Restaurant.estimatedWaitTime <$> res = Some None.
Proof. by vm_compute. Qed.

(** C3 (as it holds on the code). In the result parser a record whose phone
    number or website is present and fails the format check is rejected:
    validation fails with the error [Invalid phone number format] or
    [Invalid website URL], [parseRestaurants] puts the record with these
    errors into [invalid], and every restaurant in [valid] comes from a
    record that passed validation. *)
Theorem parser_rejects_bad_contact (pf : Platform) now rawData location q i data :
  data ∈ rawData →
  bad_phone data ∨ bad_website pf data →
  let res := (parseRestaurants pf now rawData location q i).1 in
  isValid (validateRestaurant pf data location) = false ∧
  (bad_phone data →
     "Invalid phone number format" ∈ errors (validateRestaurant pf data location)) ∧
  (bad_website pf data →
     "Invalid website URL" ∈ errors (validateRestaurant pf data location)) ∧
  mkInvalid data (errors (validateRestaurant pf data location)) ∈ invalid res ∧
  (∀ r, r ∈ valid res →
     ∃ raw idx j,
       raw ∈ rawData ∧ isValid (validateRestaurant pf raw location) = true ∧
       (transformToRestaurant pf now raw idx location q j).1 = Some r).
Proof.
  intros Hin Hbad res.
  assert (isValid (validateRestaurant pf data location) = false) as Hinv.
  { destruct Hbad as [Hp|Hw].
    - eapply error_invalidates, bad_phone_error, Hp.
    - eapply error_invalidates, bad_website_error, Hw. }
  split_and!; [done|by apply bad_phone_error|by apply bad_website_error|..].
  - unfold res, parseRestaurants, gbind.
    pose proof (parse_loop_invalid pf now location q rawData 0 i) as Hl.
    destruct (parse_loop pf now location q 0 rawData i) as [parts j].
    simpl in *. rewrite Hl. apply list_elem_of_omap.
    exists data. by rewrite Hinv.
  - intros r. unfold res, parseRestaurants, gbind.
    pose proof (parse_loop_valid pf now location q rawData 0 i r) as Hl.
    destruct (parse_loop pf now location q 0 rawData i) as [parts j].
    simpl in *. rewrite sort_by_Permutation. apply Hl.
Qed.

Lemma parser_rejects_bad_contact_witness :
  let res :=
    (parseRestaurants demo_platform 1730000000000
       [sushi_zen; with_phone "123" sushi_zen] here "sushi" 0%nat).1 in
  invalid res = [mkInvalid (with_phone "123" sushi_zen) ["Invalid phone number format"]]
  ∧ mkInvalid (with_phone "123" sushi_zen)
      (errors (validateRestaurant demo_platform (with_phone "123" sushi_zen) here))
    ∈ invalid res.
Proof.
  split; [by vm_compute|].
  apply (parser_rejects_bad_contact demo_platform 1730000000000
           [sushi_zen; with_phone "123" sushi_zen] here "sushi" 0%nat
           (with_phone "123" sushi_zen)).
  - right. left.
  - left. exists "123". by vm_compute.
Defined.

(** C3 as stated fails: a record that is valid but for its phone number,
    which is present and fails the format check, is not accepted; it is
    the only entry of [invalid] and [valid] is empty. *)
Lemma parser_phone_counterexample :
  let data := with_phone "123" sushi_zen in
  let res := (parseRestaurants demo_platform 1730000000000 [data] here "sushi" 0%nat).1 in
  validateRestaurant demo_platform sushi_zen here = mkValidation true [] ∧
  phoneRegex (Js.remove_spaces "123") = false ∧
  validateRestaurant demo_platform data here
    = mkValidation false ["Invalid phone number format"] ∧
  valid res = [] ∧
  invalid res = [mkInvalid data ["Invalid phone number format"]].
Proof. by vm_compute. Qed.

End ParserProofs.

(** ** The quality validator *)

Section ValidatorProofs.
Import RestaurantValidator.

Lemma Qfloor_unique (y : Q) (k : Z) :
  (inject_Z k <= y)%Q → (y < inject_Z (k + 1))%Q → Qfloor y = k.
Proof.
  intros Hlo Hhi.
  assert (k ≤ Qfloor y)%Z.
  { rewrite <- (Qfloor_Z k). by apply Qfloor_resp_le. }
  assert (Qfloor y < k + 1)%Z.
  { rewrite Zlt_Qlt. eapply Qle_lt_trans; [apply Qfloor_le|done]. }
  lia.
Qed.

Lemma Qfloor_add_Z (x : Q) (n : Z) : Qfloor (x + inject_Z n) = (Qfloor x + n)%Z.
Proof.
  apply Qfloor_unique.
  - rewrite inject_Z_plus. pose proof (Qfloor_le x). lra.
  - replace (Qfloor x + n + 1)%Z with ((Qfloor x + 1) + n)%Z by lia.
    rewrite inject_Z_plus. pose proof (Qlt_floor x). lra.
Qed.

Lemma round_add_Z (x : Q) (n : Z) : Js.round (x + inject_Z n) = (Js.round x + n)%Z.
Proof.
  unfold Js.round. rewrite <- Qfloor_add_Z. apply Qfloor_comp. ring.
Qed.

(** C4. With the restaurant and the other list fixed, one more error lowers
    the score before clamping by exactly 20 and one more warning lowers it
    by exactly 5; the same holds after [Math.round], which is the last step
    before the clamp to [0, 100]. *)
Theorem score_drops_per_issue (r : Restaurant.t)
    (issues' warnings' : list ValidationIssue) (e w : ValidationIssue) :
  (score_before_clamping r (e :: issues') warnings'
   == score_before_clamping r issues' warnings' - 20)%Q ∧
  (score_before_clamping r issues' (w :: warnings')
   == score_before_clamping r issues' warnings' - 5)%Q ∧
  Js.round (score_before_clamping r (e :: issues') warnings')
  = (Js.round (score_before_clamping r issues' warnings') - 20)%Z ∧
  Js.round (score_before_clamping r issues' (w :: warnings'))
  = (Js.round (score_before_clamping r issues' warnings') - 5)%Z ∧
  calculateQualityScore r issues' warnings'
  = Z.max 0 (Z.min 100 (Js.round (score_before_clamping r issues' warnings'))).
Proof.
  assert (score_before_clamping r (e :: issues') warnings'
          == score_before_clamping r issues' warnings' + inject_Z (-20))%Q as He.
  { unfold score_before_clamping. cbn [length].
    rewrite Nat2Z.inj_succ, <- Z.add_1_r, inject_Z_plus.
    change (inject_Z (-20)) with (-20 # 1)%Q. change (inject_Z 1) with 1%Q. ring. }
  assert (score_before_clamping r issues' (w :: warnings')
          == score_before_clamping r issues' warnings' + inject_Z (-5))%Q as Hw.
  { unfold score_before_clamping. cbn [length].
    rewrite Nat2Z.inj_succ, <- Z.add_1_r, inject_Z_plus.
    change (inject_Z (-5)) with (-5 # 1)%Q. change (inject_Z 1) with 1%Q. ring. }
  split_and!.
  - rewrite He. change (inject_Z (-20)) with (-20 # 1)%Q. ring.
  - rewrite Hw. change (inject_Z (-5)) with (-5 # 1)%Q. ring.
  - unfold Js.round at 1. rewrite He. fold (Js.round
      (score_before_clamping r issues' warnings' + inject_Z (-20))).
    rewrite round_add_Z. lia.
  - unfold Js.round at 1. rewrite Hw. fold (Js.round
      (score_before_clamping r issues' warnings' + inject_Z (-5))).
    rewrite round_add_Z. lia.
  - done.
Qed.

Section WithPlatform.
Context (pf : Platform).

Lemma all_of_when sev b i : severity i = sev → all_of sev (when b i).
Proof.
  intros Hi. unfold when, all_of. destruct b; [|constructor].
  by repeat constructor.
Qed.

Lemma all_of_app sev l1 l2 : all_of sev l1 → all_of sev l2 → all_of sev (l1 ++ l2).
Proof. unfold all_of. intros. by apply Forall_app. Qed.

Lemma all_of_nil sev : all_of sev [].
Proof. constructor. Qed.

Create HintDb issues.
Local Hint Resolve all_of_when all_of_app all_of_nil : issues.

Lemma validateRequiredFields_errors r : all_of error (validateRequiredFields r).
Proof.
  unfold validateRequiredFields, all_of. apply Forall_forall.
  intros i (f & _ & Hf)%list_elem_of_omap.
  destruct (negb (present_str (required_field r f))); [|done].
  by injection Hf as <-.
Qed.

Lemma dataQuality_issues_errors r : all_of error (dataQuality_issues r).
Proof. unfold dataQuality_issues. auto 10 with issues. Qed.

Lemma dataQuality_warnings_warnings r : all_of warning (dataQuality_warnings pf r).
Proof. unfold dataQuality_warnings. auto 10 with issues. Qed.

Lemma checkSuspiciousPatterns_errors r : all_of error (checkSuspiciousPatterns r).
Proof. unfold checkSuspiciousPatterns. auto 10 with issues. Qed.

Lemma validateBusinessLogic_warnings r : all_of warning (validateBusinessLogic r).
Proof. unfold validateBusinessLogic. auto 10 with issues. Qed.

Lemma validateLocationRelevance_warnings r loc :
  all_of warning (validateLocationRelevance r loc).
Proof.
  unfold validateLocationRelevance. destruct (city loc); auto 10 with issues.
Qed.

Lemma validateQueryRelevance_warnings r q :
  all_of warning (validateQueryRelevance r q).1.
Proof.
  unfold validateQueryRelevance.
  repeat match goal with |- context [if ?b then _ else _] => destruct b end;
    cbn [fst]; try apply all_of_nil.
  by repeat constructor.
Qed.

(** Every entry of [issues] is an error and every entry of [warnings] is a
    warning. *)
Lemma validateRestaurant_severities r loc q :
  all_of error (issues (validateRestaurant pf r loc q)) ∧
  all_of warning (warnings (validateRestaurant pf r loc q)).
Proof.
  unfold validateRestaurant. cbn [issues warnings validateDataQuality fst snd].
  split.
  - auto using validateRequiredFields_errors, dataQuality_issues_errors,
      checkSuspiciousPatterns_errors with issues.
  - apply all_of_app; [apply dataQuality_warnings_warnings|].
    apply all_of_app; [apply validateBusinessLogic_warnings|].
    apply all_of_app.
    + destruct loc; [apply validateLocationRelevance_warnings|apply all_of_nil].
    + destruct q as [q|]; [|apply all_of_nil].
      destruct (Js.truthy_str q); [|apply all_of_nil].
      apply validateQueryRelevance_warnings.
Qed.

Lemma filter_errors_of_warnings l :
  all_of warning l → filter (λ i, severity i = error) l = [].
Proof.
  induction 1 as [|i l Hi _ IH]; [done|].
  rewrite filter_cons_False; [done|]. by rewrite Hi.
Qed.

Lemma filter_errors_of_errors l :
  all_of error l → filter (λ i, severity i = error) l = l.
Proof.
  induction 1 as [|i l Hi _ IH]; [done|].
  rewrite filter_cons_True by done. by rewrite IH.
Qed.

End WithPlatform.

(** C5. The result of [validateRestaurant] has [isValid = true] exactly
    when no error-severity issue was recorded, in [issues] or in
    [warnings]; every entry of [warnings] has severity warning, so
    [isValid] is decided by [issues] alone, whatever the warnings. *)
Theorem isValid_iff_no_errors (pf : Platform) (r : Restaurant.t)
    (searchLocation : option LocationData) (searchQuery : option string) :
  let res := validateRestaurant pf r searchLocation searchQuery in
  (isValid res = true ↔ errors_recorded res = 0%nat) ∧
  (isValid res = true ↔ issues res = []) ∧
  Forall (λ i, severity i = warning) (warnings res) ∧
  Forall (λ i, severity i = error) (issues res).
Proof.
  intros res.
  destruct (validateRestaurant_severities pf r searchLocation searchQuery)
    as [He Hw]. fold res in He, Hw.
  assert (isValid res = true ↔ issues res = []) as Hvalid.
  { unfold res, validateRestaurant. cbn [isValid issues].
    rewrite Nat.eqb_eq. apply length_zero_iff_nil. }
  assert (errors_recorded res = length (issues res)) as Hcount.
  { unfold errors_recorded. rewrite filter_app, length_app.
    by rewrite (filter_errors_of_warnings _ Hw), (filter_errors_of_errors _ He),
      Nat.add_0_r. }
  split_and!; [|done|done|done].
  rewrite Hcount, Hvalid. symmetry. apply length_zero_iff_nil.
Qed.

(** A name that looks like test data is an error and invalidates; the same
    record under an honest name keeps its six warnings and stays valid. *)
Example validateRestaurant_ex :
  let bad := validateRestaurant demo_platform test_restaurant (Some here) (Some "ramen") in
  let ok := validateRestaurant demo_platform honest_restaurant (Some here) (Some "ramen") in
  isValid bad = false ∧ map code (issues bad) = ["SUSPICIOUS_NAME_PATTERN"] ∧
  isValid ok = true ∧ issues ok = [] ∧
  map code (warnings ok)
  = ["INVALID_PHONE_FORMAT"; "INCOMPLETE_ADDRESS"; "SUSPICIOUS_RATING_PATTERN";
     "INCONSISTENT_PRICE_AMBIANCE"; "LOCATION_MISMATCH"; "LOW_QUERY_RELEVANCE"] ∧
  score bad = 58%Z ∧ score ok = 78%Z.
Proof. by vm_compute. Qed.

Lemma score_drops_per_issue_witness :
  let w := mkIssue "phone" warning "Phone number format appears invalid"
                   "INVALID_PHONE_FORMAT" in
  let e := mkIssue "name" error "Restaurant name is too short" "NAME_TOO_SHORT" in
  Js.round (score_before_clamping honest_restaurant [e] [w]) = 83%Z ∧
  Js.round (score_before_clamping honest_restaurant [] [w]) = 103%Z ∧
  Js.round (score_before_clamping honest_restaurant [] []) = 108%Z.
Proof.
  intros w e.
  destruct (score_drops_per_issue honest_restaurant [] [w] e w) as (_ & _ & He & _).
  destruct (score_drops_per_issue honest_restaurant [] [] e w) as (_ & _ & _ & Hw & _).
  assert (Js.round (score_before_clamping honest_restaurant [] []) = 108%Z) as H0
    by (by vm_compute).
  rewrite He, Hw, H0. by split_and!.
Defined.

Lemma isValid_iff_no_errors_witness :
  let ok := validateRestaurant demo_platform honest_restaurant (Some here) (Some "ramen") in
  isValid ok = true ∧ length (warnings ok) = 6%nat.
Proof.
  split; [|by vm_compute].
  apply (isValid_iff_no_errors demo_platform honest_restaurant (Some here) (Some "ramen")).
  by vm_compute.
Defined.

End ValidatorProofs.

(** ** Error classification and retry *)

Section ErrorHandlerProofs.
Import RestaurantSearchErrorHandler.

(** The five results of [classifyError]: the kind fixes the two flags. *)
Lemma classifyError_cases err ctx :
  let e := classifyError err ctx in
  fallbackAvailable e = true ∧ context e = ctx ∧
  ((type e = network ∧ retryable e = true) ∨
   (type e = api_limit ∧ retryable e = false) ∨
   (type e = validation ∧ retryable e = false) ∨
   (type e = timeout ∧ retryable e = true) ∨
   (type e = unknown ∧ retryable e = true)).
Proof.
  unfold classifyError.
  repeat match goal with |- context [if ?b then _ else _] => destruct b end;
    cbn; split_and!; try done; eauto 10.
Qed.

(** C8. The classifier marks an error retryable exactly when its kind is
    network, timeout or unknown, and not retryable exactly when its kind is
    api_limit or validation; [handleSearchError] returns [shouldRetry =
    true] exactly when the classified error is retryable, the attempt count
    is below [maxRetries] and the error-rate limiter, asked after the error
    was counted, is not exceeded for the error key. *)
Theorem retry_decision (err : option Thrown) (ctx : Context)
    (options : ErrorRecoveryOptions) (now_key now_track : Z)
    (errorCount : gmap string ErrorCount) :
  let e := classifyError err ctx in
  let res := handleSearchError err ctx options now_key now_track errorCount in
  (retryable e = true ↔ type e = network ∨ type e = timeout ∨ type e = unknown) ∧
  (retryable e = false ↔ type e = api_limit ∨ type e = validation) ∧
  searchError res.1 = e ∧
  res.2 = trackError (errorKey_of ctx now_key) now_track errorCount ∧
  (shouldRetry res.1 = true ↔
     retryable e = true ∧ (attempt ctx < maxRetries options)%Z ∧
     isErrorRateExceeded (errorKey_of ctx now_key) res.2 = false).
Proof.
  intros e res.
  destruct (classifyError_cases err ctx) as (_ & _ & Hcases). fold e in Hcases.
  split_and!.
  - destruct Hcases as [[-> ->]|[[-> ->]|[[-> ->]|[[-> ->]|[-> ->]]]]];
      naive_solver.
  - destruct Hcases as [[-> ->]|[[-> ->]|[[-> ->]|[[-> ->]|[-> ->]]]]];
      naive_solver.
  - done.
  - done.
  - unfold res, handleSearchError. cbn [fst snd shouldRetry]. fold e.
    rewrite !andb_true_iff, negb_true_iff, Z.ltb_lt. tauto.
Qed.

Example handleSearchError_ex :
  let run msg n :=
    (handleSearchError (thrown msg) (tokyo_ctx n) default_options
       1730000000123 1730000000123 ∅).1 in
  let summary h := (type (searchError h), shouldRetry h, fallbackStrategy h) in
  summary (run "fetch failed" 0%Z) = (network, true, simplified_search) ∧
  summary (run "fetch failed" 2%Z) = (network, false, mock) ∧
  summary (run "Rate limit exceeded" 0%Z) = (api_limit, false, cache) ∧
  summary (run "boom" 0%Z) = (unknown, true, mock) ∧
  errorKey_of (tokyo_ctx 0) 1730000000123 = "Tokyo-000123".
Proof. by vm_compute. Qed.

Lemma retry_decision_witness :
  shouldRetry
    (handleSearchError (thrown "boom") (tokyo_ctx 0) default_options
       1730000000123 1730000000123 ∅).1 = true ∧
  shouldRetry
    (handleSearchError (thrown "quota used up") (tokyo_ctx 0) default_options
       1730000000123 1730000000123 ∅).1 = false.
Proof.
  split.
  - apply (retry_decision (thrown "boom") (tokyo_ctx 0) default_options
             1730000000123 1730000000123 ∅). by vm_compute.
  - apply not_true_is_false. intros Hretry.
    apply (retry_decision (thrown "quota used up") (tokyo_ctx 0) default_options
             1730000000123 1730000000123 ∅) in Hretry as [Hr _].
    by vm_compute in Hr.
Defined.

Lemma fallbackStrategy_not_none err ctx options now_key now_track errorCount :
  enableFallback options = true →
  fallbackStrategy
    (handleSearchError err ctx options now_key now_track errorCount).1 ≠ none.
Proof.
  intros Hen. unfold handleSearchError. cbn [fst fallbackStrategy].
  destruct (classifyError_cases err ctx) as (-> & _ & _). rewrite Hen.
  cbn [andb]. unfold selectFallbackStrategy.
  destruct (type (classifyError err ctx)); try done.
  by destruct (attempt ctx =? 0)%Z.
Qed.

End ErrorHandlerProofs.

(** ** The search route *)

Section RouteProofs.
Import Route.

Context (pf : Platform).

Lemma search_or_fallback_cases clock body loc outcome errorCount' i :
  match (search_or_fallback pf clock body loc outcome errorCount' i).1.1 with
  | Records _ _ used =>
      used = match outcome with Returned _ _ => false | Threw _ => true end
  | GiveUp _ => False
  end.
Proof.
  unfold search_or_fallback. destruct outcome as [rs md|err]; [done|].
  rewrite bool_decide_true by (by apply fallbackStrategy_not_none).
  unfold gbind, gret.
  by destruct (RestaurantSearchErrorHandler.generateFallbackRestaurants _ _ _ _ _ i).
Qed.

(** What the route does, case by case. *)
Lemma POST_cases clock req outcome srv i :
  let res := (POST pf clock req outcome srv i).1 in
  status res.1 ≠ 503%Z ∧
  (usedFallback_of res.1 = Some true →
     ∃ body loc,
       req = Some body ∧ location body = Some loc ∧
       (SearchCache.get (cacheKey_of body loc) (t_get clock) (searchCache srv)).1
       = None ∧
       searchCache res.2
       = (SearchCache.get (cacheKey_of body loc) (t_get clock) (searchCache srv)).2) ∧
  (reaches_provider clock req srv →
     ∃ body, res.1 = Found body ∧
       usedFallback (searchMetadata body)
       = match outcome with Returned _ _ => false | Threw _ => true end).
Proof.
  unfold POST. destruct req as [body|]; cbn zeta.
  2:{ unfold gret. cbn. split_and!; [done|done|].
      by intros (? & ? & ? & _). }
  destruct (location body) as [loc|] eqn:Hloc.
  2:{ unfold gret. cbn. split_and!; [done|done|].
      intros (b & l & [= <-] & Hl & _). congruence. }
  destruct (negb (Js.truthy_num (latitude loc))
            && negb (Js.truthy_num (longitude loc))) eqn:Hzero.
  { unfold gret. cbn. split_and!; [done|done|].
    intros (b & l & [= <-] & Hl & Hz & _). congruence. }
  destruct (SearchCache.get (cacheKey_of body loc) (t_get clock) (searchCache srv)).1
    as [hit|] eqn:Hget.
  { unfold gret. cbn. split_and!; [done|done|].
    intros (b & l & [= <-] & Hl & _ & Hmiss). congruence. }
  unfold gbind.
  pose proof (search_or_fallback_cases clock body loc outcome (errorCount srv) i)
    as Hs.
  destruct (search_or_fallback pf clock body loc outcome (errorCount srv) i)
    as [[searched ec] j].
  cbn [fst snd] in *. destruct searched as [rs md used|resp]; [|done].
  destruct (SearchResultParser.parseRestaurants pf (t_parse clock) rs loc
              (Js.or_str (query body) "") j) as [parsed k].
  unfold gret. cbn [fst snd status usedFallback_of searchMetadata usedFallback
                    searchCache].
  split_and!; [done| |].
  - intros [= ->]. exists body, loc. by split_and!.
  - intros _. eexists. split; [done|]. by cbn.
Qed.

(** A [get] that misses leaves the stored entries as they were, less the
    entry under its key if that had expired. *)
Lemma get_miss_store {T} k now (c : SearchCache.t T) :
  (SearchCache.get k now c).1 = None →
  SearchCache.cache (SearchCache.get k now c).2 = delete k (SearchCache.cache c).
Proof.
  unfold SearchCache.get. cbn [SearchCache.cache SearchCache.with_stats].
  destruct (SearchCache.cache c !! k) as [e|] eqn:He; cbn.
  - by destruct (now >? SearchCache.expiresAt e)%Z.
  - intros _. by rewrite delete_id.
Qed.

End RouteProofs.

(** C9. A response of the route that carries [usedFallback = true] comes
    with no cache write: the initial [get] missed, the cache instance after
    the request is the one that [get] left behind, and its stored entries
    are those from before the request, less the entry under the key of the
    request if that had expired; and every request that reaches the provider
    and finds it failing is answered with [usedFallback = true]. *)
Theorem fallback_never_cached (pf : Platform) (clock : Route.Clock)
    (req : option Route.RequestBody) (outcome : Route.Outcome)
    (srv : Route.Server) (i : nat) :
  let res := (Route.POST pf clock req outcome srv i).1 in
  (usedFallback_of res.1 = Some true →
     ∃ body loc,
       req = Some body ∧ Route.location body = Some loc ∧
       Route.searchCache res.2
       = (SearchCache.get (Route.cacheKey_of body loc) (Route.t_get clock)
            (Route.searchCache srv)).2 ∧
       SearchCache.cache (Route.searchCache res.2)
       = delete (Route.cacheKey_of body loc)
                (SearchCache.cache (Route.searchCache srv))) ∧
  (reaches_provider clock req srv →
     ∀ err, outcome = Route.Threw err → usedFallback_of res.1 = Some true).
Proof.
  intros res.
  destruct (POST_cases pf clock req outcome srv i) as (_ & Hframe & Hflag).
  fold res in Hframe, Hflag. split.
  - intros Hused.
    destruct (Hframe Hused) as (body & loc & Hreq & Hloc & Hmiss & Hcache).
    exists body, loc. split_and!; [done|done|done|].
    rewrite Hcache. by apply get_miss_store.
  - intros Hreach err ->. destruct (Hflag Hreach) as (body & -> & Hused).
    cbn. by rewrite Hused.
Qed.

(** C10. [classifyError] sets [fallbackAvailable] for every input; hence
    [handleSearchError] called with [enableFallback = true] never returns
    the strategy [none], and the route, which passes [enableFallback =
    true], never answers 503. *)
Theorem fallback_always_available (pf : Platform)
    (err : option RestaurantSearchErrorHandler.Thrown)
    (ctx : RestaurantSearchErrorHandler.Context)
    (options : RestaurantSearchErrorHandler.ErrorRecoveryOptions)
    (now_key now_track : Z)
    (errorCount : gmap string RestaurantSearchErrorHandler.ErrorCount)
    (clock : Route.Clock) (req : option Route.RequestBody)
    (outcome : Route.Outcome) (srv : Route.Server) (i : nat) :
  RestaurantSearchErrorHandler.fallbackAvailable
    (RestaurantSearchErrorHandler.classifyError err ctx) = true ∧
  (RestaurantSearchErrorHandler.enableFallback options = true →
   RestaurantSearchErrorHandler.fallbackStrategy
     (RestaurantSearchErrorHandler.handleSearchError err ctx options
        now_key now_track errorCount).1
   ≠ RestaurantSearchErrorHandler.none) ∧
  Route.status (Route.POST pf clock req outcome srv i).1.1 ≠ 503%Z.
Proof.
  split_and!.
  - apply classifyError_cases.
  - apply fallbackStrategy_not_none.
  - apply POST_cases.
Qed.

Section RouteExamples.
Import Route.

(** A rate-limited provider: six fallback restaurants, flagged, nothing
    stored.  A provider that answers: the result is stored under the key of
    the request, and the same request is then served from the cache. *)
Example POST_ex :
  let failed := (POST demo_platform demo_clock (Some sushi_request) rate_limited
                   initial 0%nat).1 in
  let served := (POST demo_platform demo_clock (Some sushi_request) one_hit
                   initial 0%nat).1 in
  let again := (POST demo_platform demo_clock (Some sushi_request) rate_limited
                  served.2 0%nat).1 in
  status failed.1 = 200%Z ∧ usedFallback_of failed.1 = Some true ∧
  (match failed.1 with Found b => length (restaurants b) | _ => 0 end = 6)%nat ∧
  SearchCache.accessOrder (searchCache failed.2) = [] ∧
  usedFallback_of served.1 = Some false ∧
  SearchCache.accessOrder (searchCache served.2) = ["sushi|35.676,139|tokyo|||-|10"] ∧
  match again.1 with CacheHit _ _ => True | _ => False end.
Proof. by vm_compute. Qed.

Lemma fallback_never_cached_witness :
  let res := (POST demo_platform demo_clock (Some sushi_request) rate_limited
                initial 0%nat).1 in
  usedFallback_of res.1 = Some true ∧
  SearchCache.cache (searchCache res.2) = ∅.
Proof.
  destruct (fallback_never_cached demo_platform demo_clock (Some sushi_request)
              rate_limited initial 0%nat) as [Hframe Hflag].
  assert (reaches_provider demo_clock (Some sushi_request) initial) as Hreach.
  { exists sushi_request, here. by vm_compute. }
  pose proof (Hflag Hreach _ eq_refl) as Hused.
  split; [exact Hused|].
  destruct (Hframe Hused) as (body & loc & [= <-] & [= <-] & _ & ->).
  by vm_compute.
Defined.

Lemma fallback_always_available_witness :
  RestaurantSearchErrorHandler.fallbackStrategy
    (RestaurantSearchErrorHandler.handleSearchError (thrown "boom") (tokyo_ctx 0)
       RestaurantSearchErrorHandler.default_options 1730000000123 1730000000123 ∅).1
  ≠ RestaurantSearchErrorHandler.none.
Proof.
  apply (fallback_always_available demo_platform (thrown "boom") (tokyo_ctx 0)
           RestaurantSearchErrorHandler.default_options 1730000000123
           1730000000123 ∅ demo_clock (Some sushi_request) rate_limited initial 0%nat).
  reflexivity.
Defined.

End RouteExamples.

(** * Further properties of the cache *)

Section CacheAccounting.
Context {T : Type}.
Import SearchCache.

Implicit Types (c : t T) (o : list string) (k : string).

Lemma version_step (x : op T) c : version (step x c) = version c.
Proof.
  destruct x as [k now|k d loc q n now|k now|k| |a now]; simpl; try done.
  - unfold get. simpl. destruct (cache c !! k) as [e|]; [|done].
    by destruct (now >? expiresAt e)%Z.
  - unfold set. match goal with |- context [if ?b then _ else _] => destruct b end;
      [|done]. simpl. unfold evictLRU. by destruct (accessOrder c).
  - unfold has. destruct (cache c !! k) as [e|]; [|done].
    by destruct (now >? expiresAt e)%Z.
  - unfold delete_. by destruct (cache c !! k).
Qed.

Lemma stats_ok_step (x : op T) c : stats_ok (stats c) → stats_ok (stats (step x c)).
Proof.
  unfold stats_ok. intros (H1 & H2 & H3 & H4).
  destruct x as [k now|k d loc q n now|k now|k| |a now]; simpl; try done.
  - unfold get. simpl. destruct (cache c !! k) as [e|]; simpl; [|lia].
    destruct (now >? expiresAt e)%Z; simpl; lia.
  - unfold set. match goal with |- context [if ?b then _ else _] => destruct b end;
      [|done]. simpl. unfold evictLRU. destruct (accessOrder c); simpl; lia.
  - unfold has. destruct (cache c !! k) as [e|]; [|done].
    by destruct (now >? expiresAt e)%Z.
  - unfold delete_. by destruct (cache c !! k).
Qed.

Lemma entries_ok_subseteq c c' :
  cache c' ⊆ cache c → ttl c' = ttl c → version c' = version c →
  entries_ok c → entries_ok c'.
Proof.
  intros Hsub Httl Hv H k e He. unfold entry_ok. rewrite Httl, Hv.
  apply (H k e). by eapply lookup_weaken.
Qed.

Lemma entries_ok_evictLRU c : entries_ok c → entries_ok (evictLRU c).
Proof.
  apply entries_ok_subseteq; unfold evictLRU;
    destruct (accessOrder c) as [|x o]; try done.
  simpl. apply delete_subseteq.
Qed.

Lemma entries_ok_step (x : op T) c : entries_ok c → entries_ok (step x c).
Proof.
  intros H.
  destruct x as [k now|k d loc q n now|k now|k| |a now]; simpl.
  - unfold get. simpl. destruct (cache c !! k) as [e|] eqn:He; [|done].
    destruct (now >? expiresAt e)%Z; simpl.
    + revert H. apply entries_ok_subseteq; [apply delete_subseteq|done..].
    + intros k' e'. simpl. rewrite lookup_insert_Some.
      intros [[<- <-]|[_ He']]; [|by apply (H k' e')].
      destruct (H k e He) as (? & ? & ? & ?). unfold entry_ok. simpl.
      split_and!; [done..|lia].
  - unfold set.
    match goal with |- context [if ?b then _ else _] => set (full := b) end.
    assert (entries_ok (if full then evictLRU c else c)) as H'.
    { destruct full; [by apply entries_ok_evictLRU|done]. }
    assert (ttl (if full then evictLRU c else c) = ttl c
            ∧ version (if full then evictLRU c else c) = version c) as [Httl Hv].
    { destruct full; [|done]. unfold evictLRU. by destruct (accessOrder c). }
    intros k' e'. simpl. rewrite lookup_insert_Some.
    intros [[<- <-]|[_ He']]; [|by apply (H' k' e')].
    unfold entry_ok. simpl. split_and!; [done..|lia].
  - unfold has. destruct (cache c !! k) as [e|]; [|done].
    destruct (now >? expiresAt e)%Z; [|done].
    revert H. apply entries_ok_subseteq; [apply delete_subseteq|done..].
  - unfold delete_. destruct (cache c !! k); [|done].
    revert H. apply entries_ok_subseteq; [apply delete_subseteq|done..].
  - intros k e. simpl. by rewrite lookup_empty.
  - revert H. apply entries_ok_subseteq; [apply map_filter_subseteq|done..].
Qed.

(** What holds of every cache a program can build: the access order is
    consistent with the map, the entries are well formed and the counters
    add up. *)
Lemma reachable_inv (options : CacheOptions) (ops : list (op T)) :
  let c := run ops (new options) in
  wf c ∧ entries_ok c ∧ stats_ok (stats c) ∧
  ttl c = ttl (new (T := T) options) ∧ version c = version (new (T := T) options).
Proof.
  induction ops as [|x ops IH] using rev_ind.
  - split_and!; [apply wf_new| |by unfold stats_ok; simpl; lia|done..].
    intros k e. simpl. by rewrite lookup_empty.
  - cbv zeta in *. unfold run in *. rewrite foldl_app. simpl.
    destruct IH as (? & ? & ? & ? & ?). split_and!.
    + by apply wf_step.
    + by apply entries_ok_step.
    + by apply stats_ok_step.
    + by rewrite ttl_step.
    + by rewrite version_step.
Qed.

(** [has] and [get] agree on what is stored and fresh.  A positive [has]
    changes nothing at all: no counter, no access order.  A negative one
    leaves the same store as the failed [get], without counting a miss. *)
Theorem has_agrees_with_get c k now :
  ((has k now c).1 = true ↔ is_Some (get k now c).1) ∧
  ((has k now c).1 = true → (has k now c).2 = c) ∧
  ((has k now c).1 = false →
     cache (has k now c).2 = cache (get k now c).2 ∧
     accessOrder (has k now c).2 = accessOrder (get k now c).2 ∧
     cache (has k now c).2 !! k = None ∧
     stats (has k now c).2 = stats c).
Proof.
  unfold has, get. simpl.
  destruct (cache c !! k) as [e|] eqn:He; simpl.
  - destruct (now >? expiresAt e)%Z; simpl.
    + split_and!; [split; [done|by intros [? ?]]|done|].
      intros _. by rewrite lookup_delete_eq.
    + split_and!; [done|done|done].
  - split_and!; [split; [done|by intros [? ?]]|done|done].
Qed.

(** [delete] answers whether the key was stored.  Afterwards a [get] of
    the key misses whatever the time, the other entries are untouched and no
    counter has moved; deleting an absent key changes nothing. *)
Theorem delete_then_get_misses c k :
  ((delete_ k c).1 = true ↔ is_Some (cache c !! k)) ∧
  ((delete_ k c).1 = false → (delete_ k c).2 = c) ∧
  (∀ now, (get k now (delete_ k c).2).1 = None) ∧
  (∀ k', k' ≠ k → cache (delete_ k c).2 !! k' = cache c !! k') ∧
  stats (delete_ k c).2 = stats c.
Proof.
  unfold delete_. destruct (cache c !! k) as [e|] eqn:He; simpl.
  - split_and!; [done|done| |by intros; apply lookup_delete_ne|done].
    intros now. unfold get. simpl. by rewrite lookup_delete_eq.
  - split_and!; [split; [done|by intros [? ?]]|done| |done|done].
    intros now. unfold get. simpl. by rewrite He.
Qed.

(** Over any sequence of calls on a new cache the counters add up: hits
    plus misses is the number of requests, and none is negative. *)
Theorem stats_add_up (options : CacheOptions) (ops : list (op T)) :
  stats_ok (stats (run ops (new options))).
Proof. apply reachable_inv. Qed.

(** Every entry of a cache built by calls on a new instance is filed under
    its own key, expires exactly one time to live after it was written,
    carries the version of the instance and has an access count of at
    least one. *)
Theorem stored_entries_well_formed (options : CacheOptions) (ops : list (op T)) :
  let c := run ops (new options) in
  ∀ k e, cache c !! k = Some e →
    key e = k ∧
    expiresAt e = (timestamp e + or_num (opt_ttl options) (30 * 60 * 1000))%Z ∧
    md_version (metadata e) = Js.or_str (opt_version options) "1.0" ∧
    (1 ≤ accessCount e)%Z.
Proof.
  intros c k e He.
  destruct (reachable_inv options ops) as (_ & Hok & _ & Httl & Hv).
  destruct (Hok k e He) as (? & Hexp & Hver & ?).
  cbv zeta in Httl, Hv. rewrite Httl in Hexp. rewrite Hv in Hver. done.
Qed.

(** [expireOldEntries] returns the number of entries it removed; exactly
    the entries written at or after the cutoff survive, unchanged; the access
    order stays consistent with the map and the counters do not move. *)
Theorem expireOldEntries_accounts c (a now : Z) :
  let r := expireOldEntries a now c in
  Z.of_nat (size (cache c)) = (r.1 + Z.of_nat (size (cache r.2)))%Z ∧
  (∀ k e, cache r.2 !! k = Some e ↔
          cache c !! k = Some e ∧ (now - a ≤ timestamp e)%Z) ∧
  (wf c → wf r.2 ∧ accessOrder r.2 `sublist_of` accessOrder c) ∧
  stats r.2 = stats c.
Proof.
  unfold expireOldEntries. cbn [fst snd].
  set (P := λ kv : string * CacheEntry T, (timestamp kv.2 < now - a)%Z).
  split_and!.
  - rewrite <- (map_filter_union_complement P (cache c)) at 1.
    rewrite map_size_disj_union by apply map_disjoint_filter_complement.
    simpl. apply Nat2Z.inj_add.
  - intros k e. simpl. rewrite map_lookup_filter_Some. unfold P. simpl.
    split; intros [? ?]; (split; [done|lia]).
  - intros Hwf. split; [by apply wf_expire|]. simpl.
    by apply remove_all_spec, Hwf.
  - done.
Qed.

(** Every entry carries the version of the instance that wrote it, so
    [invalidateVersion] is all or nothing on a cache built by calls on a new
    instance: for the instance's own version it empties the cache and
    returns its size; for any other version it removes nothing and returns
    0. *)
Theorem invalidateVersion_all_or_nothing (options : CacheOptions)
    (ops : list (op T)) (v : string) :
  let c := run ops (new options) in
  let r := invalidateVersion v c in
  (v = version c →
     r.1 = Z.of_nat (size (cache c)) ∧ cache r.2 = ∅ ∧ accessOrder r.2 = []) ∧
  (v ≠ version c → r.1 = 0%Z ∧ r.2 = c).
Proof.
  intros c r.
  destruct (reachable_inv options ops) as (Hwf & Hok & _). fold c in Hwf, Hok.
  unfold r, invalidateVersion. cbn [fst snd].
  set (P := λ kv : string * CacheEntry T, md_version (metadata kv.2) = v).
  split.
  - intros ->.
    assert (filter P (cache c) = cache c) as Hall.
    { apply map_filter_id. intros k e He. apply (Hok k e He). }
    assert (filter (λ kv, ¬ P kv) (cache c) = ∅) as Hnone.
    { apply map_eq. intros k. rewrite lookup_empty.
      apply map_lookup_filter_None. right. intros e He Hn. apply Hn.
      apply (Hok k e He). }
    rewrite Hall. split_and!; [done|by simpl|]. simpl.
    destruct Hwf as [Hnd Hdom].
    destruct (remove_all_spec (map_to_list (cache c)).*1 _ Hnd) as (_ & _ & H3).
    destruct (foldr removeFromAccessOrder (accessOrder c)
                (map_to_list (cache c)).*1) as [|x o] eqn:Ho; [done|].
    exfalso. destruct (H3 x) as [[Hx Hnx] _]; [by left|].
    apply Hnx. apply Hdom in Hx as [e He].
    apply list_elem_of_fmap. exists (x, e). split; [done|].
    by apply elem_of_map_to_list.
  - intros Hv.
    assert (filter P (cache c) = ∅) as Hnone.
    { apply map_eq. intros k. rewrite lookup_empty.
      apply map_lookup_filter_None. right. intros e He HP. apply Hv.
      rewrite <- HP. apply (Hok k e He). }
    assert (filter (λ kv : string * CacheEntry T,
                      ¬ md_version (metadata kv.2) = v) (cache c) = cache c)
      as Hall.
    { apply map_filter_id. intros k e He HP. apply Hv.
      rewrite <- HP. apply (Hok k e He). }
    rewrite Hnone, Hall, map_size_empty, map_to_list_empty. simpl.
    split; [done|]. by destruct c.
Qed.

(** Writing to a key that is already stored never evicts, also when the
    cache is full: the entry is replaced by a fresh one (access count 1),
    the size and the eviction counter stay, the other entries are untouched
    and the key becomes the most recently used. *)
Theorem set_overwrites_in_place c k (d : T) loc q n now :
  is_Some (cache c !! k) →
  let c' := set k d loc q n now c in
  cache c' !! k =
    Some (mkEntry k d now (now + ttl c) (mkMetadata loc q n (version c)) 1 now) ∧
  (∀ k', k' ≠ k → cache c' !! k' = cache c !! k') ∧
  size (cache c') = size (cache c) ∧
  stats c' = stats c ∧
  last (accessOrder c') = Some k.
Proof.
  intros Hk c'. unfold c'. rewrite set_no_evict.
  2:{ rewrite (bool_decide_eq_true_2 _ Hk). simpl. apply andb_false_r. }
  simpl. split_and!.
  - by rewrite lookup_insert_eq.
  - intros k' Hne. by rewrite lookup_insert_ne.
  - destruct Hk as [e He]. rewrite <- (insert_delete_id (cache c) k e He) at 2.
    rewrite <- insert_delete_eq.
    rewrite !map_size_insert_None by apply lookup_delete_eq. done.
  - done.
  - unfold updateAccessOrder. by rewrite last_snoc.
Qed.

End CacheAccounting.

Section CacheAccountingExamples.
Import SearchCache.

Lemma stored_entries_well_formed_witness :
  ∃ e, cache (run warm_up small_cache) !! "a" = Some e ∧
       key e = "a" ∧ expiresAt e = (timestamp e + 30 * 60 * 1000)%Z.
Proof.
  eexists. split; [by vm_compute|].
  destruct (stored_entries_well_formed (mkOptions None (Some 2%Z) None) warm_up
              "a" _ ltac:(by vm_compute)) as (Hk & Hexp & _).
  split; [exact Hk|exact Hexp].
Defined.

Lemma set_overwrites_in_place_witness :
  size (cache (set "a" "A2" here "ramen" 3 7 (run warm_up small_cache))) = 2%nat ∧
  evictions (stats (set "a" "A2" here "ramen" 3 7 (run warm_up small_cache))) = 0%Z.
Proof.
  destruct (set_overwrites_in_place (run warm_up small_cache) "a" "A2" here
              "ramen" 3 7) as (_ & _ & Hsize & Hstats & _).
  - vm_compute. by eexists.
  - split; [by rewrite Hsize|by rewrite Hstats].
Defined.

Lemma has_agrees_with_get_witness :
  (has "a" 5 (run warm_up small_cache)).1 = true ∧
  (has "a" 5 (run warm_up small_cache)).2 = run warm_up small_cache.
Proof.
  destruct (has_agrees_with_get (run warm_up small_cache) "a" 5) as (_ & H & _).
  split; [reflexivity|]. apply H. reflexivity.
Defined.

Lemma delete_then_get_misses_witness :
  (delete_ "a" (run warm_up small_cache)).1 = true ∧
  (get "a" 9 (delete_ "a" (run warm_up small_cache)).2).1 = None.
Proof.
  destruct (delete_then_get_misses (run warm_up small_cache) "a")
    as (Hret & _ & Hmiss & _).
  split; [|apply Hmiss]. apply Hret. vm_compute. by eexists.
Defined.

Lemma expireOldEntries_accounts_witness :
  (expireOldEntries 1 3 (run warm_up small_cache)).1 = 2%Z ∧
  wf (expireOldEntries 1 3 (run warm_up small_cache)).2.
Proof.
  split; [by vm_compute|].
  destruct (expireOldEntries_accounts (run warm_up small_cache) 1 3)
    as (_ & _ & Hwf & _).
  apply Hwf. apply (reachable_inv (mkOptions None (Some 2%Z) None) warm_up).
Defined.

Lemma invalidateVersion_all_or_nothing_witness :
  (invalidateVersion "1.0" (run warm_up small_cache)).1 = 2%Z ∧
  (invalidateVersion "2.0" (run warm_up small_cache)).2 = run warm_up small_cache.
Proof.
  split.
  - destruct (invalidateVersion_all_or_nothing (mkOptions None (Some 2%Z) None)
                warm_up "1.0") as [Hown _].
    destruct Hown as (Hn & _); [reflexivity|].
    etrans; [exact Hn|by vm_compute].
  - by apply (invalidateVersion_all_or_nothing (mkOptions None (Some 2%Z) None)
                warm_up "2.0").
Defined.

End CacheAccountingExamples.

Section Similarity.
Import SearchCache.

Lemma split_ws_go_nonempty cur gap s : Js.split_ws_go cur gap s ≠ [].
Proof.
  revert cur gap. induction s as [|ch s IH]; intros cur gap; simpl; [done|].
  destruct (Js.is_space ch); [|by apply IH]. destruct gap; [by apply IH|done].
Qed.

Lemma words_nonempty (s : string) :
  (0 < size (list_to_set (C := gset string) (Js.split_ws s)))%nat.
Proof.
  unfold Js.split_ws. pose proof (split_ws_go_nonempty "" false s) as Hne.
  destruct (Js.split_ws_go "" false s) as [|w ws]; [done|].
  assert (size (list_to_set (C := gset string) (w :: ws)) ≠ 0%nat); [|lia].
  apply size_non_empty_iff. intros Hempty.
  assert (w ∈ list_to_set (C := gset string) (w :: ws)) as Hw
    by (apply elem_of_list_to_set; by left).
  rewrite Hempty in Hw. by apply elem_of_empty in Hw.
Qed.

Lemma Qdiv_nat_range (n m : nat) :
  (n ≤ m)%nat → (0 < m)%nat →
  (0 <= inject_Z (Z.of_nat n) / inject_Z (Z.of_nat m) <= 1)%Q.
Proof.
  intros Hnm Hm.
  assert (0 < inject_Z (Z.of_nat m))%Q as Hpos.
  { change 0%Q with (inject_Z 0). rewrite <- Zlt_Qlt. lia. }
  split.
  - apply Qle_shift_div_l; [done|]. rewrite Qmult_0_l.
    change 0%Q with (inject_Z 0). rewrite <- Zle_Qle. lia.
  - apply Qle_shift_div_r; [done|]. rewrite Qmult_1_l.
    rewrite <- Zle_Qle. lia.
Qed.

Lemma Qdiv_nat_one (n m : nat) :
  (0 < m)%nat →
  (inject_Z (Z.of_nat n) / inject_Z (Z.of_nat m) == 1)%Q ↔ n = m.
Proof.
  intros Hm.
  assert (¬ inject_Z (Z.of_nat m) == 0)%Q as Hne.
  { change 0%Q with (inject_Z 0). rewrite inject_Z_injective. lia. }
  split.
  - intros H.
    assert (inject_Z (Z.of_nat n) == inject_Z (Z.of_nat m))%Q as Heq.
    { transitivity (inject_Z (Z.of_nat m)
                    * (inject_Z (Z.of_nat n) / inject_Z (Z.of_nat m)))%Q.
      - symmetry. by apply Qmult_div_r.
      - rewrite H. apply Qmult_1_r. }
    rewrite inject_Z_injective in Heq. lia.
  - intros ->. unfold Qdiv. by apply Qmult_inv_r.
Qed.

(** The similarity of two queries is symmetric and lies between 0 and 1.  It
    is 1 exactly when the strings are equal or, both being non-empty, have the
    same set of words: order, repetition and the amount of white space
    between words do not count. *)
Theorem calculateStringSimilarity_jaccard (a b : string) :
  calculateStringSimilarity a b = calculateStringSimilarity b a ∧
  (0 <= calculateStringSimilarity a b <= 1)%Q ∧
  ((calculateStringSimilarity a b == 1)%Q ↔
   a = b ∨ (a ≠ "" ∧ b ≠ "" ∧
            list_to_set (C := gset string) (Js.split_ws a)
            = list_to_set (Js.split_ws b))).
Proof.
  unfold calculateStringSimilarity.
  set (A := list_to_set (C := gset string) (Js.split_ws a)).
  set (B := list_to_set (C := gset string) (Js.split_ws b)).
  assert (filter (λ x, x ∈ B) A = filter (λ x, x ∈ A) B) as Hi.
  { apply set_eq. intros x. rewrite !elem_of_filter. tauto. }
  assert (filter (λ x, x ∈ B) A ⊆ A ∪ B) as Hsub.
  { intros x. rewrite elem_of_filter, elem_of_union. tauto. }
  assert (0 < size (A ∪ B))%nat as Hpos.
  { pose proof (words_nonempty a) as Ha. fold A in Ha.
    pose proof (subseteq_size A (A ∪ B) ltac:(set_solver)). lia. }
  destruct (String.eqb a b) eqn:Hab.
  - apply String.eqb_eq in Hab as ->. rewrite String.eqb_refl.
    split; [done|]. split; [done|]. split; [by left|done].
  - apply String.eqb_neq in Hab.
    assert (String.eqb b a = false) as -> by (apply String.eqb_neq; congruence).
    rewrite (orb_comm (String.length b =? 0)%nat).
    destruct ((String.length a =? 0)%nat || (String.length b =? 0)%nat) eqn:He.
    + split; [done|]. split; [done|]. split; [done|].
      intros [?|(Ha & Hb & _)]; [done|]. exfalso.
      apply orb_true_iff in He as [He|He]; apply Nat.eqb_eq in He;
        [by destruct a|by destruct b].
    + apply orb_false_iff in He as [Ha Hb].
      apply Nat.eqb_neq in Ha, Hb.
      split; [|split].
      * by rewrite Hi, (comm_L (∪) B A).
      * apply Qdiv_nat_range; [by apply subseteq_size|done].
      * rewrite Qdiv_nat_one by done. split.
        -- intros Hsize. right. split_and!; [by intros ->|by intros ->|].
           apply set_subseteq_size_eq in Hsub; [|lia].
           apply set_eq. intros x.
           assert (x ∈ filter (λ x, x ∈ B) A ↔ x ∈ A ∪ B) as Hx by by rewrite Hsub.
           rewrite elem_of_filter, elem_of_union in Hx. tauto.
        -- intros [?|(_ & _ & HAB)]; [done|]. f_equal. apply set_eq.
           intros x. rewrite elem_of_filter, elem_of_union, HAB. tauto.
Qed.

Lemma calculateStringSimilarity_witness :
  (calculateStringSimilarity "sushi  tokyo sushi" "tokyo sushi" == 1)%Q.
Proof.
  apply (calculateStringSimilarity_jaccard "sushi  tokyo sushi" "tokyo sushi").
  right. split_and!; [done|done|]. by vm_compute.
Defined.

End Similarity.

(** * Further properties of the result parser *)

Section ParserAccounting.
Import SearchResultParser.
Context (pf : Platform).

Lemma gbind_inv {A B} (m : Gen A) (k : A → Gen B) i b :
  (gbind m k i).1 = b → ∃ a j, m i = (a, j) ∧ (k a j).1 = b.
Proof. unfold gbind. destruct (m i) as [a j]. intros H. by exists a, j. Qed.

Lemma or_gen_cases {A} (truthy : A → bool) o (g : Gen A) i (P : A → Prop) :
  (∀ a, o = Some a → truthy a = true → P a) → (∀ j, P (g j).1) →
  P (or_gen truthy o g i).1.
Proof.
  intros Ho Hg. unfold or_gen. destruct o as [a|]; [|apply Hg].
  destruct (truthy a) eqn:Ha; [|apply Hg]. by apply Ho.
Qed.

Lemma transform_is_Some now data index location q i :
  normalizeCuisine (cuisine data) ≠ Undefined →
  is_Some (transformToRestaurant pf now data index location q i).1 ↔
  normalizeCuisine (cuisine data) ≠ Inherited.
Proof.
  intros Hknown. unfold transformToRestaurant.
  destruct (normalizeCuisine (cuisine data)) as [c'| |]; [| |done];
    cbn [andb negb]; unfold gbind;
    repeat match goal with
           | |- context [let '(_, _) := ?m in _] => destruct m
           end; unfold gret; cbn [fst].
  - split; [done|intros _]. by eexists.
  - split; [by intros [? ?]|done].
Qed.

(** The accepted restaurants of the loop, the rejected records and the
    records dropped without a trace add up to the input. *)
Lemma parse_loop_lengths now location q rawData index i :
  let parts := (parse_loop pf now location q index rawData i).1 in
  (length parts.1 + length parts.2
   + length (filter (silently_dropped pf location) rawData) = length rawData)%nat.
Proof.
  revert index i. induction rawData as [|raw rest IH]; intros index i; [done|].
  cbv zeta in *. cbn [parse_loop]. rewrite filter_cons.
  destruct (isValid (validateRestaurant pf raw location)) eqn:Hv.
  - unfold gbind.
    pose proof (transform_is_Some now raw index location q i
                  (valid_cuisine_known pf raw location Hv)) as Hsome.
    destruct (transformToRestaurant pf now raw index location q i) as [r j].
    specialize (IH (index + 1)%Z j).
    destruct (parse_loop pf now location q (index + 1) rest j) as [parts j'].
    cbn [fst snd gret] in *.
    destruct (decide (silently_dropped pf location raw)) as [[_ Hd]|Hnd].
    + destruct r as [r|]; [|simpl in *; lia].
      exfalso. by apply Hsome.
    + destruct r as [r|]; [simpl in *; lia|].
      exfalso. apply Hnd. split; [done|].
      destruct (normalizeCuisine (cuisine raw)); [|done|];
        destruct Hsome as [_ [? ?]]; done.
  - unfold gbind. specialize (IH (index + 1)%Z i).
    destruct (parse_loop pf now location q (index + 1) rest i) as [parts j'].
    cbn [fst snd gret] in *.
    rewrite decide_False by (intros [? _]; congruence).
    simpl in *. lia.
Qed.

(** The counts of the statistics are the lengths of the two lists and of
    the input.  The two lists cover the input except for the records that
    pass validation with a cuisine read from [Object.prototype]
    ([constructor], [__proto__]): these appear in neither list, so valid and
    invalid counts can add up to less than the total. *)
Theorem parseRestaurants_accounting now rawData location q i :
  let res := (parseRestaurants pf now rawData location q i).1 in
  totalProcessed (stats res) = Z.of_nat (length rawData) ∧
  validCount (stats res) = Z.of_nat (length (valid res)) ∧
  invalidCount (stats res) = Z.of_nat (length (invalid res)) ∧
  (validCount (stats res) + invalidCount (stats res)
   + Z.of_nat (length (filter (silently_dropped pf location) rawData))
   = totalProcessed (stats res))%Z ∧
  invalid res =
    omap (λ raw,
            if isValid (validateRestaurant pf raw location) then None
            else Some (mkInvalid raw (errors (validateRestaurant pf raw location))))
         rawData.
Proof.
  unfold parseRestaurants, gbind, gret.
  pose proof (parse_loop_lengths now location q rawData 0 i) as Hlen.
  pose proof (parse_loop_invalid pf now location q rawData 0 i) as Hinv.
  destruct (parse_loop pf now location q 0 rawData i) as [parts j].
  cbn [fst snd valid invalid stats totalProcessed validCount invalidCount] in *.
  split_and!; [done|done|done| |done].
  rewrite (Permutation_length (sort_by_Permutation compareRestaurantQuality parts.1)).
  lia.
Qed.

Lemma trim_nonempty s : String.length (Js.trim s) ≠ 0%nat → Js.trim s ≠ "".
Proof. intros H Hs. by rewrite Hs in H. Qed.

Lemma Qle_bool_false x y : Qle_bool x y = false → (y < x)%Q.
Proof.
  intros H. apply Qnot_le_lt. intros Hle. apply Qle_bool_iff in Hle. congruence.
Qed.

Lemma integer_positive (n : Q) :
  Js.isInteger n = true → (0 <= n)%Q → Js.truthy_num n = true → (1 <= n)%Q.
Proof.
  unfold Js.isInteger, Js.truthy_num. intros Hint%Qeq_bool_iff Hpos Hnz.
  apply negb_true_iff in Hnz.
  assert (¬ n == 0)%Q as Hne.
  { intros H0. apply Qeq_bool_iff in H0. congruence. }
  assert (0 ≤ Qfloor n)%Z as Hf.
  { change 0%Z with (Qfloor 0). by apply Qfloor_resp_le. }
  assert (Qfloor n ≠ 0)%Z as Hfn.
  { intros H0. apply Hne. rewrite Hint, H0. done. }
  rewrite Hint. change 1%Q with (inject_Z 1). rewrite <- Zle_Qle. lia.
Qed.

Lemma normalizeCuisine_Own c v :
  normalizeCuisine c = Own v → v ∈ "Asian Fusion" :: CUISINE_TYPES.
Proof.
  unfold normalizeCuisine.
  destruct (list_find _ CUISINE_TYPES) as [[n type]|] eqn:Hfind.
  - intros [= <-]. apply list_find_Some in Hfind as (Hl & _).
    right. by eapply list_elem_of_lookup_2.
  - destruct (assoc _ cuisineMap) as [w|] eqn:Hw.
    + intros [= <-]. revert Hw.
      apply (assoc_Forall (λ w, w ∈ "Asian Fusion" :: CUISINE_TYPES)).
      repeat (apply Forall_cons_2;
              [apply (bool_decide_unpack _); by vm_compute|]).
      apply Forall_nil_2.
    + by destruct (inherited_key _).
Qed.

Lemma add_if_nonneg b n : (0 ≤ n)%Z → (0 ≤ add_if b n)%Z.
Proof. destruct b; simpl; lia. Qed.

Lemma calculateMatchScore_range data q c :
  (50 <= calculateMatchScore data q c)%Q ∧ (calculateMatchScore data q c <= 100)%Q.
Proof.
  unfold calculateMatchScore. cbv zeta.
  repeat match goal with
         | |- context [add_if ?b ?n] =>
             let H := fresh in
             pose proof (add_if_nonneg b n ltac:(lia)) as H;
             generalize dependent (add_if b n); intros
         end.
  change 50%Q with (inject_Z 50). change 100%Q with (inject_Z 100).
  rewrite <- !Zle_Qle. lia.
Qed.

Lemma slice0_length {A} (n : Z) (l : list A) :
  (0 ≤ n)%Z → (length (Js.slice0 n l) ≤ Z.to_nat n)%nat.
Proof.
  intros Hn. unfold Js.slice0.
  assert ((n <? 0)%Z = false) as -> by lia.
  rewrite length_take. lia.
Qed.

Section Accepted.
Hypothesis Hrand : rand_ok pf.

(** The restaurant made from a record that passes validation. *)
Lemma transform_of_valid now data index location q i r :
  isValid (validateRestaurant pf data location) = true →
  (transformToRestaurant pf now data index location q i).1 = Some r →
  Restaurant.name r ≠ "" ∧ Restaurant.address r ≠ "" ∧
  Restaurant.cuisine r ∈ "Asian Fusion" :: CUISINE_TYPES ∧
  Restaurant.description r ≠ "" ∧
  (1 <= Restaurant.priceLevel r)%Q ∧ (Restaurant.priceLevel r <= 5)%Q ∧
  (1 <= Restaurant.rating r)%Q ∧ (Restaurant.rating r <= 5)%Q ∧
  (1 <= Restaurant.reviewCount r)%Q ∧
  (∃ h, Restaurant.hours r = Some h ∧ h ≠ "") ∧
  (50 <= Restaurant.matchScore r)%Q ∧ (Restaurant.matchScore r <= 100)%Q ∧
  (length (Restaurant.matchReasons r) ≤ 3)%nat.
Proof.
  intros Hvalid Ht.
  destruct (valid_checks pf data location Hvalid) as (Hreq & Hcui & Hpl & Hra & Hrc).
  pose proof (required_present data "name" Hreq ltac:(by vm_compute; left)) as Hname.
  pose proof (required_present data "cuisine" Hreq
                ltac:(by vm_compute; right; left)) as Hcuisine.
  pose proof (required_present data "address" Hreq
                ltac:(by vm_compute; right; right; left)) as Haddr.
  change (required_field data "name") with (name data) in Hname.
  change (required_field data "cuisine") with (cuisine data) in Hcuisine.
  change (required_field data "address") with (address data) in Haddr.
  assert (Js.truthy_str (cuisine data) = true) as Htc.
  { destruct (cuisine data); [done|done]. }
  unfold check_cuisine in Hcui. rewrite Htc in Hcui.
  assert (normalizeCuisine (cuisine data) ≠ Inherited) as Hni.
  { apply (transform_is_Some now data index location q i).
    - by eapply valid_cuisine_known.
    - rewrite Ht. by eexists. }
  unfold transformToRestaurant in Ht.
  destruct (normalizeCuisine (cuisine data)) as [c'| |] eqn:Hc; [|done|done].
  apply normalizeCuisine_Own in Hc.
  cbv zeta in Ht. cbn [andb negb] in Ht.
  apply gbind_inv in Ht as (d1 & j1 & Hd1 & Ht).
  apply gbind_inv in Ht as (d2 & j2 & Hd2 & Ht).
  apply gbind_inv in Ht as (d3 & j3 & Hd3 & Ht).
  apply gbind_inv in Ht as (d4 & j4 & Hd4 & Ht).
  apply gbind_inv in Ht as (d5 & j5 & Hd5 & Ht).
  unfold gret in Ht. cbn [fst] in Ht. injection Ht as <-.
  cbn [Restaurant.name Restaurant.address Restaurant.cuisine
       Restaurant.description Restaurant.priceLevel Restaurant.rating
       Restaurant.reviewCount Restaurant.hours Restaurant.matchScore
       Restaurant.matchReasons].
  assert (d1 ≠ "") as H1.
  { change d1 with (d1, j1).1. rewrite <- Hd1. apply or_gen_cases.
    - intros a _ Ha. by destruct a.
    - intros j. by apply generateDescription_nonempty. }
  assert ((1 <= d2)%Q ∧ (d2 <= 5)%Q) as [H2 H2'].
  { change d2 with (d2, j2).1. rewrite <- Hd2. apply or_gen_cases.
    - intros a Ha _. unfold check_rating in Hra. rewrite Ha in Hra.
      destruct (Js.Qltb a 1 || Js.Qgtb a 5) eqn:Hb; [done|].
      apply orb_false_iff in Hb as [Hlo Hhi].
      apply negb_false_iff, Qle_bool_iff in Hlo.
      apply negb_false_iff, Qle_bool_iff in Hhi. done.
    - intros j. destruct (generateFallbackRating_range pf Hrand j) as [Hlo Hhi].
      split; [|done]. eapply Qle_trans; [|exact Hlo]. by vm_compute. }
  assert (1 <= d3)%Q as H3.
  { change d3 with (d3, j3).1. rewrite <- Hd3. apply or_gen_cases.
    - intros a Ha Hta. unfold check_reviewCount in Hrc. rewrite Ha in Hrc.
      destruct (negb (Js.isInteger a) || Js.Qltb a 0) eqn:Hb; [done|].
      apply orb_false_iff in Hb as [Hint Hlo].
      apply negb_false_iff in Hint.
      apply negb_false_iff, Qle_bool_iff in Hlo.
      by apply integer_positive.
    - intros j. pose proof (generateFallbackReviewCount_range pf Hrand j) as Hlo.
      eapply Qle_trans; [|exact Hlo]. by vm_compute. }
  assert (d4 ≠ "") as H4.
  { change d4 with (d4, j4).1. rewrite <- Hd4. apply or_gen_cases.
    - intros a _ Ha. by destruct a.
    - intros j. by apply generateFallbackHours_nonempty. }
  assert ((1 <= Js.or_numQ (priceLevel data) (inferPriceLevel (name data) c'))%Q
          ∧ (Js.or_numQ (priceLevel data) (inferPriceLevel (name data) c') <= 5)%Q)
    as [Hp Hp'].
  { unfold Js.or_numQ. unfold check_priceLevel in Hpl.
    destruct (priceLevel data) as [p|]; [|apply inferPriceLevel_range].
    destruct (Js.truthy_num p); [|apply inferPriceLevel_range].
    destruct (negb (Js.isInteger p) || Js.Qltb p 1 || Js.Qgtb p 5) eqn:Hb; [done|].
    apply orb_false_iff in Hb as [Hb Hhi].
    apply orb_false_iff in Hb as [_ Hlo].
    apply negb_false_iff, Qle_bool_iff in Hlo.
    apply negb_false_iff, Qle_bool_iff in Hhi. done. }
  destruct (calculateMatchScore_range data q c') as [Hm Hm'].
  split_and!; try done.
  - by apply trim_nonempty.
  - by apply trim_nonempty.
  - by exists d4.
  - unfold generateMatchReasons. cbv zeta.
    etrans; [apply slice0_length; lia|]. simpl. lia.
Qed.

(** Whatever the provider sent, every restaurant the parser accepts has a
    non-empty name, address, description and opening hours, one of the 31
    cuisine types or [Asian Fusion] as its cuisine, a price level and a
    rating in [1, 5], at least one review, a match score in [50, 100] and at
    most three match reasons.  In particular a review count of 0 never
    comes out: it is replaced by a made-up one. *)
Theorem accepted_restaurants_in_range now rawData location q i r :
  r ∈ valid (parseRestaurants pf now rawData location q i).1 →
  Restaurant.name r ≠ "" ∧ Restaurant.address r ≠ "" ∧
  Restaurant.cuisine r ∈ "Asian Fusion" :: CUISINE_TYPES ∧
  Restaurant.description r ≠ "" ∧
  (1 <= Restaurant.priceLevel r)%Q ∧ (Restaurant.priceLevel r <= 5)%Q ∧
  (1 <= Restaurant.rating r)%Q ∧ (Restaurant.rating r <= 5)%Q ∧
  (1 <= Restaurant.reviewCount r)%Q ∧
  (∃ h, Restaurant.hours r = Some h ∧ h ≠ "") ∧
  (50 <= Restaurant.matchScore r)%Q ∧ (Restaurant.matchScore r <= 100)%Q ∧
  (length (Restaurant.matchReasons r) ≤ 3)%nat.
Proof.
  unfold parseRestaurants, gbind, gret.
  pose proof (parse_loop_valid pf now location q rawData 0 i r) as Hloop.
  destruct (parse_loop pf now location q 0 rawData i) as [parts j].
  cbn [fst snd valid] in *. intros Hr.
  rewrite sort_by_Permutation in Hr.
  destruct (Hloop Hr) as (raw & idx & j0 & _ & Hvalid & Ht).
  by eapply transform_of_valid.
Qed.

End Accepted.

(** A required field ([name], [cuisine], [address]) that is empty or only
    white space makes the parser reject the record with the error
    [Missing required field: <field>]. *)
Theorem missing_required_field_rejected now rawData location q i data field :
  data ∈ rawData → field ∈ REQUIRED_FIELDS →
  String.length (Js.trim (required_field data field)) = 0%nat →
  let res := (parseRestaurants pf now rawData location q i).1 in
  ("Missing required field: " +:+ field)
    ∈ errors (validateRestaurant pf data location) ∧
  isValid (validateRestaurant pf data location) = false ∧
  mkInvalid data (errors (validateRestaurant pf data location)) ∈ invalid res.
Proof.
  intros Hdata Hfield Hblank res.
  assert (("Missing required field: " +:+ field)
            ∈ validation_errors pf data location) as Hin.
  { unfold validation_errors. apply elem_of_app. left.
    unfold check_required. apply list_elem_of_omap. exists field.
    split; [done|]. cbv zeta. rewrite Hblank. by rewrite orb_true_r. }
  pose proof (error_invalidates pf data location _ Hin) as Hinvalid.
  split_and!; [done|done|].
  unfold res, parseRestaurants, gbind, gret.
  pose proof (parse_loop_invalid pf now location q rawData 0 i) as Hinv.
  destruct (parse_loop pf now location q 0 rawData i) as [parts j].
  cbn [fst snd invalid] in *. rewrite Hinv.
  apply list_elem_of_omap. exists data. split; [done|]. by rewrite Hinvalid.
Qed.

(** Normalizing a cuisine twice gives the same as normalizing it once,
    except for [Asian Fusion]: the map sends [asian] to it, and it is
    itself unknown to [normalizeCuisine]. *)
Theorem normalizeCuisine_idempotent_but_asian (c v : string) :
  normalizeCuisine c = Own v →
  (v ≠ "Asian Fusion" → normalizeCuisine v = Own v) ∧
  (v = "Asian Fusion" → normalizeCuisine v = Undefined).
Proof.
  intros Hc%normalizeCuisine_Own. split.
  - intros Hv. apply elem_of_cons in Hc as [?|Hc]; [done|]. clear Hv.
    revert v Hc. apply Forall_forall.
    repeat (apply Forall_cons_2; [by vm_compute|]). apply Forall_nil_2.
  - intros ->. by vm_compute.
Qed.

End ParserAccounting.

Section ParserAccountingExamples.
Import SearchResultParser.

(** A record whose cuisine is [Constructor] is counted as processed and as
    nothing else. *)
Lemma parseRestaurants_accounting_witness :
  let res := (parseRestaurants demo_platform 1730000000000 [sushi_zen; proto_cafe]
                here "sushi" 0%nat).1 in
  length (filter (silently_dropped demo_platform here) [sushi_zen; proto_cafe]) = 1%nat ∧
  (validCount (stats res) + invalidCount (stats res) + 1 = totalProcessed (stats res))%Z ∧
  validCount (stats res) = 1%Z ∧ invalid res = [].
Proof.
  destruct (parseRestaurants_accounting demo_platform 1730000000000
              [sushi_zen; proto_cafe] here "sushi" 0%nat) as (_ & _ & _ & Hsum & _).
  split; [by vm_compute|]. split; [|by vm_compute].
  exact Hsum.
Defined.

(** The two ways in which [transformToRestaurant] returns null, with the
    random numbers drawn before it throws: four for the cuisine [toString],
    which fails at the specialties, five for [Constructor], which fails at
    the match score. *)
Example transformToRestaurant_null_ex :
  transformToRestaurant demo_platform 1730000000000
    (bare "Cafe Proto" "toString" "12 Main Street, Springfield") 0 here "sushi" 0%nat
  = (None, 4%nat) ∧
  transformToRestaurant demo_platform 1730000000000 proto_cafe 0 here "sushi" 0%nat
  = (None, 5%nat).
Proof. by vm_compute. Qed.

(** One accepted restaurant with half of the completeness weights and three
    rejected records: [(0.25 * 0.7 + 0.5 * 0.3) * 100] is 32.5, and
    32.49999999999999 in doubles, which [Math.round] takes to 32. *)
Example calculateQualityScore_ex :
  calculateQualityScore [half_complete] (replicate 3 (mkInvalid sushi_zen [])) = 32%Z ∧
  Js.round (((1 # 4) * (7 # 10) + (1 # 2) * (3 # 10)) * 100) = 33%Z.
Proof. by vm_compute. Qed.

Lemma accepted_restaurants_in_range_witness :
  ∃ r, valid (parseRestaurants demo_platform 1730000000000 [sushi_zen] here
                "sushi" 0%nat).1 = [r] ∧
       (1 <= Restaurant.reviewCount r)%Q ∧ (50 <= Restaurant.matchScore r)%Q.
Proof.
  eexists. split; [by vm_compute|].
  match goal with
  | |- (1 <= Restaurant.reviewCount ?r)%Q ∧ _ =>
      destruct (accepted_restaurants_in_range demo_platform demo_rand_ok
                  1730000000000 [sushi_zen] here "sushi" 0%nat r)
        as (_ & _ & _ & _ & _ & _ & _ & _ & Hrc & _ & Hm & _)
  end.
  - vm_compute. left.
  - split; [exact Hrc|exact Hm].
Defined.

Lemma missing_required_field_rejected_witness :
  let blank := bare "Sushi Zen" "Japanese" "   " in
  invalid (parseRestaurants demo_platform 1730000000000 [blank] here "sushi" 0%nat).1
  = [mkInvalid blank ["Missing required field: address";
                      "Address appears to be incomplete"]] ∧
  isValid (validateRestaurant demo_platform blank here) = false.
Proof.
  split; [by vm_compute|].
  apply (missing_required_field_rejected demo_platform 1730000000000
           [bare "Sushi Zen" "Japanese" "   "] here "sushi" 0%nat
           (bare "Sushi Zen" "Japanese" "   ") "address").
  - left.
  - by vm_compute; right; right; left.
  - by vm_compute.
Defined.

Lemma normalizeCuisine_idempotent_but_asian_witness :
  normalizeCuisine "Trattoria" = Own "Italian" ∧
  normalizeCuisine "Italian" = Own "Italian" ∧
  normalizeCuisine "asian" = Own "Asian Fusion" ∧
  normalizeCuisine "Asian Fusion" = Undefined.
Proof.
  split; [by vm_compute|]. split; [|split; [by vm_compute|]].
  - by apply (normalizeCuisine_idempotent_but_asian "Trattoria" "Italian");
      vm_compute.
  - by apply (normalizeCuisine_idempotent_but_asian "asian" "Asian Fusion");
      vm_compute.
Defined.

End ParserAccountingExamples.

(** * Further properties of the quality validator *)

Section Sorting.
Context {A : Type} (R : relation A) (cmp : A → A → comparison).
Context `{!Transitive R}.
Hypothesis cmp_before : ∀ x y, cmp x y ≠ Gt → R x y.
Hypothesis cmp_after : ∀ x y, cmp x y = Gt → R y x.

Lemma insert_by_sorted x l :
  StronglySorted R l → StronglySorted R (Js.insert_by cmp x l).
Proof.
  induction l as [|y l IH]; intros Hs; simpl.
  - by repeat constructor.
  - apply StronglySorted_cons in Hs as [HF Hs].
    destruct (cmp x y) eqn:Hc.
    + apply StronglySorted_cons. split; [|by apply StronglySorted_cons].
      assert (R x y) as Hxy by (apply cmp_before; congruence).
      apply Forall_cons_2; [done|].
      eapply Forall_impl; [exact HF|]. intros z Hz. by etrans.
    + apply StronglySorted_cons. split; [|by apply StronglySorted_cons].
      assert (R x y) as Hxy by (apply cmp_before; congruence).
      apply Forall_cons_2; [done|].
      eapply Forall_impl; [exact HF|]. intros z Hz. by etrans.
    + apply StronglySorted_cons. split; [|by apply IH].
      rewrite insert_by_Permutation. apply Forall_cons_2; [by apply cmp_after|done].
Qed.

Lemma sort_by_sorted l : StronglySorted R (Js.sort_by cmp l).
Proof.
  unfold Js.sort_by. induction l as [|x l IH]; simpl; [constructor|].
  by apply insert_by_sorted.
Qed.

End Sorting.

Section ValidatorStatistics.
Import RestaurantValidator.
Context (pf : Platform).

Lemma round_mono (x y : Q) : (x <= y)%Q → (Js.round x ≤ Js.round y)%Z.
Proof. intros H. unfold Js.round. apply Qfloor_resp_le. lra. Qed.

Lemma round_between (a b : Z) (x : Q) :
  (inject_Z a <= x)%Q → (x <= inject_Z b)%Q → (a ≤ Js.round x ≤ b)%Z.
Proof.
  intros Ha Hb.
  assert (∀ n, Js.round (inject_Z n) = n) as Hround.
  { intros n. unfold Js.round. apply Qfloor_unique.
    - lra.
    - rewrite inject_Z_plus. change (inject_Z 1) with 1%Q. lra. }
  split.
  - rewrite <- (Hround a). by apply round_mono.
  - rewrite <- (Hround b). by apply round_mono.
Qed.

Lemma calculateQualityScore_range r issues' warnings' :
  (0 ≤ calculateQualityScore r issues' warnings' ≤ 100)%Z.
Proof. unfold calculateQualityScore. lia. Qed.

Lemma count_where_partition (results : list Validated) :
  (count_where (λ s, 90 <=? s)%Z results
   + count_where (λ s, (70 <=? s) && (s <? 90))%Z results
   + count_where (λ s, (50 <=? s) && (s <? 70))%Z results
   + count_where (λ s, s <? 50)%Z results
   = Z.of_nat (length results))%Z.
Proof.
  unfold count_where. induction results as [|x l IH]; [done|].
  rewrite !filter_cons. cbn [length].
  repeat case_decide; cbn [length];
    repeat match goal with
           | H : _ = true |- _ =>
               first [apply andb_true_iff in H as [? ?]|apply Z.leb_le in H
                     |apply Z.ltb_lt in H]
           | H : ¬ (_ = true) |- _ =>
               apply not_true_is_false in H;
               first [apply andb_false_iff in H as [H|H]|apply Z.leb_gt in H
                     |apply Z.ltb_ge in H]
           end; lia.
Qed.

Lemma filter_partition_length {B} (p : B → bool) (l : list B) :
  (length (filter (λ x, p x = true) l) + length (filter (λ x, p x = false) l)
   = length l)%nat.
Proof.
  induction l as [|x l IH]; [done|]. rewrite !filter_cons.
  destruct (p x) eqn:Hp; repeat case_decide; try done; simpl; lia.
Qed.

Lemma sum_scores_range (scores : list Z) (acc : Z) :
  Forall (λ s, 0 ≤ s ≤ 100)%Z scores →
  (acc ≤ foldl Z.add acc scores ≤ acc + 100 * Z.of_nat (length scores))%Z.
Proof.
  intros HF. revert acc. induction HF as [|s l Hs _ IH]; intros acc; simpl; [lia|].
  specialize (IH (acc + s)%Z). lia.
Qed.

(** The statistics of a validated list are consistent: valid and invalid
    counts add up to the total, and so do the four quality buckets; the
    average score lies in [0, 100].  The valid list holds exactly the
    results without an error, ordered by decreasing score; every result of
    the invalid list has at least one error. *)
Theorem validateRestaurantList_statistics (restaurants : list Restaurant.t)
    (searchLocation : option LocationData) (searchQuery : option string) :
  let res := validateRestaurantList pf restaurants searchLocation searchQuery in
  let st := statistics res in
  let d := qualityDistribution st in
  totalCount st = Z.of_nat (length restaurants) ∧
  (validCount st + invalidCount st = totalCount st)%Z ∧
  (excellent d + good d + fair d + poor d = totalCount st)%Z ∧
  (0 ≤ averageScore st ≤ 100)%Z ∧
  StronglySorted (λ a b, score (validation b) ≤ score (validation a))%Z (valid res) ∧
  Forall (λ x, isValid (validation x) = true ∧ issues (validation x) = []
               ∧ (0 ≤ score (validation x) ≤ 100)%Z) (valid res) ∧
  Forall (λ x, isValid (validation x) = false ∧ issues (validation x) ≠ [])
         (invalid res).
Proof.
  unfold validateRestaurantList. cbv zeta.
  set (results := map (λ r, mkValidated r
                         (validateRestaurant pf r searchLocation searchQuery))
                      restaurants).
  cbn [statistics qualityDistribution totalCount validCount invalidCount
       averageScore excellent good fair poor valid invalid].
  assert (length results = length restaurants) as Hlen by apply length_map.
  assert (Forall (λ x, (isValid (validation x) = true ↔ issues (validation x) = [])
                       ∧ (0 ≤ score (validation x) ≤ 100)%Z) results) as Hres.
  { apply Forall_forall. intros x (r & -> & _)%list_elem_of_fmap.
    cbn [validation]. unfold validateRestaurant.
    cbn [isValid issues score]. split; [|apply calculateQualityScore_range].
    rewrite Nat.eqb_eq. split; [apply nil_length_inv|by intros ->]. }
  split; [|split; [|split; [|split; [|split; [|split]]]]].
  - done.
  - rewrite (Permutation_length (sort_by_Permutation _ _)).
    pose proof (filter_partition_length (λ x, isValid (validation x)) results).
    lia.
  - rewrite count_where_partition. lia.
  - destruct (0 <? length (map (λ x, score (validation x)) results))%nat eqn:Hn;
      [|by vm_compute].
    apply Nat.ltb_lt in Hn.
    set (scores := map (λ x, score (validation x)) results) in *.
    assert (Forall (λ s, 0 ≤ s ≤ 100)%Z scores) as Hsc.
    { unfold scores. apply Forall_fmap. eapply Forall_impl; [exact Hres|].
      by intros x [_ ?]. }
    pose proof (sum_scores_range scores 0 Hsc) as [Hlo Hhi].
    assert (0 < inject_Z (Z.of_nat (length scores)))%Q as Hpos.
    { change 0%Q with (inject_Z 0). rewrite <- Zlt_Qlt. lia. }
    apply (round_between 0 100).
    + apply Qle_shift_div_l; [done|]. rewrite Qmult_0_l.
      change 0%Q with (inject_Z 0). rewrite <- Zle_Qle. lia.
    + apply Qle_shift_div_r; [done|]. rewrite <- inject_Z_mult, <- Zle_Qle. lia.
  - assert (Transitive (λ a b : Validated,
                          (score (validation b) ≤ score (validation a))%Z))
      as Htrans by (intros x y z ? ?; lia).
    apply (sort_by_sorted _ _).
    + intros x y Hc. destruct (Z.compare_spec (score (validation y))
                                 (score (validation x))); [lia|lia|done].
    + intros x y Hc%Z.compare_gt_iff. lia.
  - rewrite sort_by_Permutation. apply Forall_forall.
    intros x [Hv Hx]%list_elem_of_filter.
    eapply Forall_forall in Hres as [Hiff ?]; [|exact Hx].
    split; [done|]. split; [by apply Hiff|done].
  - apply Forall_forall. intros x [Hv Hx]%list_elem_of_filter.
    eapply Forall_forall in Hres as [Hiff ?]; [|exact Hx].
    split; [done|]. intros Hnil. apply Hiff in Hnil. congruence.
Qed.

Lemma completeness_points_range r : (0 ≤ completeness_points r ≤ 155)%Z.
Proof.
  unfold completeness_points, points.
  repeat match goal with |- context [if ?b then _ else _] => destruct b end; lia.
Qed.

Lemma calculateCompleteness_range r :
  (0 <= calculateCompleteness r)%Q ∧ (calculateCompleteness r <= 100)%Q.
Proof.
  unfold calculateCompleteness. pose proof (completeness_points_range r) as [Hlo Hhi].
  rewrite Zle_Qle in Hlo, Hhi. set (p := inject_Z (completeness_points r)) in *.
  change (inject_Z maxScore) with 155%Q. change (inject_Z 155) with 155%Q in Hhi.
  change (inject_Z 0) with 0%Q in Hlo.
  unfold Qdiv. set (i := (/ 155)%Q).
  assert (i == 1 # 155)%Q as -> by done. lra.
Qed.

Lemma calculateAccuracy_range r :
  (25 <= calculateAccuracy r)%Q ∧ (calculateAccuracy r <= 100)%Q.
Proof.
  unfold calculateAccuracy. cbv zeta.
  set (rating := Restaurant.rating r). set (rc := Restaurant.reviewCount r).
  assert (∀ (b : bool) (n : Q), (0 <= n)%Q →
            (0 <= (if b then n else 0))%Q ∧ ((if b then n else 0) <= n)%Q) as Hif.
  { intros [] n Hn; split; lra. }
  destruct (Hif (Js.truthy_num rating && Js.Qgtb rating 5) 20%Q ltac:(lra))
    as [H1 H1'].
  destruct (Hif (Js.truthy_num (Restaurant.priceLevel r)
                 && Js.Qgtb (Restaurant.priceLevel r) 5) 20%Q ltac:(lra))
    as [H2 H2'].
  destruct (Hif (Js.truthy_num rc && Js.Qltb rc 0) 20%Q ltac:(lra)) as [H3 H3'].
  set (d1 := if Js.truthy_num rating && Js.Qgtb rating 5 then 20%Q else 0%Q) in *.
  set (d2 := if Js.truthy_num (Restaurant.priceLevel r)
                && Js.Qgtb (Restaurant.priceLevel r) 5 then 20%Q else 0%Q) in *.
  set (d3 := if Js.truthy_num rc && Js.Qltb rc 0 then 20%Q else 0%Q) in *.
  set (d4 := if Js.truthy_num rating && Js.truthy_num rc
             then ((if Js.Qgtb rating (48 # 10) && Js.Qltb rc 5 then 15 else 0)
                   + (if Js.Qltb rating 2 && Js.Qgtb rc 1000 then 10 else 0))%Q
             else 0%Q).
  assert ((0 <= d4)%Q ∧ (d4 <= 15)%Q) as [H4 H4'].
  { unfold d4. destruct (Js.truthy_num rating && Js.truthy_num rc); [|split; lra].
    destruct (Js.Qgtb rating (48 # 10) && Js.Qltb rc 5) eqn:Ha;
      destruct (Js.Qltb rating 2 && Js.Qgtb rc 1000) eqn:Hb; try (split; lra).
    exfalso. apply andb_true_iff in Ha as [Ha _]. apply andb_true_iff in Hb as [Hb _].
    apply negb_true_iff, Qle_bool_false in Ha.
    apply negb_true_iff, Qle_bool_false in Hb. lra. }
  clearbody d1 d2 d3 d4.
  split.
  - eapply Qle_trans; [|apply Q.le_max_r]. lra.
  - apply Q.max_lub; lra.
Qed.

Lemma calculateRelevance_range r :
  (0 <= calculateRelevance r)%Q ∧ (calculateRelevance r <= 100)%Q.
Proof.
  unfold calculateRelevance. cbv zeta. split.
  - apply Q.le_max_l.
  - apply Q.max_lub; [lra|apply Q.le_min_l].
Qed.

Lemma calculateFreshness_range r :
  (75 <= calculateFreshness r)%Q ∧ (calculateFreshness r <= 100)%Q.
Proof.
  unfold calculateFreshness. cbv zeta. split.
  - apply Q.min_glb; [lra|].
    repeat match goal with |- context [if ?b then _ else _] => destruct b end; lra.
  - apply Q.le_min_l.
Qed.

(** All five quality metrics lie in [0, 100].  Accuracy is never below 25,
    so its clamp at 0 is never reached; freshness is never below 75; the
    overall score is never below 19. *)
Theorem calculateQualityMetrics_range (r : Restaurant.t) :
  let m := calculateQualityMetrics r in
  (0 ≤ qm_completeness m ≤ 100)%Z ∧
  (25 ≤ qm_accuracy m ≤ 100)%Z ∧
  (0 ≤ qm_relevance m ≤ 100)%Z ∧
  (75 ≤ qm_freshness m ≤ 100)%Z ∧
  (19 ≤ qm_overall m ≤ 100)%Z.
Proof.
  unfold calculateQualityMetrics. cbv zeta.
  cbn [qm_completeness qm_accuracy qm_relevance qm_freshness qm_overall].
  destruct (calculateCompleteness_range r) as [Hc Hc'].
  destruct (calculateAccuracy_range r) as [Ha Ha'].
  destruct (calculateRelevance_range r) as [Hr Hr'].
  destruct (calculateFreshness_range r) as [Hf Hf'].
  do 4 (split; [apply round_between; unfold inject_Z; lra|]).
  split.
  - assert (Js.round (1875 # 100) = 19%Z) as <- by by vm_compute.
    apply round_mono. lra.
  - apply (round_between 0 100); unfold inject_Z; lra.
Qed.

End ValidatorStatistics.

(** * Further properties of the error handler *)

Section ErrorRate.
Import RestaurantSearchErrorHandler.

Implicit Types (m : gmap string ErrorCount).

(** After an error is counted its entry is there, stamped with the time of
    the call: the count goes up by one when the entry before was less than
    an hour old and restarts at 1 otherwise. *)
Lemma trackError_lookup key now m :
  trackError key now m !! key =
  Some (mkErrorCount
          (match m !! key with
           | Some e => if (now - lastError e <? HOUR_MS)%Z then count e + 1 else 1
           | None => 1
           end) now).
Proof.
  unfold trackError.
  set (c := match m !! key with
            | Some e => if (now - lastError e <? HOUR_MS)%Z then (count e + 1)%Z else 1%Z
            | None => 1%Z
            end).
  set (m1 := match m !! key with
             | Some existing =>
                 if (now - lastError existing <? HOUR_MS)%Z
                 then <[key := mkErrorCount (count existing + 1) now]> m
                 else <[key := mkErrorCount 1 now]> m
             | None => <[key := mkErrorCount 1 now]> m
             end).
  assert (m1 !! key = Some (mkErrorCount c now)) as H1.
  { unfold m1, c. destruct (m !! key) as [e|]; [|by rewrite lookup_insert_eq].
    destruct (now - lastError e <? HOUR_MS)%Z; by rewrite lookup_insert_eq. }
  destruct (100 <? size m1)%nat; [|done].
  apply map_lookup_filter_Some. split; [done|]. simpl. unfold HOUR_MS. lia.
Qed.

Lemma last_cons_default {A} (t d : A) (times : list A) :
  List.last (t :: times) d = List.last times t.
Proof.
  revert t d. induction times as [|x times IH]; intros t d; [done|].
  change (List.last (t :: x :: times) d) with (List.last (x :: times) d).
  by rewrite (IH x d), (IH x t).
Qed.

Lemma track_all_lookup key times m c t0 :
  m !! key = Some (mkErrorCount c t0) →
  gaps_below HOUR_MS (t0 :: times) →
  track_all key times m !! key
  = Some (mkErrorCount (c + Z.of_nat (length times)) (List.last times t0)).
Proof.
  revert m c t0. induction times as [|t times IH]; intros m c t0 Hm Hgaps.
  - simpl. rewrite Hm. do 2 f_equal. lia.
  - destruct Hgaps as [Hgap Hgaps]. cbn [track_all foldl].
    change (foldl _ ?x times) with (track_all key times x).
    erewrite IH; [| |exact Hgaps].
    2:{ rewrite trackError_lookup, Hm. cbn [lastError count].
        assert ((t - t0 <? HOUR_MS)%Z = true) as -> by lia. done. }
    f_equal. f_equal; [cbn [length]; lia|]. by rewrite last_cons_default.
Qed.

(** The limiter does not count errors per hour: the count under a key keeps
    growing as long as each error comes less than an hour after the one
    before.  Starting from a key without an entry, a run of such errors
    leaves their number as the count, and the rate is exceeded exactly from
    the tenth error on, however long the run took. *)
Theorem error_rate_counts_chained_errors key times m :
  m !! key = None → times ≠ [] → gaps_below HOUR_MS times →
  (∃ t, track_all key times m !! key
        = Some (mkErrorCount (Z.of_nat (length times)) t)) ∧
  (isErrorRateExceeded key (track_all key times m) = true ↔
   (10 ≤ length times)%nat).
Proof.
  intros Hm Hne Hgaps. destruct times as [|t0 times]; [done|].
  cbn [track_all foldl]. change (foldl _ ?x times) with (track_all key times x).
  pose proof (trackError_lookup key t0 m) as H0. rewrite Hm in H0.
  pose proof (track_all_lookup key times _ _ _ H0 Hgaps) as Hall.
  split.
  - eexists. rewrite Hall. do 2 f_equal. cbn [length]. lia.
  - unfold isErrorRateExceeded. rewrite Hall. cbn [count length].
    unfold MAX_ERRORS_PER_HOUR. rewrite Z.geb_leb, Z.leb_le. lia.
Qed.

Lemma error_rate_counts_chained_errors_witness :
  isErrorRateExceeded "tokyo" (track_all "tokyo" slow_burst ∅) = true ∧
  (List.last slow_burst 0 - List.hd 0 slow_burst = 8 * HOUR_MS + 51 * 60 * 1000)%Z.
Proof.
  split; [|by vm_compute].
  apply (error_rate_counts_chained_errors "tokyo" slow_burst ∅).
  - apply lookup_empty.
  - by vm_compute.
  - vm_compute. repeat split.
  - vm_compute. lia.
Defined.

End ErrorRate.

Section Fallback.
Import RestaurantSearchErrorHandler.
Context (pf : Platform).
Hypothesis Hrand : rand_ok pf.

Lemma gbind_fst {A B} (m : Gen A) (k : A → Gen B) (P : B → Prop) i :
  (∀ a j, m i = (a, j) → P (k a j).1) → P (gbind m k i).1.
Proof. unfold gbind. intros H. destruct (m i) as [a j] eqn:Hm. by apply H. Qed.

Lemma gmapM_Forall {A B} (f : A → Gen B) (P : B → Prop) l i :
  (∀ a j, a ∈ l → P (f a j).1) →
  Forall P (gmapM f l i).1 ∧ length (gmapM f l i).1 = length l.
Proof.
  revert i. induction l as [|a l IH]; intros i Hf; [by split; [constructor|]|].
  cbn [gmapM]. unfold gbind.
  pose proof (Hf a i ltac:(left)) as Ha.
  destruct (f a i) as [b j].
  destruct (IH j) as [HF Hlen]; [intros; apply Hf; by right|].
  destruct (gmapM f l j) as [bs j']. cbn [fst gret] in *.
  split; [by constructor|]. simpl. by rewrite Hlen.
Qed.

Lemma random_below_eq n i a j :
  (0 < n)%Z → random_below pf n i = (a, j) → (0 ≤ a < n)%Z.
Proof.
  intros Hn Heq. pose proof (random_below_range pf Hrand n i Hn) as Hr.
  by rewrite Heq in Hr.
Qed.

Lemma random_eq i a j : random pf i = (a, j) → (0 <= a)%Q ∧ (a < 1)%Q.
Proof. unfold random. intros [= <- _]. apply Hrand. Qed.

(** [4.0 + Math.random() * 0.8] *)
Lemma fallback_rating_high r : (0 <= r)%Q → (r < 1)%Q →
  let rating := Js.fadd 4 (Js.fmul (Js.double r) (Js.double (8 # 10))) in
  (4 <= rating)%Q ∧ (rating <= 48 # 10)%Q.
Proof.
  intros H0 H1. destruct (double_unit r H0 H1) as [Hd0 Hd1].
  set (d := Js.double r) in *. clearbody d.
  assert (0 <= Js.double (8 # 10))%Q as Hc0 by by vm_compute.
  assert (Js.double (Js.double (8 # 10)) == Js.double (8 # 10))%Q as Hcc
    by by vm_compute.
  assert (Js.double (4 + Js.double (8 # 10)) < 48 # 10)%Q as Htop by by vm_compute.
  set (c := Js.double (8 # 10)) in *. clearbody c.
  assert (0 <= d * c)%Q as Hm0 by by apply Qmult_le_0_compat.
  pose proof (Qmult_le_unit d c Hd0 Hd1 Hc0) as Hm1.
  pose proof (double_nonneg _ Hm0) as Hf0.
  pose proof (double_le _ _ Hm0 Hm1 Hcc) as Hf1.
  cbv zeta. unfold Js.fadd, Js.fmul.
  set (m := Js.double (d * c)) in *. clearbody m. split.
  - apply double_ge; [done|lra|by vm_compute].
  - apply Qlt_le_weak. eapply Qle_lt_trans; [|exact Htop].
    apply double_mono; lra.
Qed.

(** [3.5 + Math.random() * 1.0] *)
Lemma fallback_rating_other r : (0 <= r)%Q → (r < 1)%Q →
  let rating := Js.fadd (35 # 10) (Js.fmul (Js.double r) 1) in
  (35 # 10 <= rating)%Q ∧ (rating <= 45 # 10)%Q.
Proof.
  intros H0 H1. destruct (double_unit r H0 H1) as [Hd0 Hd1].
  set (d := Js.double r) in *. clearbody d.
  assert (0 <= d * 1)%Q as Hm0 by lra.
  assert (d * 1 <= 1)%Q as Hm1 by lra.
  pose proof (double_nonneg _ Hm0) as Hf0.
  assert (Js.double (d * 1) <= 1)%Q as Hf1
    by (apply double_le; [done|done|by vm_compute]).
  cbv zeta. unfold Js.fadd, Js.fmul.
  set (m := Js.double (d * 1)) in *. clearbody m. split.
  - apply double_ge; [done|lra|by vm_compute].
  - apply double_le; [lra|lra|by vm_compute].
Qed.

(** The largest draw, 1 - 2^-53: the medium rating is 4.5 and the high
    rating is the double that 4.8 denotes. *)
Example fallback_rating_reaches_its_bound :
  (Js.fadd (35 # 10) (Js.fmul (Js.double (1 - (1 # 2 ^ 53))) 1) == 45 # 10)%Q ∧
  (Js.fadd 4 (Js.fmul (Js.double (1 - (1 # 2 ^ 53))) (Js.double (8 # 10)))
   == Js.double (48 # 10))%Q.
Proof. by vm_compute. Qed.

Lemma fallback_entry_shape now query location quality n i :
  fallback_shape quality (fallback_entry pf now query location quality n i).1.
Proof.
  unfold fallback_entry. cbv zeta.
  apply gbind_fst. intros price j1 Hprice%random_below_eq; [|lia].
  apply gbind_fst. intros r_rating j2 [Hr0 Hr1]%random_eq.
  apply gbind_fst. intros reviews j3 Hreviews.
  apply gbind_fst. intros address' j4 _.
  apply gbind_fst. intros phone' j5 _.
  apply gbind_fst. intros dietary j6 Hdietary.
  apply gbind_fst. intros r_wait j7 _.
  apply gbind_fst. intros wait j8 _.
  apply gbind_fst. intros r_dist j9 _.
  apply gbind_fst. intros bonus j10 Hbonus%random_below_eq; [|lia].
  unfold gret, fallback_shape. cbv zeta.
  cbn [fst Restaurant.cuisine Restaurant.priceLevel Restaurant.rating
       Restaurant.reviewCount Restaurant.matchScore Restaurant.matchReasons
       Restaurant.specialties Restaurant.dietaryOptions Restaurant.phone
       Restaurant.website Restaurant.hours].
  assert (∃ c, cuisineTypes !! (n mod length cuisineTypes)%nat = Some c) as [c Hc].
  { apply lookup_lt_is_Some_2. apply Nat.mod_upper_bound. done. }
  rewrite Hc. cbn [default].
  assert (c ∈ cuisineTypes) as Hcin by by eapply list_elem_of_lookup_2.
  destruct (bool_decide (quality = high)) eqn:Hq.
  - apply random_below_eq in Hreviews; [|lia].
    split_and!; try done; try by eexists.
    + change 2%Q with (inject_Z 2). rewrite <- Zle_Qle. lia.
    + change 4%Q with (inject_Z 4). rewrite <- Zle_Qle. lia.
    + by apply fallback_rating_high.
    + by apply fallback_rating_high.
    + change 200%Q with (inject_Z 200). rewrite <- Zle_Qle. lia.
    + change 700%Q with (inject_Z 700). rewrite <- Zlt_Qlt. lia.
    + change 75%Q with (inject_Z 75). rewrite <- Zle_Qle. lia.
    + change 95%Q with (inject_Z 95). rewrite <- Zlt_Qlt. lia.
    + unfold generateFallbackMatchReasons. by destruct (Js.includes _ _).
    + clear Hc. revert c Hcin. apply Forall_forall.
      repeat (apply Forall_cons_2; [by vm_compute|]). apply Forall_nil_2.
    + revert Hdietary. unfold getRandomDietaryOptions. cbv zeta.
      intros Hd. apply (f_equal fst) in Hd. cbn [fst] in Hd. rewrite <- Hd.
      apply gbind_fst. intros k j Hk%random_below_eq; [|lia].
      unfold gret, Js.slice0. cbn [fst].
      assert ((k + 1 <? 0)%Z = false) as -> by lia.
      destruct (Z.to_nat (k + 1)) eqn:Hk'; [lia|done].
  - apply random_below_eq in Hreviews; [|lia].
    split_and!; try done; try by eexists.
    + change 2%Q with (inject_Z 2). rewrite <- Zle_Qle. lia.
    + change 4%Q with (inject_Z 4). rewrite <- Zle_Qle. lia.
    + by apply fallback_rating_other.
    + by apply fallback_rating_other.
    + change 50%Q with (inject_Z 50). rewrite <- Zle_Qle. lia.
    + change 250%Q with (inject_Z 250). rewrite <- Zlt_Qlt. lia.
    + change 60%Q with (inject_Z 60). rewrite <- Zle_Qle. lia.
    + change 80%Q with (inject_Z 80). rewrite <- Zlt_Qlt. lia.
    + unfold generateFallbackMatchReasons. by destruct (Js.includes _ _).
    + clear Hc. revert c Hcin. apply Forall_forall.
      repeat (apply Forall_cons_2; [by vm_compute|]). apply Forall_nil_2.
    + revert Hdietary. unfold getRandomDietaryOptions. cbv zeta.
      intros Hd. apply (f_equal fst) in Hd. cbn [fst] in Hd. rewrite <- Hd.
      apply gbind_fst. intros k j Hk%random_below_eq; [|lia].
      unfold gret, Js.slice0. cbn [fst].
      assert ((k + 1 <? 0)%Z = false) as -> by lia.
      destruct (Z.to_nat (k + 1)) eqn:Hk'; [lia|done].
Qed.

(** The fallback generator returns 8, 6 or 4 restaurants for high, medium
    or low quality, ordered by decreasing match score, each with one of the
    six fallback cuisines, a price level from 2 to 4, a rating from 4 to 4.8
    for high quality and from 3.5 to 4.5 otherwise, both ends included,
    review count and match score in the band of the quality, exactly two
    match reasons, specialties, dietary options, a phone number, a website
    and the fixed opening hours. *)
Theorem generateFallbackRestaurants_shape now query location quality i :
  let l := (generateFallbackRestaurants pf now query location quality i).1 in
  length l = match quality with high => 8 | medium => 6 | low => 4 end%nat ∧
  StronglySorted
    (λ a b, (Restaurant.matchScore b <= Restaurant.matchScore a)%Q) l ∧
  Forall (fallback_shape quality) l.
Proof.
  unfold generateFallbackRestaurants. cbv zeta.
  apply gbind_fst. intros restaurants j Hgen. unfold gret. cbn [fst].
  destruct (gmapM_Forall (fallback_entry pf now query location quality)
              (fallback_shape quality)
              (seq 0 match quality with high => 8 | medium => 6 | low => 4 end%nat)
              i) as [HF Hlen].
  { intros n j0 _. apply fallback_entry_shape. }
  rewrite Hgen in HF, Hlen. cbn [fst] in HF, Hlen.
  split_and!.
  - rewrite (Permutation_length (sort_by_Permutation _ _)), Hlen.
    by rewrite length_seq.
  - assert (Transitive (λ a b : Restaurant.t,
                          (Restaurant.matchScore b <= Restaurant.matchScore a)%Q))
      as Htrans by (intros x y z ? ?; by eapply Qle_trans).
    apply (sort_by_sorted _ _).
    + intros x y Hc. by apply Qle_alt.
    + intros x y Hc. apply Qlt_le_weak. by apply Qgt_alt.
  - by rewrite sort_by_Permutation.
Qed.

End Fallback.

Section FallbackExamples.
Import RestaurantSearchErrorHandler.

Lemma generateFallbackRestaurants_shape_witness :
  let l := (generateFallbackRestaurants demo_platform 1730000000000 "sushi" here
              medium 0%nat).1 in
  length l = 6%nat ∧
  Forall (λ r, (60 <= Restaurant.matchScore r)%Q
               ∧ (Restaurant.matchScore r < 80)%Q) l.
Proof.
  destruct (generateFallbackRestaurants_shape demo_platform demo_rand_ok
              1730000000000 "sushi" here medium 0%nat) as (Hlen & _ & HF).
  split; [exact Hlen|].
  eapply Forall_impl; [exact HF|].
  intros r (_ & _ & _ & _ & _ & _ & _ & Hlo & Hhi & _). by split.
Defined.

End FallbackExamples.

Section FallbackPhones.
Import RestaurantSearchErrorHandler.
Context (pf : Platform).
Hypothesis Hrand : rand_ok pf.

Lemma three_digits z : (200 ≤ z < 1000)%Z → digits 3 (Js.show_Z z) = true.
Proof.
  intros Hz.
  assert (forallb (λ z, digits 3 (Js.show_Z z)) (seqZ 200 800) = true) as Hall
    by (vm_compute; reflexivity).
  rewrite forallb_forall in Hall. apply Hall.
  apply list_elem_of_In, elem_of_seqZ. lia.
Qed.

Lemma four_digits z :
  (0 ≤ z < 10000)%Z → digits 4 (padStart4 (Js.show_Z z)) = true.
Proof.
  intros Hz.
  assert (forallb (λ z, digits 4 (padStart4 (Js.show_Z z))) (seqZ 0 10000) = true)
    as Hall by (vm_compute; reflexivity).
  rewrite forallb_forall in Hall. apply Hall.
  apply list_elem_of_In, elem_of_seqZ. lia.
Qed.

Lemma digit_not_space c : Js.is_digit c = true → Js.is_space c = false.
Proof.
  unfold Js.is_digit, Js.is_space. intros [H1 H2]%andb_true_iff.
  apply Nat.leb_le in H1, H2.
  remember (nat_of_ascii c) as n eqn:Heqn. clear Heqn.
  do 33 (destruct n as [|n]; [try done; lia|]). done.
Qed.

Lemma digit_phone_char c :
  Js.is_digit c = true → SearchResultParser.phone_char c = true.
Proof. unfold SearchResultParser.phone_char. by intros ->. Qed.

Lemma string_length_3 s :
  String.length s = 3%nat → ∃ a b c, s = String a (String b (String c "")).
Proof. destruct s as [|a [|b [|c [|]]]]; try done. by exists a, b, c. Qed.

Lemma string_length_4 s :
  String.length s = 4%nat →
  ∃ a b c d, s = String a (String b (String c (String d ""))).
Proof. destruct s as [|a [|b [|c [|d [|]]]]]; try done. by exists a, b, c, d. Qed.

(** A number written [(ddd) ddd-dddd] matches the phone pattern of the
    parser and not the one of the validator, which wants a digit from 1 to
    9 first. *)
Lemma phone_shape A E N :
  digits 3 A = true → digits 3 E = true → digits 4 N = true →
  let ph := "(" +:+ A +:+ ") " +:+ E +:+ "-" +:+ N in
  SearchResultParser.phoneRegex (Js.remove_spaces ph) = true ∧
  RestaurantValidator.phoneRegex (Js.remove_spaces ph) = false ∧
  Js.truthy_str ph = true.
Proof.
  unfold digits.
  intros [HA HAd]%andb_true_iff [HE HEd]%andb_true_iff [HN HNd]%andb_true_iff.
  apply Nat.eqb_eq in HA, HE, HN.
  apply string_length_3 in HA as (a1 & a2 & a3 & ->).
  apply string_length_3 in HE as (e1 & e2 & e3 & ->).
  apply string_length_4 in HN as (n1 & n2 & n3 & n4 & ->).
  cbn [Js.forallb_string] in *.
  repeat match goal with
         | H : _ && _ = true |- _ => apply andb_true_iff in H as [? H]
         end.
  repeat match goal with
         | H : Js.is_digit ?c = true |- _ =>
             pose proof (digit_not_space c H);
             pose proof (digit_phone_char c H); clear H
         end.
  cbv zeta. unfold Js.remove_spaces. cbv [String.append].
  cbn [Js.filter_string].
  repeat match goal with
         | H : Js.is_space _ = false |- _ => rewrite H; clear H
         end.
  change (Js.is_space "(") with false. change (Js.is_space ")") with false.
  change (Js.is_space " ") with true. change (Js.is_space "-") with false.
  cbn [negb].
  split; [|split; [|done]].
  - unfold SearchResultParser.phoneRegex, SearchResultParser.phone_after_plus,
      SearchResultParser.phone_run.
    cbn [Js.forallb_string String.length].
    repeat match goal with
           | H : SearchResultParser.phone_char _ = true |- _ => rewrite H; clear H
           end.
    by vm_compute.
  - unfold RestaurantValidator.phoneRegex, RestaurantValidator.phone_after_plus.
    change (SearchResultParser.is_1_to_9 "(") with false. done.
Qed.

Lemma generateFallbackPhone_shape i :
  let ph := (generateFallbackPhone pf i).1 in
  SearchResultParser.phoneRegex (Js.remove_spaces ph) = true ∧
  RestaurantValidator.phoneRegex (Js.remove_spaces ph) = false ∧
  Js.truthy_str ph = true.
Proof.
  unfold generateFallbackPhone. cbv zeta.
  apply gbind_fst. intros a j1 Ha%(random_below_eq pf Hrand); [|lia].
  apply gbind_fst. intros e j2 He%(random_below_eq pf Hrand); [|lia].
  apply gbind_fst. intros n j3 Hn%(random_below_eq pf Hrand); [|lia].
  unfold gret. cbn [fst].
  apply phone_shape; [apply three_digits; lia..|apply four_digits; lia].
Qed.

Lemma fallback_entry_phone now query location quality n i :
  ∃ ph, Restaurant.phone (fallback_entry pf now query location quality n i).1
        = Some ph ∧
    SearchResultParser.phoneRegex (Js.remove_spaces ph) = true ∧
    RestaurantValidator.phoneRegex (Js.remove_spaces ph) = false ∧
    Js.truthy_str ph = true.
Proof.
  unfold fallback_entry. cbv zeta.
  apply gbind_fst. intros price j1 _.
  apply gbind_fst. intros r_rating j2 _.
  apply gbind_fst. intros reviews j3 _.
  apply gbind_fst. intros address' j4 _.
  apply gbind_fst. intros phone' j5 Hphone.
  apply gbind_fst. intros dietary j6 _.
  apply gbind_fst. intros r_wait j7 _.
  apply gbind_fst. intros wait j8 _.
  apply gbind_fst. intros r_dist j9 _.
  apply gbind_fst. intros bonus j10 _.
  unfold gret. cbn [fst Restaurant.phone]. exists phone'. split; [done|].
  pose proof (generateFallbackPhone_shape j4) as Hshape.
  by rewrite Hphone in Hshape.
Qed.

(** The two phone patterns of the pipeline disagree on the fallback data:
    every phone number the fallback generator makes up is accepted by the
    result parser and fails the check of the quality validator, which
    therefore attaches the warning [INVALID_PHONE_FORMAT] to every fallback
    restaurant. *)
Theorem fallback_phones_fail_validator now query location quality i r
    (searchLocation : option LocationData) (searchQuery : option string) :
  r ∈ (generateFallbackRestaurants pf now query location quality i).1 →
  ∃ ph, Restaurant.phone r = Some ph ∧
    SearchResultParser.phoneRegex (Js.remove_spaces ph) = true ∧
    RestaurantValidator.phoneRegex (Js.remove_spaces ph) = false ∧
    RestaurantValidator.mkIssue "phone" RestaurantValidator.warning
      "Phone number format appears invalid" "INVALID_PHONE_FORMAT"
    ∈ RestaurantValidator.warnings
        (RestaurantValidator.validateRestaurant pf r searchLocation searchQuery).
Proof.
  unfold generateFallbackRestaurants. cbv zeta.
  apply gbind_fst. intros restaurants j Hgen. unfold gret. cbn [fst].
  rewrite sort_by_Permutation. intros Hr.
  destruct (gmapM_Forall (fallback_entry pf now query location quality)
              (λ r, ∃ ph, Restaurant.phone r = Some ph ∧
                 SearchResultParser.phoneRegex (Js.remove_spaces ph) = true ∧
                 RestaurantValidator.phoneRegex (Js.remove_spaces ph) = false ∧
                 Js.truthy_str ph = true)
              (seq 0 match quality with high => 8 | medium => 6 | low => 4 end%nat)
              i) as [HF _].
  { intros n j0 _. apply fallback_entry_phone. }
  rewrite Hgen in HF. cbn [fst] in HF.
  eapply Forall_forall in HF as (ph & Hph & Hparser & Hvalidator & Htruthy);
    [|exact Hr].
  exists ph. split_and!; [done..|].
  unfold RestaurantValidator.validateRestaurant.
  cbn [RestaurantValidator.warnings RestaurantValidator.validateDataQuality snd].
  apply elem_of_app. left.
  unfold RestaurantValidator.dataQuality_warnings. cbv zeta.
  apply elem_of_app. right. apply elem_of_app. right. apply elem_of_app. left.
  rewrite Hph, Htruthy, Hvalidator. left.
Qed.

End FallbackPhones.

Section FallbackPhoneExamples.
Import RestaurantSearchErrorHandler.

Lemma fallback_phones_fail_validator_witness :
  ∃ r ph,
    head (generateFallbackRestaurants demo_platform 1730000000000 "sushi" here
            medium 0%nat).1 = Some r ∧
    Restaurant.phone r = Some ph ∧ ph = "(600) 600-5000" ∧
    RestaurantValidator.phoneRegex (Js.remove_spaces ph) = false.
Proof.
  eexists. eexists. split; [by vm_compute|].
  match goal with
  | |- Restaurant.phone ?r = _ ∧ _ =>
      destruct (fallback_phones_fail_validator demo_platform demo_rand_ok
                  1730000000000 "sushi" here medium 0%nat r None None)
        as (ph & Hph & _ & Hv & _)
  end.
  - vm_compute. left.
  - vm_compute in Hph. injection Hph as <-. split; [by vm_compute|].
    split; [reflexivity|exact Hv].
Defined.

End FallbackPhoneExamples.

(** * Further properties of the search route *)

Section RouteMore.
Import Route.
Context (pf : Platform).

Lemma truthy_num_false (x : Q) : Js.truthy_num x = false ↔ (x == 0)%Q.
Proof.
  unfold Js.truthy_num. rewrite negb_false_iff. apply Qeq_bool_iff.
Qed.


(** The route answers 400 exactly when the body has no location or a
    location whose latitude and longitude are both 0 (or absent); a point on
    the equator or on the prime meridian alone is accepted.  A rejected
    request touches neither the cache nor the error counts and draws no
    random number. *)
Theorem POST_rejects_unlocated clock req outcome srv i :
  let res := POST pf clock req outcome srv i in
  (status res.1.1 = 400%Z ↔
   ∃ body, req = Some body ∧
     (location body = None ∨
      ∃ loc, location body = Some loc
             ∧ (latitude loc == 0)%Q ∧ (longitude loc == 0)%Q)) ∧
  (status res.1.1 = 400%Z → res.1.2 = srv ∧ res.2 = i).
Proof.
  unfold POST. destruct req as [body|]; cbn zeta.
  2:{ unfold gret. cbn. split; [|done]. split; [done|]. by intros (? & ? & _). }
  destruct (location body) as [loc|] eqn:Hloc.
  2:{ unfold gret. cbn. split; [|done]. split; [|done].
      intros _. exists body. split; [done|]. by left. }
  destruct (negb (Js.truthy_num (latitude loc))
            && negb (Js.truthy_num (longitude loc))) eqn:Hzero.
  { unfold gret. cbn. split; [|done]. split; [|done].
    intros _. exists body. split; [done|]. right. exists loc.
    apply andb_true_iff in Hzero as [Hlat Hlng].
    apply negb_true_iff, truthy_num_false in Hlat.
    apply negb_true_iff, truthy_num_false in Hlng. done. }
  assert (¬ ∃ body0, Some body = Some body0 ∧
            (location body0 = None ∨
             ∃ loc0, location body0 = Some loc0
                     ∧ (latitude loc0 == 0)%Q ∧ (longitude loc0 == 0)%Q)) as Hno.
  { intros (b & [= <-] & [?|(l & Hl & Hlat & Hlng)]); [congruence|].
    rewrite Hloc in Hl. injection Hl as <-.
    apply truthy_num_false in Hlat, Hlng. by rewrite Hlat, Hlng in Hzero. }
  destruct (SearchCache.get (cacheKey_of body loc) (t_get clock) (searchCache srv)).1
    as [hit|] eqn:Hget.
  { unfold gret. cbn. split; [|done]. split; [done|by intros ?%Hno]. }
  unfold gbind.
  pose proof (search_or_fallback_cases pf clock body loc outcome (errorCount srv) i)
    as Hs.
  destruct (search_or_fallback pf clock body loc outcome (errorCount srv) i)
    as [[searched ec] j].
  cbn [fst snd] in *. destruct searched as [rs md used|resp]; [|done].
  destruct (SearchResultParser.parseRestaurants pf (t_parse clock) rs loc
              (Js.or_str (query body) "") j) as [parsed k].
  unfold gret. cbn [fst snd status].
  split; [|done]. split; [done|by intros ?%Hno].
Qed.





Lemma forallb_string_app p a b :
  Js.forallb_string p (a +:+ b) = Js.forallb_string p a && Js.forallb_string p b.
Proof.
  induction a as [|c a IH]; [done|].
  change (String c a +:+ b) with (String c (a +:+ b)).
  cbn [Js.forallb_string]. by rewrite IH, andb_assoc.
Qed.

Lemma forallb_trimStart p s :
  (∀ c, Js.is_space c = true → p c = true) →
  Js.forallb_string p (Js.trimStart s) = Js.forallb_string p s.
Proof.
  intros Hp. induction s as [|c s IH]; [done|]. cbn [Js.trimStart].
  destruct (Js.is_space c) eqn:Hc; [|done].
  cbn [Js.forallb_string]. by rewrite IH, Hp.
Qed.

Lemma forallb_trimEnd p s :
  (∀ c, Js.is_space c = true → p c = true) →
  Js.forallb_string p (Js.trimEnd s) = Js.forallb_string p s.
Proof.
  intros Hp. induction s as [|c s IH]; [done|]. cbn [Js.trimEnd].
  destruct (Js.trimEnd s) as [|c' t] eqn:Ht.
  - cbn [Js.forallb_string] in *. rewrite <- IH.
    destruct (Js.is_space c) eqn:Hc; cbn [Js.forallb_string].
    + by rewrite Hp.
    + by rewrite andb_true_r.
  - cbn [Js.forallb_string] in *. by rewrite IH.
Qed.

Lemma forallb_trim p s :
  (∀ c, Js.is_space c = true → p c = true) →
  Js.forallb_string p (Js.trim s) = Js.forallb_string p s.
Proof.
  intros Hp. unfold Js.trim. by rewrite forallb_trimEnd, forallb_trimStart.
Qed.

Lemma space_name_char c :
  Js.is_space c = true → SearchResultParser.name_char c = true.
Proof.
  unfold SearchResultParser.name_char. intros ->.
  by rewrite orb_true_r.
Qed.

End RouteMore.

Section FallbackThroughTheParser.
Import Route.
Context (pf : Platform).

(** The name of a fallback restaurant starts with the name of the city. *)
Lemma fallback_entry_name now query loc quality n i :
  ∃ rest,
    Restaurant.name
      (RestaurantSearchErrorHandler.fallback_entry pf now query loc quality n i).1
    = Js.trim (Js.or_str (city loc) "Local" +:+ rest).
Proof.
  unfold RestaurantSearchErrorHandler.fallback_entry. cbv zeta.
  do 10 (apply gbind_fst; intros ? ? _).
  unfold gret. cbn [fst Restaurant.name]. by eexists.
Qed.

Lemma bad_city_bad_name c rest :
  Js.forallb_string SearchResultParser.name_char c = false →
  SearchResultParser.name_regex (Js.trim (Js.or_str (Some c) "Local" +:+ rest))
  = false.
Proof.
  intros Hc. unfold SearchResultParser.name_regex.
  rewrite forallb_trim by apply space_name_char.
  assert (Js.or_str (Some c) "Local" = c) as ->.
  { unfold Js.or_str. by destruct c. }
  by rewrite forallb_string_app, Hc, andb_false_r.
Qed.

Lemma bad_name_invalid data location :
  SearchResultParser.name_regex (SearchResultParser.name data) = false →
  SearchResultParser.isValid
    (SearchResultParser.validateRestaurant pf data location) = false.
Proof.
  intros Hname.
  destruct (Js.truthy_str (SearchResultParser.name data)) eqn:Ht.
  - apply (error_invalidates pf data location
             "Restaurant name contains invalid characters").
    unfold SearchResultParser.validation_errors.
    apply elem_of_app. right. apply elem_of_app. left.
    unfold SearchResultParser.check_name. rewrite Ht, Hname.
    apply elem_of_app. right. apply elem_of_app. right. left.
  - apply (error_invalidates pf data location "Missing required field: name").
    unfold SearchResultParser.validation_errors.
    apply elem_of_app. left. unfold SearchResultParser.check_required.
    apply list_elem_of_omap. exists "name". split; [left|].
    cbv zeta. change (SearchResultParser.required_field data "name")
      with (SearchResultParser.name data). by rewrite Ht.
Qed.

Lemma all_invalid_parse now rawData location q i :
  Forall (λ raw, SearchResultParser.isValid
                   (SearchResultParser.validateRestaurant pf raw location) = false)
         rawData →
  SearchResultParser.valid
    (SearchResultParser.parseRestaurants pf now rawData location q i).1 = [] ∧
  SearchResultParser.invalidCount
    (SearchResultParser.stats
       (SearchResultParser.parseRestaurants pf now rawData location q i).1)
  = Z.of_nat (length rawData).
Proof.
  intros Hall. unfold SearchResultParser.parseRestaurants, gbind, gret.
  pose proof (parse_loop_invalid pf now location q rawData 0 i) as Hinv.
  pose proof (λ r, parse_loop_valid pf now location q rawData 0 i r) as Hval.
  destruct (SearchResultParser.parse_loop pf now location q 0 rawData i)
    as [parts j].
  cbn [fst snd SearchResultParser.valid SearchResultParser.stats
       SearchResultParser.invalidCount] in *.
  assert (parts.1 = []) as ->.
  { destruct parts.1 as [|r rs]; [done|].
    destruct (Hval r ltac:(left)) as (raw & _ & _ & Hraw & Hvalid & _).
    eapply Forall_forall in Hall; [|exact Hraw]. congruence. }
  split; [done|]. rewrite Hinv. f_equal.
  clear Hinv Hval. induction Hall as [|raw l Hraw _ IH]; [done|].
  cbn [omap list_omap]. rewrite Hraw. cbn [length]. by rewrite IH.
Qed.

(** The fallback is not always usable.  Its restaurants are named after the
    city of the request and go through the result parser like any other
    record; when the name of the city has a character outside the name
    pattern of the parser (a comma, say), all six are rejected and the
    route answers 200 with [usedFallback] set and no restaurant at all. *)
Theorem fallback_is_empty_for_unparsable_city clock b loc c err srv i :
  location b = Some loc → city loc = Some c →
  Js.forallb_string SearchResultParser.name_char c = false →
  reaches_provider clock (Some b) srv →
  ∃ body,
    (POST pf clock (Some b) (Threw err) srv i).1.1 = Found body ∧
    usedFallback (searchMetadata body) = true ∧
    restaurants body = [] ∧ totalResults body = 0%Z ∧
    SearchResultParser.invalidCount (qualityStats (searchMetadata body)) = 6%Z.
Proof.
  intros Hloc Hcity Hc (b' & loc' & [= <-] & Hloc' & Hzero & Hmiss).
  rewrite Hloc in Hloc'. injection Hloc' as <-.
  unfold POST. rewrite Hloc. cbn zeta. rewrite Hzero, Hmiss.
  unfold search_or_fallback.
  rewrite bool_decide_true by (by apply fallbackStrategy_not_none).
  pose proof (gmapM_Forall
    (RestaurantSearchErrorHandler.fallback_entry pf (t_fallback clock)
       (Js.or_str (query b) "") loc RestaurantSearchErrorHandler.medium)
    (λ r, SearchResultParser.name_regex (Restaurant.name r) = false)
    (seq 0 6) i) as [HF Hlen].
  { intros n j _.
    destruct (fallback_entry_name (t_fallback clock) (Js.or_str (query b) "")
                loc RestaurantSearchErrorHandler.medium n j) as [rest ->].
    rewrite Hcity. by apply bad_city_bad_name. }
  unfold RestaurantSearchErrorHandler.generateFallbackRestaurants, gbind, gret.
  destruct (gmapM _ (seq 0 6) i) as [fallback j].
  cbn [fst snd] in *.
  set (sorted := Js.sort_by _ fallback).
  assert (Forall (λ raw, SearchResultParser.isValid
                    (SearchResultParser.validateRestaurant pf raw loc) = false)
                 (map as_raw sorted)) as Hall.
  { apply Forall_fmap. unfold sorted. rewrite sort_by_Permutation.
    eapply Forall_impl; [exact HF|]. intros r Hr. by apply bad_name_invalid. }
  destruct (all_invalid_parse (t_parse clock) (map as_raw sorted) loc
              (Js.or_str (query b) "") j Hall) as [Hvalid Hcount].
  destruct (SearchResultParser.parseRestaurants pf (t_parse clock)
              (map as_raw sorted) loc (Js.or_str (query b) "") j) as [parsed k].
  cbn [fst snd] in *.
  eexists. split; [done|].
  cbn [searchMetadata usedFallback restaurants totalResults qualityStats].
  rewrite Hvalid, Hcount.
  assert (length (map as_raw sorted) = 6%nat) as ->.
  { rewrite length_map. unfold sorted.
    by rewrite (Permutation_length (sort_by_Permutation _ _)). }
  match goal with
  | |- context [Js.slice0 ?n ?l] => assert (Js.slice0 n l = []) as ->
  end.
  { match goal with
    | |- Js.slice0 _ ?l = _ => change l with (@nil Restaurant.t)
    end.
    unfold Js.slice0. destruct (default 8 (maxResults b) <? 0)%Z; apply take_nil. }
  done.
Qed.

End FallbackThroughTheParser.

Section RouteMoreExamples.
Import Route.

Lemma POST_rejects_unlocated_witness :
  (POST demo_platform demo_clock (Some unlocated_request) one_hit initial 0%nat).1.2
  = initial.
Proof.
  apply (POST_rejects_unlocated demo_platform demo_clock (Some unlocated_request)
           one_hit initial 0%nat).
  reflexivity.
Defined.


(** The route does not check [maxResults]: for -1, [slice(0, -1)] drops the
    last accepted restaurant and the answer holds the other one. *)
Example POST_negative_maxResults_ex :
  match (POST demo_platform demo_clock (Some negative_request) two_hits initial
           0%nat).1.1 with
  | Found body => length (restaurants body) = 1%nat ∧ totalResults body = 1%Z
  | _ => False
  end.
Proof. by vm_compute. Qed.


Lemma fallback_is_empty_for_unparsable_city_witness :
  ∃ body,
    (POST demo_platform demo_clock (Some pizza_request) rate_limited initial 0%nat).1.1
    = Found body ∧
    usedFallback (searchMetadata body) = true ∧ restaurants body = [].
Proof.
  destruct (fallback_is_empty_for_unparsable_city demo_platform demo_clock
              pizza_request washington "Washington, D.C."
              (thrown "Rate limit exceeded") initial 0%nat)
    as (body & Hbody & Hused & Hnone & _).
  - reflexivity.
  - reflexivity.
  - by vm_compute.
  - exists pizza_request, washington. by vm_compute.
  - exists body. by split_and!.
Defined.

End RouteMoreExamples.

(** * Properties of the query builder *)

Section QueryBuilder.
Import SearchQueryBuilder.

(** Only three fallback queries ever come back, and three are there before
    the price range is looked at: the general one, the top-rated one and,
    in between, the one for the cuisine if there is a cuisine, else the
    local one after them.  The two price-specific fallbacks are never
    returned. *)
Theorem buildFallbackQueries_three (context : SearchContext) (locationStr : string) :
  buildFallbackQueries context locationStr =
  if truthy_opt (cuisine context)
  then [ "best restaurants in " +:+ locationStr;
         default "" (cuisine context) +:+ " restaurants " +:+ locationStr;
         "top rated restaurants near " +:+ locationStr ]
  else [ "best restaurants in " +:+ locationStr;
         "top rated restaurants near " +:+ locationStr;
         "local restaurant recommendations " +:+ locationStr ].
Proof.
  unfold buildFallbackQueries. cbv zeta. by destruct (truthy_opt (cuisine context)).
Qed.

Lemma truthy_num_true (x : Q) : Js.truthy_num x = true ↔ ¬ (x == 0)%Q.
Proof.
  unfold Js.truthy_num. rewrite negb_true_iff.
  split.
  - intros H Hx. apply Qeq_bool_iff in Hx. congruence.
  - intros H. destruct (Qeq_bool x 0) eqn:Hx; [|done].
    apply Qeq_bool_iff in Hx. done.
Qed.

Lemma blank_query (q : string) :
  negb (Js.truthy_str q) || (String.length (Js.trim q) =? 0)%nat = true ↔
  String.length (Js.trim q) = 0%nat.
Proof.
  rewrite orb_true_iff, Nat.eqb_eq. split; [|by right].
  intros [Hq|?]; [|done]. by destruct q.
Qed.

Lemma and_iff_both (A B C D : Prop) : (A ↔ C) → (B ↔ D) → (A ∧ B ↔ C ∧ D).
Proof. tauto. Qed.

(** The contexts that [validateSearchContext] accepts: a location with
    latitude and longitude both different from 0 and with a city or an
    address, a query that is not blank or else a cuisine, and no price range
    or one of two values [lo <= hi] within [1, 5].  A place on the equator or
    on the prime meridian is reported as having no coordinates. *)
Theorem validateSearchContext_valid_iff (context : SearchContext) :
  isValid (validateSearchContext context) = true ↔
  (∃ loc, location context = Some loc ∧
          ¬ (latitude loc == 0)%Q ∧ ¬ (longitude loc == 0)%Q ∧
          (truthy_opt (city loc) = true ∨ truthy_opt (address loc) = true)) ∧
  (String.length (Js.trim (userQuery context)) ≠ 0%nat
   ∨ truthy_opt (cuisine context) = true) ∧
  (priceRange context = None ∨
   ∃ lo hi, priceRange context = Some [lo; hi]
            ∧ (1 <= lo)%Q ∧ (lo <= hi)%Q ∧ (hi <= 5)%Q).
Proof.
  unfold validateSearchContext. cbn [isValid]. rewrite Nat.eqb_eq.
  rewrite length_zero_iff_nil, !app_nil.
  apply and_iff_both; [|apply and_iff_both].
  - destruct (location context) as [loc|].
    + rewrite app_nil.
      destruct (negb (Js.truthy_num (latitude loc))
                || negb (Js.truthy_num (longitude loc))) eqn:Hc.
      * split; [by intros [? _]|]. intros (l & [= <-] & Hlat & Hlng & _).
        apply truthy_num_true in Hlat, Hlng. by rewrite Hlat, Hlng in Hc.
      * apply orb_false_iff in Hc as [Hlat Hlng].
        apply negb_false_iff, truthy_num_true in Hlat.
        apply negb_false_iff, truthy_num_true in Hlng.
        destruct (truthy_opt (city loc)) eqn:Hcity;
          destruct (truthy_opt (address loc)) eqn:Haddr; cbn [negb andb].
        -- split; [|done]. intros _. exists loc. by split_and!; [..|left].
        -- split; [|done]. intros _. exists loc. by split_and!; [..|left].
        -- split; [|done]. intros _. exists loc. by split_and!; [..|right].
        -- split; [by intros [_ ?]|].
           intros (l & [= <-] & _ & _ & [?|?]); congruence.
    + split; [done|]. by intros (? & ? & _).
  - destruct (negb (Js.truthy_str (userQuery context))
              || (String.length (Js.trim (userQuery context)) =? 0)%nat) eqn:Hq.
    + apply blank_query in Hq.
      destruct (truthy_opt (cuisine context)); cbn [negb].
      * split; [by right|done].
      * split; [done|]. by intros [?|?].
    + split; [|done]. intros _. left. intros Hlen.
      apply blank_query in Hlen. congruence.
  - destruct (priceRange context) as [[|lo [|hi [|x pr]]]|].
    + split; [done|]. by intros [?|(? & ? & ? & _)].
    + split; [done|]. by intros [?|(? & ? & ? & _)].
    + destruct (Js.Qltb lo 1 || Js.Qgtb hi 5) eqn:Hr.
      * split; [done|]. intros [?|(lo' & hi' & [= <- <-] & H1 & _ & H5)]; [done|].
        apply orb_true_iff in Hr as [Hr|Hr];
          apply negb_true_iff, Qle_bool_false in Hr; lra.
      * apply orb_false_iff in Hr as [H1 H5].
        apply negb_false_iff, Qle_bool_iff in H1.
        apply negb_false_iff, Qle_bool_iff in H5.
        destruct (Js.Qgtb lo hi) eqn:Ho.
        -- split; [done|]. intros [?|(lo' & hi' & [= <- <-] & _ & Hle & _)]; [done|].
           apply negb_true_iff, Qle_bool_false in Ho. lra.
        -- apply negb_false_iff, Qle_bool_iff in Ho.
           split; [|done]. intros _. right. by exists lo, hi.
    + split; [done|]. by intros [?|(? & ? & ? & _)].
    + split; [|done]. intros _. by left.
Qed.

(** The confidence of a query strategy lies in [50, 100]; the method throws
    exactly when the context has no location. *)
Theorem calculateQueryConfidence_range (context : SearchContext) :
  (calculateQueryConfidence context = None ↔ location context = None) ∧
  ∀ c, calculateQueryConfidence context = Some c → (50 ≤ c ≤ 100)%Z.
Proof.
  unfold calculateQueryConfidence. cbv zeta.
  destruct (location context) as [loc|]; [|done].
  split; [done|]. intros c [= <-].
  assert (0 ≤ if (0 <? String.length (cleanUserQuery (userQuery context)))%nat
              then Z.min 20 (Z.of_nat (length (Js.split_on " "
                       (cleanUserQuery (userQuery context)))) * 5)
              else 0)%Z as Hq.
  { destruct (0 <? _)%nat; lia. }
  revert Hq. generalize (if (0 <? String.length (cleanUserQuery (userQuery context)))%nat
              then Z.min 20 (Z.of_nat (length (Js.split_on " "
                       (cleanUserQuery (userQuery context)))) * 5)
              else 0)%Z.
  intros z Hz.
  destruct (truthy_opt (city loc)), (truthy_opt (state loc)),
    (truthy_opt (postalCode loc)), (truthy_opt (cuisine context)),
    (dietaryRestrictions context) as [[|??]|], (priceRange context),
    (truthy_opt (occasion context)); lia.
Qed.

End QueryBuilder.

Section QueryBuilderExamples.
Import SearchQueryBuilder.

Example cleanUserQuery_ex :
  cleanUserQuery "Find me the BEST sushi-place!!" = "best sushi" ∧
  cleanUserQuery "food near me" = "" ∧
  Js.split_on " " "best sushi" = ["best"; "sushi"].
Proof. by vm_compute. Qed.

(** A request from Quito, on the equator. *)
Lemma validateSearchContext_valid_iff_witness :
  isValid (validateSearchContext
             (mkSearchContext "ceviche"
                (Some (mkLocation 0 (-785 # 10) None (Some "Quito") None None None))
                None None None None)) = false.
Proof.
  match goal with
  | |- isValid ?v = false => destruct (isValid v) eqn:Hv; [|done]
  end.
  apply validateSearchContext_valid_iff in Hv as [(loc & [= <-] & Hlat & _) _].
  exfalso. by apply Hlat.
Defined.

Example calculateQueryConfidence_ex :
  calculateQueryConfidence
    (mkSearchContext "best sushi" (Some here) (Some "Japanese") None None None)
  = Some 85%Z ∧
  calculateQueryConfidence
    (mkSearchContext "best sushi" None (Some "Japanese") None None None) = None.
Proof. by vm_compute. Qed.

Lemma calculateQueryConfidence_range_witness :
  ∃ c, calculateQueryConfidence
         (mkSearchContext "best sushi" (Some here) (Some "Japanese") None None None)
       = Some c ∧ (50 ≤ c ≤ 100)%Z.
Proof.
  exists 85%Z. split; [by vm_compute|].
  apply (calculateQueryConfidence_range
           (mkSearchContext "best sushi" (Some here) (Some "Japanese")
              None None None)).
  by vm_compute.
Defined.

End QueryBuilderExamples.

(** * Properties of the cache of the search provider *)

Section ProviderCache.
Context {T : Type}.
Import OpenAISearchService.

Implicit Types (m cache : Store T) (k key : string) (v : Cached T).

Lemma map_get_None k m : map_get k m = None ↔ k ∉ m.*1.
Proof.
  induction m as [|[k' v] m IH]; simpl.
  - split; [intros _; apply not_elem_of_nil|done].
  - case_decide as Hk.
    + subst. split; [done|]. intros []. by left.
    + rewrite IH, not_elem_of_cons. naive_solver.
Qed.

Lemma map_delete_keys k m : (map_delete k m).*1 `sublist_of` m.*1.
Proof.
  induction m as [|[k' v] m IH]; simpl; [done|].
  case_decide; [by apply sublist_cons|by apply sublist_skip].
Qed.

Lemma map_delete_length k m : (length (map_delete k m) ≤ length m)%nat.
Proof.
  rewrite <- !(length_fmap fst). apply sublist_length, map_delete_keys.
Qed.

Lemma map_delete_NoDup k m : NoDup m.*1 → NoDup (map_delete k m).*1.
Proof. intros. by eapply sublist_NoDup, map_delete_keys. Qed.

Lemma map_get_delete k m : NoDup m.*1 → map_get k (map_delete k m) = None.
Proof.
  induction m as [|[k' v] m IH]; simpl; [done|]. intros Hnd.
  apply NoDup_cons in Hnd as [Hk' Hnd]. case_decide as Hk.
  - subst. by apply map_get_None.
  - simpl. rewrite decide_False by done. by apply IH.
Qed.

Lemma map_get_delete_ne k k' m :
  k ≠ k' → map_get k (map_delete k' m) = map_get k m.
Proof.
  intros Hne. induction m as [|[k0 v] m IH]; simpl; [done|].
  destruct (decide (k0 = k')) as [->|Hk0].
  - by rewrite decide_False.
  - simpl. by rewrite IH.
Qed.

Lemma map_set_keys k v m :
  (map_set k v m).*1 = if decide (k ∈ m.*1) then m.*1 else (m.*1 ++ [k])%list.
Proof.
  induction m as [|[k' v'] m IH]; [done|].
  cbn [map_set]. rewrite (fmap_cons fst _ m). cbn [fst].
  destruct (decide (k' = k)) as [->|Hk].
  - rewrite fmap_cons. cbn [fst]. rewrite decide_True; [done|by left].
  - rewrite fmap_cons. cbn [fst]. rewrite IH.
    destruct (decide (k ∈ m.*1)) as [Hin|Hin].
    + rewrite decide_True; [done|by right].
    + rewrite decide_False; [done|]. rewrite not_elem_of_cons. naive_solver.
Qed.

Lemma map_set_NoDup k v m : NoDup m.*1 → NoDup (map_set k v m).*1.
Proof.
  intros Hnd. rewrite map_set_keys. case_decide as Hk; [done|].
  apply NoDup_app. split_and!; [done| |apply NoDup_singleton].
  intros x Hx ->%list_elem_of_singleton. done.
Qed.

Lemma map_set_length k v m :
  length (map_set k v m)
  = if decide (k ∈ m.*1) then length m else S (length m).
Proof.
  rewrite <- !(length_fmap fst), map_set_keys.
  case_decide; [done|]. rewrite length_app. simpl. lia.
Qed.

Lemma map_get_set k v m : map_get k (map_set k v m) = Some v.
Proof.
  induction m as [|[k' v'] m IH]; simpl.
  - by rewrite decide_True.
  - case_decide as Hk; simpl; [by rewrite decide_True|].
    by rewrite decide_False.
Qed.

Lemma map_get_set_ne k k' v m : k ≠ k' → map_get k (map_set k' v m) = map_get k m.
Proof.
  intros Hne. induction m as [|[k0 v0] m IH]; simpl.
  - by rewrite decide_False.
  - destruct (decide (k0 = k')) as [->|Hk0]; simpl.
    + by rewrite !decide_False.
    + by rewrite IH.
Qed.

Lemma store_ok_getFromCache k now cache :
  store_ok cache → store_ok (getFromCache k now cache).2.
Proof.
  intros [Hnd Hlen]. unfold getFromCache.
  destruct (map_get k cache) as [c|]; [|done].
  destruct (now - timestamp c >? CACHE_TTL)%Z; [|done].
  split; [by apply map_delete_NoDup|].
  pose proof (map_delete_length k cache). simpl. lia.
Qed.

Lemma store_ok_cacheResult k (r : T) now cache :
  store_ok cache → store_ok (cacheResult k r now cache).
Proof.
  intros [Hnd Hlen]. unfold cacheResult.
  destruct (MAX_CACHE_SIZE <=? length cache)%nat eqn:Hfull.
  - apply Nat.leb_le in Hfull.
    destruct cache as [|[k0 v0] rest]; [by vm_compute in Hfull; lia|].
    cbn [map_delete]. rewrite decide_True by done.
    apply NoDup_cons in Hnd as [_ Hnd]. cbn [length] in *.
    split; [by apply map_set_NoDup|].
    rewrite map_set_length. case_decide; lia.
  - apply Nat.leb_gt in Hfull.
    split; [by apply map_set_NoDup|].
    rewrite map_set_length. case_decide; lia.
Qed.

(** Whatever is read and written, the keys of the provider's cache stay
    distinct and never number more than 100. *)
Theorem provider_cache_bounded (ops : list (op T)) :
  store_ok (run ops []).
Proof.
  induction ops as [|o ops IH] using rev_ind.
  - split; [constructor|simpl; unfold MAX_CACHE_SIZE; lia].
  - unfold run in *. rewrite foldl_app. simpl.
    destruct o as [k now|k r now|]; simpl.
    + by apply store_ok_getFromCache.
    + by apply store_ok_cacheResult.
    + split; [constructor|simpl; unfold MAX_CACHE_SIZE; lia].
Qed.

(** The provider's cache evicts in insertion order, not by use.  When it is
    full, writing any other key removes the entry that was inserted first,
    even if that entry was just read, and even if the key written is
    already stored, in which case the cache shrinks to 99 entries; a hit
    never changes the cache. *)
Theorem provider_cache_evicts_oldest k0 (v0 : Cached T) rest k (r : T) now t :
  let cache := (k0, v0) :: rest in
  store_ok cache → length cache = MAX_CACHE_SIZE → k ≠ k0 →
  (is_Some (getFromCache k0 t cache).1 → (getFromCache k0 t cache).2 = cache) ∧
  map_get k0 (cacheResult k r now cache) = None ∧
  map_get k (cacheResult k r now cache) = Some (mkCached r now) ∧
  (is_Some (map_get k cache) → length (cacheResult k r now cache) = 99%nat).
Proof.
  intros cache [Hnd _] Hlen Hne. split_and!.
  - unfold getFromCache. destruct (map_get k0 cache) as [c|]; [|done].
    destruct (t - timestamp c >? CACHE_TTL)%Z; [|done]. by intros [? ?].
  - unfold cacheResult. rewrite Hlen, Nat.leb_refl.
    unfold cache. cbn [map_delete]. rewrite decide_True by done.
    rewrite map_get_set_ne by done. apply map_get_None.
    by apply NoDup_cons in Hnd as [? _].
  - unfold cacheResult. by rewrite map_get_set.
  - intros Hk. unfold cacheResult. rewrite Hlen, Nat.leb_refl.
    unfold cache. cbn [map_delete]. rewrite decide_True by done.
    rewrite map_set_length.
    unfold cache in Hk. cbn [map_get] in Hk. rewrite decide_False in Hk by done.
    rewrite decide_True.
    + unfold cache in Hlen. cbn [length] in Hlen. unfold MAX_CACHE_SIZE in Hlen. lia.
    + destruct (decide (k ∈ rest.*1)) as [?|Hn]; [done|].
      apply map_get_None in Hn. rewrite Hn in Hk. by destruct Hk.
Qed.

(** A result written at [t0] is served up to and including 30 minutes
    later; after that the read misses and removes the entry. *)
Theorem provider_cache_expiry k (r : T) (t0 t1 : Z) cache :
  store_ok cache →
  let cache1 := cacheResult k r t0 cache in
  ((t1 - t0 ≤ CACHE_TTL)%Z →
     getFromCache k t1 cache1 = (Some r, cache1)) ∧
  ((t1 - t0 > CACHE_TTL)%Z →
     (getFromCache k t1 cache1).1 = None ∧
     map_get k (getFromCache k t1 cache1).2 = None).
Proof.
  intros Hok cache1.
  pose proof (store_ok_cacheResult k r t0 cache Hok) as [Hnd _]. fold cache1 in Hnd.
  assert (map_get k cache1 = Some (mkCached r t0)) as Hget.
  { unfold cache1, cacheResult. by rewrite map_get_set. }
  unfold getFromCache. rewrite Hget. cbn [timestamp data]. split; intros Ht.
  - by assert ((t1 - t0 >? CACHE_TTL)%Z = false) as -> by lia.
  - assert ((t1 - t0 >? CACHE_TTL)%Z = true) as -> by lia.
    split; [done|]. by apply map_get_delete.
Qed.

End ProviderCache.

Section ProviderCacheExamples.
Import OpenAISearchService.

Lemma provider_cache_evicts_oldest_witness :
  (getFromCache "k0" 100 full_store).1 = Some "r0" ∧
  map_get "k0" (cacheResult "k7" "again"
                  101 (getFromCache "k0" 100 full_store).2) = None ∧
  length (cacheResult "k7" "again" 101 (getFromCache "k0" 100 full_store).2)
  = 99%nat.
Proof.
  split; [by vm_compute|].
  assert (store_ok full_store) as Hok.
  { split; [|by vm_compute]. apply (bool_decide_unpack _). by vm_compute. }
  destruct (provider_cache_evicts_oldest "k0" (mkCached "r0" 0)
              (tail full_store) "k7" "again" 101 100 Hok)
    as (Hhit & Hgone & _ & Hshrink).
  - by vm_compute.
  - done.
  - change (("k0", mkCached "r0" 0) :: tail full_store) with full_store in *.
    rewrite Hhit by (by vm_compute; eexists).
    split; [exact Hgone|]. apply Hshrink. vm_compute. by eexists.
Defined.

Lemma provider_cache_expiry_witness :
  getFromCache "k" (30 * 60 * 1000) (cacheResult "k" "r" 0 [])
  = (Some "r", cacheResult "k" "r" 0 []) ∧
  (getFromCache "k" (30 * 60 * 1000 + 1) (cacheResult "k" "r" 0 [])).1 = None.
Proof.
  assert (store_ok (T := string) []) as Hok
    by (split; [apply NoDup_nil_2|unfold MAX_CACHE_SIZE; simpl; lia]).
  split.
  - apply (provider_cache_expiry "k" "r" 0 (30 * 60 * 1000) [] Hok). by vm_compute.
  - apply (provider_cache_expiry "k" "r" 0 (30 * 60 * 1000 + 1) [] Hok).
    by vm_compute.
Defined.

End ProviderCacheExamples.

(** * Cleaning a query twice *)

Section CleanQuery.
Import SearchQueryBuilder.

Lemma lower_ascii_idem c : Js.lower_ascii (Js.lower_ascii c) = Js.lower_ascii c.
Proof.
  unfold Js.lower_ascii. destruct (Js.is_upper c) eqn:Hu; [|by rewrite Hu].
  unfold Js.is_upper in *. apply andb_true_iff in Hu as [H1 H2].
  apply Nat.leb_le in H1, H2.
  rewrite nat_ascii_embedding by lia.
  assert ((nat_of_ascii c + 32 <=? 90)%nat = false) as -> by (apply Nat.leb_gt; lia).
  by rewrite andb_false_r.
Qed.

Lemma blank_lower_char c0 :
  let c := blank_punctuation (Js.lower_ascii c0) in
  Js.is_space c || clean_char c = true.
Proof.
  cbv zeta. unfold blank_punctuation.
  destruct (Js.is_space (Js.lower_ascii c0)) eqn:Hs.
  - rewrite orb_true_r. by rewrite Hs.
  - rewrite orb_false_r. destruct (Js.is_word (Js.lower_ascii c0)) eqn:Hw; [|done].
    rewrite Hs. unfold clean_char. rewrite Hs, Hw, lower_ascii_idem.
    by rewrite Ascii.eqb_refl.
Qed.

Lemma blank_lower_string q :
  Js.forallb_string (λ c, Js.is_space c || clean_char c)
    (Js.map_string blank_punctuation (Js.toLowerCase q)) = true.
Proof.
  induction q as [|c q IH]; [done|].
  cbn [Js.toLowerCase Js.map_string Js.forallb_string].
  by rewrite IH, blank_lower_char.
Qed.

Lemma split_ws_go_forall (p : ascii → bool) cur gap s :
  Js.forallb_string p cur = true →
  Js.forallb_string (λ c, Js.is_space c || p c) s = true →
  Forall (λ w, Js.forallb_string p w = true) (Js.split_ws_go cur gap s).
Proof.
  revert cur gap. induction s as [|c s IH]; intros cur gap Hcur Hs.
  - by repeat constructor.
  - cbn [Js.forallb_string] in Hs. apply andb_true_iff in Hs as [Hc Hs].
    cbn [Js.split_ws_go]. destruct (Js.is_space c) eqn:Hsp.
    + destruct gap; [by apply IH|]. constructor; [done|by apply IH].
    + cbn [orb] in Hc. apply IH; [|done]. rewrite forallb_string_app, Hcur.
      cbn [Js.forallb_string]. by rewrite Hc.
Qed.

Lemma string_app_cons c (a b : string) : String c a +:+ b = String c (a +:+ b).
Proof. done. Qed.

Lemma string_app_nil_r (s : string) : s +:+ "" = s.
Proof. induction s as [|c s IH]; [done|]. by rewrite string_app_cons, IH. Qed.

Lemma string_app_assoc (a b c : string) : (a +:+ b) +:+ c = a +:+ (b +:+ c).
Proof.
  induction a as [|x a IH]; [done|]. by rewrite !string_app_cons, IH.
Qed.

Lemma clean_char_not_space c : clean_char c = true → Js.is_space c = false.
Proof.
  unfold clean_char. intros [[H _]%andb_true_iff _]%andb_true_iff.
  by apply negb_true_iff.
Qed.

(** Reading a word without white space moves it into the current piece. *)
Lemma split_ws_go_word cur w rest :
  Js.forallb_string clean_char w = true →
  Js.split_ws_go cur false (w +:+ rest) = Js.split_ws_go (cur +:+ w) false rest.
Proof.
  revert cur. induction w as [|c w IH]; intros cur Hw.
  - by rewrite string_app_nil_r.
  - cbn [Js.forallb_string] in Hw. apply andb_true_iff in Hw as [Hc Hw].
    change (String c w +:+ rest) with (String c (w +:+ rest)).
    cbn [Js.split_ws_go]. rewrite (clean_char_not_space c Hc).
    rewrite IH by done. by rewrite string_app_assoc.
Qed.

Lemma split_ws_go_gap_word w rest :
  Js.forallb_string clean_char w = true → w ≠ "" →
  Js.split_ws_go "" true (w +:+ rest) = Js.split_ws_go w false rest.
Proof.
  intros Hw Hne. destruct w as [|c w]; [done|].
  cbn [Js.forallb_string] in Hw. apply andb_true_iff in Hw as [Hc Hw].
  change (String c w +:+ rest) with (String c (w +:+ rest)).
  cbn [Js.split_ws_go]. rewrite (clean_char_not_space c Hc).
  by rewrite split_ws_go_word.
Qed.

Lemma join_cons2 sep w w2 l :
  Js.join sep (w :: w2 :: l) = w +:+ sep +:+ Js.join sep (w2 :: l).
Proof. done. Qed.

Lemma split_ws_go_join gap W :
  W ≠ [] →
  Forall (λ w, Js.forallb_string clean_char w = true ∧ w ≠ "") W →
  Js.split_ws_go "" gap (Js.join " " W) = W.
Proof.
  intros Hne HW. revert gap.
  induction HW as [|w W [Hw Hw0] HW IH]; intros gap; [done|].
  assert (∀ rest, Js.split_ws_go "" gap (w +:+ rest) = Js.split_ws_go w false rest)
    as Hstart.
  { intros rest. destruct gap; [by apply split_ws_go_gap_word|].
    by rewrite split_ws_go_word. }
  destruct W as [|w2 W].
  - cbn [Js.join]. rewrite <- (string_app_nil_r w) at 1. by rewrite Hstart.
  - rewrite join_cons2, Hstart.
    change (" " +:+ Js.join " " (w2 :: W))
      with (String " " (Js.join " " (w2 :: W))).
    cbn [Js.split_ws_go]. change (Js.is_space " ") with true. cbv iota.
    by rewrite IH.
Qed.

Lemma trimEnd_word a w :
  Js.forallb_string clean_char w = true → w ≠ "" →
  Js.trimEnd (a +:+ w) = a +:+ w.
Proof.
  intros Hw Hne. induction a as [|c a IH].
  - change ("" +:+ w) with w. clear Hne0 || idtac.
    induction w as [|c w IH]; [done|].
    cbn [Js.forallb_string] in Hw. apply andb_true_iff in Hw as [Hc Hw].
    cbn [Js.trimEnd]. destruct w as [|c2 w].
    + cbn [Js.trimEnd]. by rewrite (clean_char_not_space c Hc).
    + by rewrite IH.
  - change (String c a +:+ w) with (String c (a +:+ w)).
    cbn [Js.trimEnd]. rewrite IH.
    destruct (a +:+ w) as [|x y] eqn:Haw; [|done].
    destruct a; [|done]. by destruct w.
Qed.

Lemma join_ends_with_word W :
  W ≠ [] → ∃ a w, w ∈ W ∧ Js.join " " W = a +:+ w.
Proof.
  induction W as [|w W IH]; [done|]. intros _.
  destruct W as [|w2 W].
  - exists "", w. split; [by left|done].
  - destruct IH as (a & w' & Hin & Hjoin); [done|].
    exists (w +:+ " " +:+ a), w'. split; [by right|].
    rewrite join_cons2, Hjoin. by rewrite !string_app_assoc.
Qed.

Lemma trim_join W :
  W ≠ [] →
  Forall (λ w, Js.forallb_string clean_char w = true ∧ w ≠ "") W →
  Js.trim (Js.join " " W) = Js.join " " W.
Proof.
  intros Hne HW. unfold Js.trim.
  assert (Js.trimStart (Js.join " " W) = Js.join " " W) as ->.
  { destruct W as [|w W]; [done|].
    apply Forall_cons in HW as [[Hw Hw0] _].
    destruct w as [|c w]; [done|].
    cbn [Js.forallb_string] in Hw. apply andb_true_iff in Hw as [Hc _].
    assert (∃ rest, Js.join " " (String c w :: W) = String c rest) as [rest ->].
    { destruct W; by eexists. }
    cbn [Js.trimStart]. by rewrite (clean_char_not_space c Hc). }
  destruct (join_ends_with_word W Hne) as (a & w & Hin & ->).
  eapply Forall_forall in HW as [Hw Hw0]; [|exact Hin].
  by apply trimEnd_word.
Qed.

Lemma join_forall (p : ascii → bool) W :
  p " "%char = true →
  Forall (λ w, Js.forallb_string p w = true) W →
  Js.forallb_string p (Js.join " " W) = true.
Proof.
  intros Hsp. induction 1 as [|w W Hw HW IH]; [done|].
  destruct W as [|w2 W]; [done|].
  rewrite join_cons2, !forallb_string_app, Hw, IH.
  cbn [Js.forallb_string]. by rewrite Hsp.
Qed.

Lemma toLowerCase_fixed s :
  Js.forallb_string (λ c, Ascii.eqb (Js.lower_ascii c) c) s = true →
  Js.toLowerCase s = s.
Proof.
  induction s as [|c s IH]; [done|]. cbn [Js.forallb_string Js.toLowerCase].
  intros [Hc Hs]%andb_true_iff. apply Ascii.eqb_eq in Hc. by rewrite Hc, IH.
Qed.

Lemma blank_punctuation_fixed s :
  Js.forallb_string (λ c, Js.is_word c || Js.is_space c) s = true →
  Js.map_string blank_punctuation s = s.
Proof.
  induction s as [|c s IH]; [done|]. cbn [Js.forallb_string Js.map_string].
  intros [Hc Hs]%andb_true_iff. rewrite IH by done.
  unfold blank_punctuation. by rewrite Hc.
Qed.

Lemma forallb_string_impl (p q : ascii → bool) s :
  (∀ c, p c = true → q c = true) →
  Js.forallb_string p s = true → Js.forallb_string q s = true.
Proof.
  intros Hpq. induction s as [|c s IH]; [done|]. cbn [Js.forallb_string].
  intros [Hc Hs]%andb_true_iff. by rewrite (Hpq c Hc), IH.
Qed.

Lemma filter_all {A} (P : A → Prop) `{!∀ x, Decision (P x)} (l : list A) :
  Forall P l → filter P l = l.
Proof.
  induction 1 as [|x l Hx _ IH]; [done|].
  by rewrite filter_cons_True, IH.
Qed.

(** Cleaning a query is idempotent: what [cleanUserQuery] returns is
    lower-case words of more than two letters, digits or underscores, none
    of them a stop word, separated by single spaces, and cleaning that
    again changes nothing. *)
Theorem cleanUserQuery_idempotent (query : string) :
  cleanUserQuery (cleanUserQuery query) = cleanUserQuery query.
Proof.
  unfold cleanUserQuery at 2 3.
  destruct (negb (Js.truthy_str query)); [done|]. cbv zeta.
  set (P := λ word : string, (2 < String.length word)%nat ∧ word ∉ stopWords).
  set (W := filter P (Js.split_ws
                        (Js.map_string blank_punctuation (Js.toLowerCase query)))).
  assert (Forall (λ w, Js.forallb_string clean_char w = true ∧ w ≠ "" ∧ P w) W)
    as HW.
  { apply Forall_forall. intros w [HP Hin]%list_elem_of_filter.
    pose proof (split_ws_go_forall clean_char "" false _ eq_refl
                  (blank_lower_string query)) as Hpieces.
    eapply Forall_forall in Hpieces; [|exact Hin].
    split_and!; [done| |done]. intros ->. destruct HP as [Hlen _].
    simpl in Hlen. lia. }
  destruct W as [|w0 W0] eqn:HWeq; [done|]. rewrite <- HWeq in *.
  assert (W ≠ []) as Hne by (by rewrite HWeq).
  assert (Forall (λ w, Js.forallb_string clean_char w = true ∧ w ≠ "") W) as HW'.
  { eapply Forall_impl; [exact HW|]. by intros w (? & ? & _). }
  rewrite trim_join by done.
  unfold cleanUserQuery.
  assert (Js.truthy_str (Js.join " " W) = true) as ->.
  { pose proof HW as HW0. rewrite HWeq in HW0 |- *.
    apply Forall_cons in HW0 as [(_ & Hw0 & _) _].
    destruct w0; [done|]. by destruct W0. }
  cbn [negb]. cbv zeta.
  assert (Js.forallb_string (λ c, clean_char c || Ascii.eqb c " ")
            (Js.join " " W) = true) as Hchars.
  { apply join_forall; [done|]. eapply Forall_impl; [exact HW'|].
    intros w [Hw _]. revert Hw. apply forallb_string_impl.
    intros c ->. done. }
  rewrite toLowerCase_fixed.
  2:{ revert Hchars. apply forallb_string_impl. intros c [Hc|Hc]%orb_true_iff.
      - unfold clean_char in Hc. by apply andb_true_iff in Hc as [_ ?].
      - apply Ascii.eqb_eq in Hc. by subst. }
  rewrite blank_punctuation_fixed.
  2:{ revert Hchars. apply forallb_string_impl. intros c [Hc|Hc]%orb_true_iff.
      - unfold clean_char in Hc.
        apply andb_true_iff in Hc as [[_ Hw]%andb_true_iff _]. by rewrite Hw.
      - apply Ascii.eqb_eq in Hc. by subst. }
  unfold Js.split_ws. rewrite split_ws_go_join by done.
  rewrite filter_all; [by rewrite trim_join|].
  eapply Forall_impl; [exact HW|]. by intros w (_ & _ & ?).
Qed.

End CleanQuery.
